(** * FinOps-Copilot: enrichment, KPIs and recommendation detectors

    A shallow embedding of [app/analytics.py] and [app/recommendations.py].

    Modelling conventions.
    - A DataFrame is a [list] of row records, in row order.
    - A finite Python/NumPy float is an exact rational ([Q]); rounding error
      and overflow are outside the model, so the order in which a sum adds
      its terms does not matter.  A float column whose cells are finite or
      missing is a column of [option Q], with [None] for NaN.  Where the
      code divides by a number that may be zero the result is an [fnum],
      which adds [NaN] and the two infinities with the IEEE rules for them.
    - A string is a [string] of bytes; [str.strip] removes the ASCII
      characters for which Python's [str.isspace] holds.
    - pandas behaviour the code relies on is written out where it is used
      ([astype(str)], [merge(validate="m:1")], [groupby] with its default
      [sort=True, dropna=True], [shift], [sum] skipping NaN). *)

From Stdlib Require Import List String Ascii Bool Arith ZArith QArith Qround Qabs.
From Stdlib Require Import Lia Lqa Permutation Sorted.
Import ListNotations.

Local Open Scope string_scope.
Local Open Scope list_scope.
Local Open Scope Q_scope.

(* ================================================================== *)
(** ** Floats, rounding and sums                                        *)
(* ================================================================== *)

Module Float.

(** A float that may be non-finite. *)
Inductive fnum : Type :=
| Fin (q : Q)
| PInf
| NInf
| NaN.

Definition Qsign (q : Q) : comparison := Qcompare q 0.

(** Float division as NumPy performs it on a column: no exception, the
    special values of IEEE 754 at a zero denominator. *)
Definition fdiv (a b : Q) : fnum :=
  if Qeq_bool b 0 then
    match Qsign a with
    | Eq => NaN
    | Gt => PInf
    | Lt => NInf
    end
  else Fin (a / b).

Definition Qltb (a b : Q) : bool :=
  match Qcompare a b with Lt => true | _ => false end.

Definition Qleb (a b : Q) : bool :=
  match Qcompare a b with Gt => false | _ => true end.

(** [x < t] on floats: every comparison with NaN is false. *)
Definition flt (x : fnum) (t : Q) : bool :=
  match x with
  | Fin q => Qltb q t
  | NInf => true
  | PInf => false
  | NaN => false
  end.

Definition fadd (x y : fnum) : fnum :=
  match x, y with
  | NaN, _ | _, NaN => NaN
  | PInf, NInf | NInf, PInf => NaN
  | PInf, _ | _, PInf => PInf
  | NInf, _ | _, NInf => NInf
  | Fin a, Fin b => Fin (a + b)
  end.

(** Multiplication and division of a float by a finite rational. *)
Definition fscale (x : fnum) (k : Q) : fnum :=
  match x with
  | Fin a => Fin (a * k)
  | NaN => NaN
  | PInf => match Qsign k with Gt => PInf | Lt => NInf | Eq => NaN end
  | NInf => match Qsign k with Gt => NInf | Lt => PInf | Eq => NaN end
  end.

Definition fdivn (x : fnum) (n : nat) : fnum :=
  match x with
  | Fin a => Fin (a / inject_Z (Z.of_nat n))
  | other => other
  end.

(** Round half to even, to the nearest integer. *)
Definition round_half_even (q : Q) : Z :=
  let f := Qfloor q in
  match Qcompare (q - inject_Z f) (1 # 2) with
  | Lt => f
  | Gt => (f + 1)%Z
  | Eq => if Z.even f then f else (f + 1)%Z
  end.

Definition pow10 (n : nat) : Q := inject_Z (10 ^ Z.of_nat n).

(** [round(q, n)]. *)
Definition round_dec (n : nat) (q : Q) : Q :=
  inject_Z (round_half_even (q * pow10 n)) / pow10 n.

Definition fround (n : nat) (x : fnum) : fnum :=
  match x with
  | Fin q => Fin (round_dec n q)
  | other => other
  end.

(** [Series.sum()] of a finite column. *)
Definition Qsum (l : list Q) : Q := fold_right Qplus 0 l.

(** [Series.sum()] with its default [skipna=True]. *)
Fixpoint fsum_skipna (l : list fnum) : fnum :=
  match l with
  | [] => Fin 0
  | NaN :: r => fsum_skipna r
  | x :: r => fadd x (fsum_skipna r)
  end.

(** [Series.max()] of a finite column; [None] stands for the NaN that an
    empty column gives. *)
Fixpoint Qmax_list (l : list Q) : option Q :=
  match l with
  | [] => None
  | x :: r =>
      match Qmax_list r with
      | None => Some x
      | Some m => Some (if Qltb x m then m else x)
      end
  end.

Definition is_nan (x : fnum) : bool :=
  match x with
  | NaN => true
  | _ => false
  end.

(** [Series.mean()], skipping NaN. *)
Definition fmean (l : list fnum) : fnum :=
  match filter (fun x => negb (is_nan x)) l with
  | [] => NaN
  | l' => fdivn (fsum_skipna l') (List.length l')
  end.

(** [Series.sum()] of a column whose cells are finite or NaN ([None]). *)
Fixpoint Qsum_skipna (l : list (option Q)) : Q :=
  match l with
  | [] => 0
  | Some q :: r => q + Qsum_skipna r
  | None :: r => Qsum_skipna r
  end.

End Float.
Import Float.

(* ================================================================== *)
(** ** Strings and keys                                                 *)
(* ================================================================== *)

Module Str.

(** ASCII characters with [str.isspace()]: TAB..CR, FS..US and space. *)
Definition is_space (c : ascii) : bool :=
  let n := nat_of_ascii c in
  ((9 <=? n)%nat && (n <=? 13)%nat) || ((28 <=? n)%nat && (n <=? 32)%nat).

Fixpoint lstrip (s : string) : string :=
  match s with
  | EmptyString => EmptyString
  | String c r => if is_space c then lstrip r else s
  end.

Fixpoint rstrip (s : string) : string :=
  match s with
  | EmptyString => EmptyString
  | String c r =>
      match rstrip r with
      | EmptyString => if is_space c then EmptyString else String c EmptyString
      | r' => String c r'
      end
  end.

(** [str.strip()]. *)
Definition strip (s : string) : string := rstrip (lstrip s).

Definition first_char (s : string) : option ascii :=
  match s with
  | EmptyString => None
  | String c _ => Some c
  end.

Fixpoint last_char (s : string) : option ascii :=
  match s with
  | EmptyString => None
  | String c EmptyString => Some c
  | String _ r => last_char r
  end.

Definition not_space (o : option ascii) : Prop :=
  match o with
  | None => True
  | Some c => is_space c = false
  end.

(** No leading and no trailing whitespace. *)
Definition trimmed (s : string) : Prop :=
  not_space (first_char s) /\ not_space (last_char s).

End Str.

(* ================================================================== *)
(** ** pandas: groupby, shift, sort                                     *)
(* ================================================================== *)

Module Frame.

Definition cmp_pair {A B : Type}
    (ca : A -> A -> comparison) (cb : B -> B -> comparison)
    (x y : A * B) : comparison :=
  match ca (fst x) (fst y) with
  | Eq => cb (snd x) (snd y)
  | c => c
  end.

Section GroupBy.
Context {A K : Type}.
Variable keyf : A -> option K.
Variable cmp : K -> K -> comparison.

(** Put a row into the group of its key; groups stay ordered by key
    ([sort=True]) and rows keep their order inside a group. *)
Fixpoint insert_group (k : K) (a : A) (gs : list (K * list A))
    : list (K * list A) :=
  match gs with
  | [] => [(k, [a])]
  | (k', l) :: rest =>
      match cmp k k' with
      | Eq => (k', l ++ [a]) :: rest
      | Lt => (k, [a]) :: gs
      | Gt => (k', l) :: insert_group k a rest
      end
  end.

(** [df.groupby(keys)]: a row whose key has a null part ([keyf] gives
    [None]) belongs to no group ([dropna=True]). *)
Definition groupby (rows : list A) : list (K * list A) :=
  fold_left
    (fun gs a =>
       match keyf a with
       | Some k => insert_group k a gs
       | None => gs
       end)
    rows [].

(** Invariant of the groups while they are built: every row of every
    group satisfies [S] and has the key of its group. *)
Definition groups_ok (S : A -> Prop) (gs : list (K * list A)) : Prop :=
  forall k l x, In (k, l) gs -> In x l -> S x /\ keyf x = Some k.
End GroupBy.

Section Sort.
Context {A : Type}.
Variable val : A -> Q.

(** Insertion into a list that is in descending order of [val]; a new
    row goes in front of the rows it ties with. *)
Fixpoint insert_desc (x : A) (l : list A) : list A :=
  match l with
  | [] => [x]
  | y :: r => if Qltb (val x) (val y) then y :: insert_desc x r else x :: l
  end.

(** [sort_values(col, ascending=False)], ties in frame order. *)
Definition sort_desc (l : list A) : list A := fold_right insert_desc [] l.
End Sort.

(** [Series.mean()] of a finite, non-empty column. *)
Definition Qmean (l : list Q) : Q :=
  Qsum l / inject_Z (Z.of_nat (List.length l)).

(** [Series.max()] of a column of strings; [None] for an empty column. *)
Fixpoint max_string (l : list string) : option string :=
  match l with
  | [] => None
  | x :: r =>
      match max_string r with
      | None => Some x
      | Some m => Some (if String.ltb x m then m else x)
      end
  end.

Section SortAsc.
Context {A : Type}.
Variable cmp : A -> A -> comparison.

Fixpoint insert_asc (x : A) (l : list A) : list A :=
  match l with
  | [] => [x]
  | y :: r =>
      match cmp x y with
      | Gt => y :: insert_asc x r
      | _ => x :: l
      end
  end.

(** [sort_values(cols)], ties in frame order. *)
Definition sort_asc (l : list A) : list A := fold_right insert_asc [] l.
End SortAsc.

Section Shift.
Context {K : Type}.
Variable rid : K -> string.

(** [agg.groupby("resource_id")["unit_cost"].shift(1)]: every row gets
    the value of the row before it in frame order that has the same
    [resource_id], or NaN ([None]) when there is none.  [seen] holds
    the rows already passed, the latest first. *)
Fixpoint shift_prev (seen rows : list (K * Q)) : list (K * Q * option Q) :=
  match rows with
  | [] => []
  | (k, u) :: rest =>
      (k, u,
       option_map snd
         (find (fun p => String.eqb (rid (fst p)) (rid k)) seen))
      :: shift_prev ((k, u) :: seen) rest
  end.

(** [agg.dropna(subset=["prev_unit_cost"])]. *)
Definition dropna_prev (rows : list (K * Q * option Q)) : list (K * Q * Q) :=
  flat_map
    (fun r =>
       match snd r with
       | Some p => [(fst (fst r), snd (fst r), p)]
       | None => []
       end)
    rows.

(** [agg[agg["prev_unit_cost"] != 0]]. *)
Definition nonzero_prev (rows : list (K * Q * Q)) : list (K * Q * Q) :=
  filter (fun r => negb (Qeq_bool (snd r) 0)) rows.
End Shift.

(** A three-way comparison that is a strict total order. *)
Class CmpOrder {K : Type} (cmp : K -> K -> comparison) : Prop := {
  cmp_eq_iff : forall a b, cmp a b = Eq <-> a = b;
  cmp_lt_trans : forall a b c, cmp a b = Lt -> cmp b c = Lt -> cmp a c = Lt;
  cmp_antisym : forall a b, cmp a b = CompOpp (cmp b a)
}.

(** What [groupby] computes, as a relation between the rows read so far
    and the groups: the groups are in strictly ascending key order, each
    group holds the rows with its key in frame order and is not empty, and
    every key of a row has its group. *)
Section GroupByDefs.
Context {A K : Type}.
Variable keyf : A -> option K.
Variable cmp : K -> K -> comparison.

(** The row [a] has the key [k]. *)
Definition has_key (k : K) (a : A) : bool :=
  match keyf a with
  | Some k' => match cmp k' k with Eq => true | _ => false end
  | None => false
  end.

(** The row [a] has a key without a null part. *)
Definition keyed (a : A) : bool :=
  match keyf a with Some _ => true | None => false end.

Definition group_lt (g1 g2 : K * list A) : Prop := cmp (fst g1) (fst g2) = Lt.

Definition groups_of (done : list A) (gs : list (K * list A)) : Prop :=
  StronglySorted group_lt gs
  /\ (forall k l, In (k, l) gs -> l = filter (has_key k) done /\ l <> [])
  /\ (forall a k, In a done -> keyf a = Some k -> exists l, In (k, l) gs).
End GroupByDefs.


(** The distinct values of a column of strings in ascending order:
    [sorted(col.unique())]. *)
Definition sorted_unique (l : list string) : list string :=
  map fst (groupby (fun x => Some x) String.compare l).

(** [l[-n:]]. *)
Definition last_n {A : Type} (n : nat) (l : list A) : list A :=
  skipn (List.length l - n) l.

(** Three-way comparison of a nullable value; nulls come last, as in the
    sorted group keys of a [groupby(..., dropna=False)]. *)
Definition cmp_option {A : Type} (ca : A -> A -> comparison)
    (x y : option A) : comparison :=
  match x, y with
  | Some a, Some b => ca a b
  | Some _, None => Lt
  | None, Some _ => Gt
  | None, None => Eq
  end.

(** [df.head(n)]: the first [n] rows, and for a negative [n] all rows but
    the last [-n]. *)
Definition head {A : Type} (n : Z) (l : list A) : list A :=
  if (0 <=? n)%Z
  then firstn (Z.to_nat n) l
  else firstn (List.length l - Z.to_nat (- n)%Z) l.

End Frame.
Import Frame.

(* ================================================================== *)
(** ** app/analytics.py                                                 *)
(* ================================================================== *)

Module Analytics.

(** A cell of a [resource_id] column as [read_sql_query] delivers it:
    SQL NULL ([None]), a float NaN, or text. *)
Inductive cell : Type :=
| CNull
| CNaN
| CStr (s : string).

(** [Series.astype(str)] on such a cell. *)
Definition astype_str (c : cell) : string :=
  match c with
  | CNull => "None"
  | CNaN => "nan"
  | CStr s => s
  end.

(** A join key after normalisation: [None] is the null key. *)
Definition key : Type := option string.

Definition key_eqb (a b : key) : bool :=
  match a, b with
  | None, None => true
  | Some x, Some y => String.eqb x y
  | _, _ => false
  end.

(** [normalize_resource_ids], on one cell of the column. *)
Definition normalize_resource_id (c : cell) : key :=
  let s := Str.strip (astype_str c) in
  if String.eqb s "nan" then None else Some s.

(** A numeric cell before coercion: [None] is anything that
    [pd.to_numeric(errors="coerce")] turns into NaN. *)
Definition num_cell : Type := option Q.

(** [pd.to_numeric(c, errors="coerce").fillna(0.0)]. *)
Definition to_numeric_fillna (c : num_cell) : Q :=
  match c with
  | Some q => q
  | None => 0
  end.

(** A row of the [billing] table as loaded.  The columns [account_id],
    [subscription], [service], [resource_group] and [region] pass
    through the functions below untouched and are left out. *)
Record RawBilling : Type := mkRawBilling {
  raw_invoice_month : string;
  raw_resource_id : cell;
  raw_usage_qty : num_cell;
  raw_unit_cost : num_cell;
  raw_cost : num_cell
}.

(** A row of the [resources] table as loaded. *)
Record RawResource : Type := mkRawResource {
  raw_res_id : cell;
  raw_owner : option string;
  raw_env : option string;
  raw_tags_json : option string
}.

(** A billing row after key normalisation and numeric coercion. *)
Record Billing : Type := mkBilling {
  invoice_month : string;
  resource_id : key;
  usage_qty : Q;
  unit_cost : Q;
  cost : Q
}.

(** A resource row after key normalisation. *)
Record Resource : Type := mkResource {
  res_id : key;
  res_owner : option string;
  res_env : option string;
  res_tags_json : option string
}.

(** A row of the enriched frame: the billing columns and the three
    joined ones. *)
Record Enriched : Type := mkEnriched {
  bill : Billing;
  owner : string;
  env : string;
  tags_json : option string
}.

Inductive error : Type :=
| MergeError.

Inductive result (A : Type) : Type :=
| Ok (a : A)
| Err (e : error).
Arguments Ok {A} a.
Arguments Err {A} e.

Definition coerce_billing (b : RawBilling) : Billing :=
  {| invoice_month := raw_invoice_month b;
     resource_id := normalize_resource_id (raw_resource_id b);
     usage_qty := to_numeric_fillna (raw_usage_qty b);
     unit_cost := to_numeric_fillna (raw_unit_cost b);
     cost := to_numeric_fillna (raw_cost b) |}.

Definition normalize_resource (r : RawResource) : Resource :=
  {| res_id := normalize_resource_id (raw_res_id r);
     res_owner := raw_owner r;
     res_env := raw_env r;
     res_tags_json := raw_tags_json r |}.

(** Uniqueness of the right-hand join keys, as [validate="m:1"] checks it
    ([MultiIndex.from_arrays(right_join_keys).is_unique]): missing keys
    form one group, so the null key counts as a key value like any other. *)
Fixpoint is_unique (ks : list key) : bool :=
  match ks with
  | [] => true
  | k :: rest => negb (existsb (key_eqb k) rest) && is_unique rest
  end.

(** How often a key occurs in a key column. *)
Definition occurrences (k : key) (ks : list key) : nat :=
  List.length (filter (key_eqb k) ks).

(** [Series.fillna("unassigned")]. *)
Definition fillna_unassigned (o : option string) : string :=
  match o with
  | Some s => s
  | None => "unassigned"
  end.

(** One row of the left join, followed by the two [fillna] calls.  pandas
    matches a null key on the left with a null key on the right. *)
Definition join_row (resources : list Resource) (b : Billing) : Enriched :=
  match find (fun r => key_eqb (resource_id b) (res_id r)) resources with
  | Some r =>
      {| bill := b;
         owner := fillna_unassigned (res_owner r);
         env := fillna_unassigned (res_env r);
         tags_json := res_tags_json r |}
  | None =>
      {| bill := b;
         owner := "unassigned";
         env := "unassigned";
         tags_json := None |}
  end.

(** The join keys of the resource table, after normalisation. *)
Definition resource_keys (resources : list RawResource) : list key :=
  map res_id (map normalize_resource resources).

(** [enrich_billing], as a function of the two loaded tables. *)
Definition enrich_billing
    (billing : list RawBilling) (resources : list RawResource)
    : result (list Enriched) :=
  let billing' := map coerce_billing billing in
  let resources' := map normalize_resource resources in
  if is_unique (resource_keys resources)
  then Ok (map (join_row resources') billing')
  else Err MergeError.

Definition bind {A B : Type} (r : result A) (f : A -> result B) : result B :=
  match r with
  | Ok a => f a
  | Err e => Err e
  end.

Definition ret {A : Type} (a : A) : result A := Ok a.

Notation "x <- e ;; k" := (bind e (fun x => k))
  (at level 61, e at next level, right associativity).

(** The rows of one month: [df[df["invoice_month"].astype(str) == str(month)]]. *)
Definition in_month (month : string) (e : Enriched) : bool :=
  String.eqb (invoice_month (bill e)) month.

Definition assigned (e : Enriched) : bool :=
  negb (String.eqb (owner e) "unassigned").

Record Coverage : Type := mkCoverage {
  cov_month : string;
  total_cost : Q;
  assigned_cost : Q;
  coverage_pct : Q
}.

(** The body of [owner_coverage] after the enriched frame is there. *)
Definition owner_coverage_of (month : string) (df : list Enriched) : Coverage :=
  let dfm := filter (in_month month) df in
  let total := Qsum (map (fun e => cost (bill e)) dfm) in
  let assigned_sum := Qsum (map (fun e => cost (bill e)) (filter assigned dfm)) in
  let pct := if Qltb 0 total then assigned_sum / total else 0 in
  {| cov_month := month;
     total_cost := total;
     assigned_cost := assigned_sum;
     coverage_pct := round_dec 4 pct |}.

Definition owner_coverage (month : string)
    (billing : list RawBilling) (resources : list RawResource)
    : result Coverage :=
  df <- enrich_billing billing resources ;;
  ret (owner_coverage_of month df).

(** A row of [agg] once [pct_change] is there; [K] holds the grouping
    columns. *)
Record Change (K : Type) : Type := mkChange {
  ch_key : K;
  ch_unit_cost : Q;
  ch_prev_unit_cost : Q;
  ch_pct_change : Q
}.
Arguments mkChange {K}.
Arguments ch_key {K}.
Arguments ch_unit_cost {K}.
Arguments ch_prev_unit_cost {K}.
Arguments ch_pct_change {K}.

(** [agg["pct_change"] = (agg["unit_cost"] - agg["prev_unit_cost"]) /
    agg["prev_unit_cost"]]. *)
Definition with_pct_change {K : Type} (r : K * Q * Q) : Change K :=
  let u := snd (fst r) in
  let p := snd r in
  mkChange (fst (fst r)) u p ((u - p) / p).

(** Grouping key of [unit_cost_changes]: [resource_id], [invoice_month]. *)
Definition month_key (e : Enriched) : option (string * string) :=
  match resource_id (bill e) with
  | Some r => Some (r, invoice_month (bill e))
  | None => None
  end.

Definition cmp_month_key : string * string -> string * string -> comparison :=
  cmp_pair String.compare String.compare.

(** Mean [unit_cost] per group, one row per group in key order. *)
Definition mean_unit_cost {K : Type} (gs : list (K * list Enriched))
    : list (K * Q) :=
  map (fun g => (fst g, Qmean (map (fun e => unit_cost (bill e)) (snd g)))) gs.

(** The frame [agg] of [unit_cost_changes] just before the threshold is
    applied. *)
Definition unit_cost_change_rows (df : list Enriched)
    : list (Change (string * string)) :=
  let agg := mean_unit_cost (groupby month_key cmp_month_key df) in
  let agg := sort_asc (fun a b => cmp_month_key (fst a) (fst b)) agg in
  let agg := shift_prev fst [] agg in
  let agg := dropna_prev agg in
  let agg := nonzero_prev agg in
  map with_pct_change agg.

Definition round_pct_change {K : Type} (c : Change K) : Change K :=
  mkChange (ch_key c) (ch_unit_cost c) (ch_prev_unit_cost c)
           (round_dec 4 (ch_pct_change c)).

Definition unit_cost_changes_of (threshold_pct : Q) (df : list Enriched)
    : list (Change (string * string)) :=
  let agg := unit_cost_change_rows df in
  let flagged :=
    filter (fun c => Qleb threshold_pct (Qabs (ch_pct_change c))) agg in
  let flagged := map round_pct_change flagged in
  sort_desc ch_pct_change flagged.

Definition unit_cost_changes (threshold_pct : Q)
    (billing : list RawBilling) (resources : list RawResource)
    : result (list (Change (string * string))) :=
  df <- enrich_billing billing resources ;;
  ret (unit_cost_changes_of threshold_pct df).

(** *** monthly_cost_by_owner, monthly_cost_by_env *)

(** [dfm.groupby(col, dropna=False)["cost"].sum().reset_index()
    .sort_values("cost", ascending=False)] on the rows of the month, for
    [col] one of [owner] and [env]; neither column holds a null after
    [enrich_billing], so [dropna=False] changes nothing.  Rows with equal
    cost stay in group order. *)
Definition monthly_cost_by (col : Enriched -> string) (month : string)
    (df : list Enriched) : list (string * Q) :=
  let dfm := filter (in_month month) df in
  let res :=
    map (fun g => (fst g, Qsum (map (fun e => cost (bill e)) (snd g))))
        (groupby (fun e => Some (col e)) String.compare dfm) in
  sort_desc snd res.

Definition monthly_cost_by_owner (month : string)
    (billing : list RawBilling) (resources : list RawResource)
    : result (list (string * Q)) :=
  df <- enrich_billing billing resources ;;
  ret (monthly_cost_by owner month df).

Definition monthly_cost_by_env (month : string)
    (billing : list RawBilling) (resources : list RawResource)
    : result (list (string * Q)) :=
  df <- enrich_billing billing resources ;;
  ret (monthly_cost_by env month df).

(** *** six_month_trend *)

(** The two values of [group_by] the endpoint documents. *)
Inductive group_col : Type :=
| by_owner
| by_env.

Definition group_value (group_by : group_col) (e : Enriched) : string :=
  match group_by with
  | by_owner => owner e
  | by_env => env e
  end.

(** A pivoted frame: the index, the column labels and one row of cells
    per index entry. *)
Record Pivot : Type := mkPivot {
  pivot_index : list string;
  pivot_columns : list string;
  pivot_values : list (list Q)
}.

(** [months[-6:]] for [months = sorted(df["invoice_month"].unique())]. *)
Definition last6_months (df : list Enriched) : list string :=
  last_n 6 (sorted_unique (map (fun e => invoice_month (bill e)) df)).

Definition cmp_trend_key : string * string -> string * string -> comparison :=
  cmp_pair String.compare String.compare.

(** [sub.groupby(["invoice_month", group_by])["cost"].sum().reset_index()]. *)
Definition trend_agg (group_by : group_col) (df : list Enriched)
    : list (string * string * Q) :=
  let last6 := last6_months df in
  let sub :=
    filter (fun e => existsb (String.eqb (invoice_month (bill e))) last6) df in
  map (fun g => (fst g, Qsum (map (fun e => cost (bill e)) (snd g))))
      (groupby (fun e => Some (invoice_month (bill e), group_value group_by e))
               cmp_trend_key sub).

(** A cell of [agg.pivot(...).fillna(0)]. *)
Definition pivot_cell (agg : list (string * string * Q)) (m g : string) : Q :=
  match
    find (fun r => String.eqb (fst (fst r)) m && String.eqb (snd (fst r)) g) agg
  with
  | Some r => snd r
  | None => 0
  end.

(** [agg.pivot(index="invoice_month", columns=group_by, values="cost")
    .fillna(0).sort_index()]: index and columns are the distinct values in
    ascending order. *)
Definition six_month_trend_of (group_by : group_col) (df : list Enriched)
    : Pivot :=
  match sorted_unique (map (fun e => invoice_month (bill e)) df) with
  | [] => mkPivot [] [] []
  | _ =>
      let agg := trend_agg group_by df in
      let index := sorted_unique (map (fun r => fst (fst r)) agg) in
      let columns := sorted_unique (map (fun r => snd (fst r)) agg) in
      mkPivot index columns
              (map (fun m => map (pivot_cell agg m) columns) index)
  end.

Definition six_month_trend (group_by : group_col)
    (billing : list RawBilling) (resources : list RawResource)
    : result Pivot :=
  df <- enrich_billing billing resources ;;
  ret (six_month_trend_of group_by df).

(** *** top_n_cost_drivers *)

(** A billing row as loaded, with the two columns that only
    [top_n_cost_drivers] reads. *)
Record RawLocated : Type := mkRawLocated {
  raw_bill : RawBilling;
  raw_service : option string;
  raw_resource_group : option string
}.

(** A row of the enriched frame with these two columns, which the join
    passes through. *)
Record Located : Type := mkLocated {
  located : Enriched;
  service : option string;
  resource_group : option string
}.

(** [enrich_billing] on the frame with the two columns: the left join
    keeps the billing rows and their order. *)
Definition enrich_located
    (billing : list RawLocated) (resources : list RawResource)
    : result (list Located) :=
  df <- enrich_billing (map raw_bill billing) resources ;;
  ret (map (fun p => mkLocated (fst p) (raw_service (snd p))
                               (raw_resource_group (snd p)))
           (combine df billing)).

(** The group key [["resource_id", "service", "resource_group", "owner"]];
    with [dropna=False] a null part is a key value like any other. *)
Definition driver_key_t : Type :=
  key * option string * option string * string.

Definition driver_key (x : Located) : driver_key_t :=
  (resource_id (bill (located x)), service x, resource_group x,
   owner (located x)).

Definition cmp_driver_key : driver_key_t -> driver_key_t -> comparison :=
  cmp_pair
    (cmp_pair
       (cmp_pair (cmp_option String.compare) (cmp_option String.compare))
       (cmp_option String.compare))
    String.compare.

(** The row [x] belongs to the group of the key [k]. *)
Definition is_driver (k : driver_key_t) (x : Located) : bool :=
  has_key (fun x => Some (driver_key x)) cmp_driver_key k x.

(** [dfm.groupby(keys, dropna=False)["cost"].sum().reset_index()
    .sort_values("cost", ascending=False).head(n)] on the rows of the
    month. *)
Definition top_n_cost_drivers_of (month : string) (n : Z) (df : list Located)
    : list (driver_key_t * Q) :=
  let dfm := filter (fun x => in_month month (located x)) df in
  let agg :=
    map (fun g => (fst g, Qsum (map (fun x => cost (bill (located x))) (snd g))))
        (groupby (fun x => Some (driver_key x)) cmp_driver_key dfm) in
  head n (sort_desc snd agg).

Definition top_n_cost_drivers (month : string) (n : Z)
    (billing : list RawLocated) (resources : list RawResource)
    : result (list (driver_key_t * Q)) :=
  df <- enrich_located billing resources ;;
  ret (top_n_cost_drivers_of month n df).

End Analytics.
Import Analytics.


(* ================================================================== *)
(** ** app/recommendations.py                                           *)
(* ================================================================== *)

Module Recommendations.

Inductive rec_type : Type :=
| idle_resources
| cost_spikes
| tagging_gaps.

(** The three shapes of a dictionary in [resources]. *)
Record IdleEntry : Type := mkIdleEntry {
  idle_resource_id : string;
  idle_owner : string;
  idle_environment : string;
  idle_current_monthly_cost : Q;
  idle_utilization : fnum;
  idle_potential_savings : Q
}.

(** [unit_cost_increase] is the number in front of the percent sign;
    the two cost fields are NaN ([None]) when the join found no cost. *)
Record SpikeEntry : Type := mkSpikeEntry {
  spike_resource_id : string;
  spike_owner : string;
  spike_environment : string;
  spike_unit_cost_increase : Q;
  spike_current_monthly_cost : option Q;
  spike_potential_savings : option Q
}.

Record TagEntry : Type := mkTagEntry {
  tag_resource_id : string;
  owner_tag : string;
  environment_tag : string;
  monthly_unattributed_cost : Q;
  tag_potential_savings : Q
}.

Inductive detail : Type :=
| IdleDetail (e : IdleEntry)
| SpikeDetail (e : SpikeEntry)
| TagDetail (e : TagEntry).

Record Recommendation : Type := mkRecommendation {
  rtype : rec_type;
  resources : list detail;
  estimated_savings : Q;
  actions : list string
}.

(** The dictionary [Recommendation.to_dict] builds. *)
Record RecDict : Type := mkRecDict {
  type : rec_type;
  dict_resources : list detail;
  estimated_monthly_savings : Q;
  recommended_actions : list string
}.

Definition to_dict (r : Recommendation) : RecDict :=
  {| type := rtype r;
     dict_resources := resources r;
     estimated_monthly_savings := round_dec 2 (estimated_savings r);
     recommended_actions := actions r |}.

(** [df[df["invoice_month"] == df["invoice_month"].max()]]; the maximum
    of an empty column is NaN, which no row equals. *)
Definition latest_month_rows (df : list Enriched) : list Enriched :=
  match max_string (map (fun e => invoice_month (bill e)) df) with
  | Some m => filter (in_month m) df
  | None => []
  end.

(** *** find_idle_resources *)

(** [recent_df["usage_qty"] / recent_df["usage_qty"].max()], for one row;
    the column [usage_qty] is always there. *)
Definition utilization (recent_df : list Enriched) (e : Enriched) : fnum :=
  match Qmax_list (map (fun r => usage_qty (bill r)) recent_df) with
  | Some m => fdiv (usage_qty (bill e)) m
  | None => NaN
  end.

Definition with_utilization (recent_df : list Enriched)
    : list (Enriched * fnum) :=
  map (fun e => (e, utilization recent_df e)) recent_df.

Definition is_idle (usage_threshold cost_threshold : Q)
    (r : Enriched * fnum) : bool :=
  flt (snd r) usage_threshold && Qltb cost_threshold (cost (bill (fst r))).

Definition idle_rows (usage_threshold cost_threshold : Q)
    (df : list Enriched) : list (Enriched * fnum) :=
  filter (is_idle usage_threshold cost_threshold)
         (with_utilization (latest_month_rows df)).

Definition idle_key (r : Enriched * fnum) : option (string * string * string) :=
  match resource_id (bill (fst r)) with
  | Some rid => Some (rid, owner (fst r), env (fst r))
  | None => None
  end.

Definition cmp_idle_key
    : string * string * string -> string * string * string -> comparison :=
  cmp_pair (cmp_pair String.compare String.compare) String.compare.

(** [idle.groupby([...]).agg({"cost": "sum", "utilization": "mean"})]. *)
Definition idle_summary (idle : list (Enriched * fnum))
    : list (string * string * string * Q * fnum) :=
  map (fun g =>
         (fst g,
          Qsum (map (fun r => cost (bill (fst r))) (snd g)),
          fmean (map snd (snd g))))
      (groupby idle_key cmp_idle_key idle).

Definition idle_entry (row : string * string * string * Q * fnum) : IdleEntry :=
  let k := fst (fst row) in
  let c := snd (fst row) in
  {| idle_resource_id := fst (fst k);
     idle_owner := snd (fst k);
     idle_environment := snd k;
     idle_current_monthly_cost := round_dec 2 c;
     idle_utilization := fround 1 (fscale (snd row) 100);
     idle_potential_savings := round_dec 2 (c * (7 # 10)) |}.

Definition idle_actions : list string :=
  [ "Review and terminate resources with 0% utilization";
    "Right-size resources with low utilization";
    "Implement auto-scaling where applicable";
    "Enable automated start/stop schedules for non-production resources" ].

Definition find_idle_resources_of (usage_threshold cost_threshold : Q)
    (df : list Enriched) : list Recommendation :=
  match idle_rows usage_threshold cost_threshold df with
  | [] => []
  | idle =>
      let summary := idle_summary idle in
      let total_savings := Qsum (map (fun r => snd (fst r)) summary) * (7 # 10) in
      [ {| rtype := idle_resources;
           resources := map (fun r => IdleDetail (idle_entry r)) summary;
           estimated_savings := total_savings;
           actions := idle_actions |} ]
  end.

Definition find_idle_resources (usage_threshold cost_threshold : Q)
    (billing : list RawBilling) (resources : list RawResource)
    : result (list Recommendation) :=
  df <- enrich_billing billing resources ;;
  ret (find_idle_resources_of usage_threshold cost_threshold df).

(** *** find_cost_spikes *)

(** Grouping columns: [resource_id], [invoice_month], [owner], [env]. *)
Definition spike_key_t : Type := string * string * string * string.

Definition spike_key (e : Enriched) : option spike_key_t :=
  match resource_id (bill e) with
  | Some rid => Some (rid, invoice_month (bill e), owner e, env e)
  | None => None
  end.

Definition cmp_spike_key : spike_key_t -> spike_key_t -> comparison :=
  cmp_pair (cmp_pair (cmp_pair String.compare String.compare) String.compare)
           String.compare.

Definition sk_resource_id (k : spike_key_t) : string := fst (fst (fst k)).
Definition sk_invoice_month (k : spike_key_t) : string := snd (fst (fst k)).
Definition sk_owner (k : spike_key_t) : string := snd (fst k).
Definition sk_env (k : spike_key_t) : string := snd k.

(** The frame [agg] of [find_cost_spikes] just before the threshold is
    applied. *)
Definition spike_change_rows (df : list Enriched) : list (Change spike_key_t) :=
  let agg := mean_unit_cost (groupby spike_key cmp_spike_key df) in
  let agg :=
    sort_asc
      (fun a b =>
         cmp_month_key
           (sk_resource_id (fst a), sk_invoice_month (fst a))
           (sk_resource_id (fst b), sk_invoice_month (fst b)))
      agg in
  let agg := shift_prev sk_resource_id [] agg in
  let agg := dropna_prev agg in
  let agg := nonzero_prev agg in
  map with_pct_change agg.

(** The columns of a row of [find_cost_spikes]'s [agg] that
    [unit_cost_changes] has too. *)
Definition sk_month_key (k : spike_key_t) : string * string :=
  (sk_resource_id k, sk_invoice_month k).

Definition drop_tags (c : Change spike_key_t) : Change (string * string) :=
  mkChange (sk_month_key (ch_key c)) (ch_unit_cost c) (ch_prev_unit_cost c)
           (ch_pct_change c).

(** [agg[agg["pct_change"] >= threshold_pct]]. *)
Definition spike_rows (threshold_pct : Q) (df : list Enriched)
    : list (Change spike_key_t) :=
  filter (fun c => Qleb threshold_pct (ch_pct_change c)) (spike_change_rows df).

(** The rows of [latest_costs] that a spike row joins with. *)
Definition latest_matches (latest_costs : list Enriched)
    (s : Change spike_key_t) : list Enriched :=
  filter
    (fun e => key_eqb (Some (sk_resource_id (ch_key s))) (resource_id (bill e)))
    latest_costs.

(** One left row of [spikes.merge(latest_costs[["resource_id", "cost"]],
    on="resource_id", how="left")]: a row per match, or a single row
    with a NaN cost. *)
Definition merge_latest_row (latest_costs : list Enriched)
    (s : Change spike_key_t) : list (Change spike_key_t * option Q) :=
  match latest_matches latest_costs s with
  | [] => [(s, None)]
  | ms => map (fun e => (s, Some (cost (bill e)))) ms
  end.

Definition merge_latest (latest_costs : list Enriched)
    (spikes : list (Change spike_key_t))
    : list (Change spike_key_t * option Q) :=
  flat_map (merge_latest_row latest_costs) spikes.

Definition spike_entry (row : Change spike_key_t * option Q) : SpikeEntry :=
  let s := fst row in
  {| spike_resource_id := sk_resource_id (ch_key s);
     spike_owner := sk_owner (ch_key s);
     spike_environment := sk_env (ch_key s);
     spike_unit_cost_increase := round_dec 1 (ch_pct_change s * 100);
     spike_current_monthly_cost := option_map (round_dec 2) (snd row);
     spike_potential_savings :=
       option_map (fun c => round_dec 2 (c * ch_pct_change s * (1 # 2)))
                  (snd row) |}.

Definition spike_actions : list string :=
  [ "Investigate recent configuration changes";
    "Review resource pricing tier changes";
    "Check for unexpected usage patterns";
    "Consider moving to reserved instances or savings plans";
    "Evaluate alternative service options" ].

(** The terms one spike row adds to the sum of [cost * pct_change]. *)
Definition spike_terms (latest_costs : list Enriched) (s : Change spike_key_t)
    : list Q :=
  map (fun e => cost (bill e) * ch_pct_change s) (latest_matches latest_costs s).

(** [(spikes["cost"] * spikes["pct_change"]).sum() * 0.5]. *)
Definition spike_total_savings
    (merged : list (Change spike_key_t * option Q)) : Q :=
  Qsum_skipna
    (map (fun r => option_map (fun c => c * ch_pct_change (fst r)) (snd r))
         merged)
  * (1 # 2).

Definition find_cost_spikes_of (threshold_pct : Q) (df : list Enriched)
    : list Recommendation :=
  match spike_rows threshold_pct df with
  | [] => []
  | spikes =>
      let merged := merge_latest (latest_month_rows df) spikes in
      [ {| rtype := cost_spikes;
           resources := map (fun r => SpikeDetail (spike_entry r)) merged;
           estimated_savings := spike_total_savings merged;
           actions := spike_actions |} ]
  end.

Definition find_cost_spikes (threshold_pct : Q)
    (billing : list RawBilling) (resources : list RawResource)
    : result (list Recommendation) :=
  df <- enrich_billing billing resources ;;
  ret (find_cost_spikes_of threshold_pct df).

(** *** find_tagging_gaps *)

Definition untagged (e : Enriched) : bool :=
  String.eqb (owner e) "unassigned" || String.eqb (env e) "unassigned".

(** [lambda x: "missing" if all(x == "unassigned") else "partial"]. *)
Definition tag_status (col : Enriched -> string) (rows : list Enriched) : string :=
  if forallb (fun e => String.eqb (col e) "unassigned") rows
  then "missing" else "partial".

Definition untagged_summary (rows : list Enriched)
    : list (string * Q * string * string) :=
  map (fun g =>
         (fst g,
          Qsum (map (fun e => cost (bill e)) (snd g)),
          tag_status owner (snd g),
          tag_status env (snd g)))
      (groupby (fun e => resource_id (bill e)) String.compare rows).

Definition tag_entry (row : string * Q * string * string) : TagEntry :=
  let c := snd (fst (fst row)) in
  {| tag_resource_id := fst (fst (fst row));
     owner_tag := snd (fst row);
     environment_tag := snd row;
     monthly_unattributed_cost := round_dec 2 c;
     tag_potential_savings := round_dec 2 (c * (1 # 5)) |}.

Definition tagging_actions : list string :=
  [ "Implement mandatory tagging policy";
    "Add missing owner tags";
    "Add missing environment tags";
    "Set up automated tag compliance checks";
    "Create tag inheritance rules where applicable" ].

Definition find_tagging_gaps_of (df : list Enriched) : list Recommendation :=
  match filter untagged (latest_month_rows df) with
  | [] => []
  | rows =>
      let summary := untagged_summary rows in
      let total_savings :=
        Qsum (map (fun r => snd (fst (fst r))) summary) * (1 # 5) in
      [ {| rtype := tagging_gaps;
           resources := map (fun r => TagDetail (tag_entry r)) summary;
           estimated_savings := total_savings;
           actions := tagging_actions |} ]
  end.

Definition find_tagging_gaps
    (billing : list RawBilling) (resources : list RawResource)
    : result (list Recommendation) :=
  df <- enrich_billing billing resources ;;
  ret (find_tagging_gaps_of df).

(** *** get_all_recommendations *)

Record AllRecommendations : Type := mkAllRecommendations {
  total_estimated_monthly_savings : Q;
  recommendations : list RecDict
}.

(** Default arguments of the detectors. *)
Definition default_usage_threshold : Q := 1 # 10.
Definition default_cost_threshold : Q := 100.
Definition default_threshold_pct : Q := 3 # 10.

(** The function has no parameter: the three detectors run with their
    default thresholds, each on its own call of [enrich_billing]. *)
Definition get_all_recommendations
    (billing : list RawBilling) (resources : list RawResource)
    : result AllRecommendations :=
  idle <- find_idle_resources default_usage_threshold default_cost_threshold
                              billing resources ;;
  spikes <- find_cost_spikes default_threshold_pct billing resources ;;
  gaps <- find_tagging_gaps billing resources ;;
  let all_recs := idle ++ spikes ++ gaps in
  let total_savings := Qsum (map estimated_savings all_recs) in
  ret {| total_estimated_monthly_savings := round_dec 2 total_savings;
         recommendations := map to_dict all_recs |}.

(** The fields [current_monthly_cost] and [potential_savings] of an
    entry that has both; a NaN is [None]. *)
Definition cost_and_savings (d : detail) : option (option Q * option Q) :=
  match d with
  | IdleDetail e =>
      Some (Some (idle_current_monthly_cost e), Some (idle_potential_savings e))
  | SpikeDetail e =>
      Some (spike_current_monthly_cost e, spike_potential_savings e)
  | TagDetail _ => None
  end.

Definition detail_resource_id (d : detail) : string :=
  match d with
  | IdleDetail e => idle_resource_id e
  | SpikeDetail e => spike_resource_id e
  | TagDetail e => tag_resource_id e
  end.

End Recommendations.
Import Recommendations.

(* ================================================================== *)
(** ** app/main.py: the /recommendations endpoint                       *)
(* ================================================================== *)

Module Main.

(** [get_recommendations(usage_threshold, cost_threshold,
    spike_threshold)]: the three query parameters are declared and the
    body is [return get_all_recommendations()]. *)
Definition get_recommendations
    (usage_threshold cost_threshold spike_threshold : Q)
    (billing : list RawBilling) (resources : list RawResource)
    : result AllRecommendations :=
  get_all_recommendations billing resources.

(** *** run_quality_checks *)

(** The issues of [/kpi/quality-checks], each with its count. *)
Inductive issue : Type :=
| null_values (count : nat)
| negative_costs (count : nat)
| duplicate_resource_ids (count : nat).

Definition cell_is_null (c : cell) : bool :=
  match c with
  | CStr _ => false
  | _ => true
  end.

(** [billing[["invoice_month", "resource_id", "cost"]].isnull().any(axis=1)];
    the columns hold what the schema of [models.py] declares, so a cost is
    a float or NULL and [invoice_month] is never NULL. *)
Definition has_null (b : RawBilling) : bool :=
  cell_is_null (raw_resource_id b)
  || match raw_cost b with
     | Some _ => false
     | None => true
     end.

(** [billing["cost"] < 0]; a comparison with NULL is false. *)
Definition cost_is_negative (b : RawBilling) : bool :=
  match raw_cost b with
  | Some c => Qltb c 0
  | None => false
  end.

Definition cell_eqb (a b : cell) : bool :=
  match a, b with
  | CNull, CNull => true
  | CNaN, CNaN => true
  | CStr x, CStr y => String.eqb x y
  | _, _ => false
  end.

(** [Series.duplicated().sum()]: the cells that repeat an earlier cell. *)
Fixpoint duplicated_count (seen col : list cell) : nat :=
  match col with
  | [] => 0
  | c :: rest =>
      (if existsb (cell_eqb c) seen then 1 else 0)
      + duplicated_count (c :: seen) rest
  end.

Definition report (count : nat) (i : nat -> issue) : list issue :=
  if (0 <? count)%nat then [i count] else [].

(** The list [issues]; the endpoint returns the text "No issues found"
    in place of the empty list. *)
Definition run_quality_checks
    (billing : list RawBilling) (resources : list RawResource)
    : list issue :=
  report (List.length (filter has_null billing)) null_values
  ++ report (List.length (filter cost_is_negative billing)) negative_costs
  ++ report (duplicated_count [] (map raw_res_id resources))
            duplicate_resource_ids.

End Main.

(* ================================================================== *)
(** ** Example tables                                                   *)
(* ================================================================== *)

Module Examples.

Definition billing_row (month rid : string) (usage unit c : Q) : RawBilling :=
  mkRawBilling month (CStr rid) (Some usage) (Some unit) (Some c).

Definition resource_row (rid owner env : string) : RawResource :=
  mkRawResource (CStr rid) (Some owner) (Some env) (Some "{}").

(** The fixture of [tests/test_recommendations.py]. *)
Definition sample_billing_data : list RawBilling :=
  [ billing_row "2025-08" "res1" 10 10 1000;
    billing_row "2025-08" "res2" 1 20 2000;
    billing_row "2025-08" "res3" 5 15 750;
    billing_row "2025-08" "res4" 0 30 500 ].

Definition sample_resources_data : list RawResource :=
  [ resource_row "res1" "team1" "prod";
    resource_row "res2" "unassigned" "dev";
    resource_row "res3" "team2" "unassigned";
    resource_row "res4" "unassigned" "unassigned" ].

(** Two metadata rows whose ids differ as text and both normalise to the
    null key. *)
Definition null_key_resources : list RawResource :=
  [ resource_row "nan" "team1" "prod";
    resource_row " nan" "team2" "dev" ].

(** A billing row whose id is blank. *)
Definition blank_id_billing : list RawBilling :=
  [ billing_row "2025-08" "   " 1 10 10 ].

(** A month whose only line item is a credit. *)
Definition credit_billing : list RawBilling :=
  [ billing_row "2025-08" "res1" 1 (-10) (-10) ].

(** A latest month in which no resource reports any usage. *)
Definition zero_usage_billing : list RawBilling :=
  [ billing_row "2025-08" "res4" 0 30 500 ].


(** [res1] doubles its unit cost and has two line items in the latest
    month; [res2] doubles its unit cost in 2025-07 and has no line item in
    the latest month. *)
Definition repeated_latest_billing : list RawBilling :=
  [ billing_row "2025-06" "res2" 10 10 100;
    billing_row "2025-07" "res2" 10 20 200;
    billing_row "2025-07" "res1" 10 10 100;
    billing_row "2025-08" "res1" 5 20 100;
    billing_row "2025-08" "res1" 5 20 50 ].

(** [res1] quadruples its unit cost at an unchanged monthly cost. *)
Definition quadrupled_unit_cost_billing : list RawBilling :=
  [ billing_row "2025-07" "res1" 10 10 100;
    billing_row "2025-08" "res1" 10 40 100 ].

(** One idle assigned resource and one busy unassigned resource. *)
Definition two_detector_billing : list RawBilling :=
  [ billing_row "2025-08" "res1" 0 10 (10002 # 100);
    billing_row "2025-08" "res2" 10 5 (5002 # 100) ].

(** The two months of [test_find_cost_spikes]: the fixture and, for
    2025-07, the same rows at half the unit cost. *)
Definition combined_billing_data : list RawBilling :=
  [ billing_row "2025-07" "res1" 10 5 1000;
    billing_row "2025-07" "res2" 1 10 2000;
    billing_row "2025-07" "res3" 5 (15 # 2) 750;
    billing_row "2025-07" "res4" 0 15 500 ]
  ++ sample_billing_data.

End Examples.
Import Examples.

(* ================================================================== *)
(** ** Facts about keys and the join                                    *)
(* ================================================================== *)

Section KeyFacts.

Lemma key_eqb_eq (a b : key) : key_eqb a b = true <-> a = b.
Proof.
  destruct a as [x|], b as [y|]; simpl; split; intro H;
    try discriminate; try reflexivity.
  - apply String.eqb_eq in H. now subst.
  - inversion H. apply String.eqb_refl.
Qed.

Lemma key_eqb_refl (a : key) : key_eqb a a = true.
Proof. now apply key_eqb_eq. Qed.

Lemma occurrences_cons (k x : key) (ks : list key) :
  occurrences k (x :: ks)
  = ((if key_eqb k x then 1 else 0) + occurrences k ks)%nat.
Proof. unfold occurrences. simpl. now destruct (key_eqb k x). Qed.

Lemma existsb_false_occurrences (k : key) (ks : list key) :
  existsb (key_eqb k) ks = false -> occurrences k ks = 0%nat.
Proof.
  induction ks as [|x ks IH]; [reflexivity|].
  simpl. rewrite occurrences_cons.
  destruct (key_eqb k x); simpl; [discriminate|]. exact IH.
Qed.

Lemma existsb_true_occurrences (k : key) (ks : list key) :
  existsb (key_eqb k) ks = true -> (1 <= occurrences k ks)%nat.
Proof.
  induction ks as [|x ks IH]; [discriminate|].
  simpl. rewrite occurrences_cons.
  destruct (key_eqb k x); simpl; [lia|]. exact IH.
Qed.

Lemma is_unique_occurrences (ks : list key) :
  is_unique ks = true -> forall k, (occurrences k ks <= 1)%nat.
Proof.
  induction ks as [|x ks IH]; intros U k; [unfold occurrences; simpl; lia|].
  simpl in U. apply andb_true_iff in U as [Hx U].
  apply negb_true_iff in Hx.
  rewrite occurrences_cons.
  destruct (key_eqb k x) eqn:E.
  - apply key_eqb_eq in E. subst k.
    rewrite (existsb_false_occurrences _ _ Hx). lia.
  - simpl. now apply IH.
Qed.

Lemma not_unique_duplicate (ks : list key) :
  is_unique ks = false -> exists k, (2 <= occurrences k ks)%nat.
Proof.
  induction ks as [|x ks IH]; [discriminate|].
  simpl. intro U. apply andb_false_iff in U as [Hx|U].
  - apply negb_false_iff in Hx. exists x.
    rewrite occurrences_cons, key_eqb_refl.
    apply existsb_true_occurrences in Hx. lia.
  - destruct (IH U) as [k Hk]. exists k.
    rewrite occurrences_cons. lia.
Qed.

Lemma is_unique_NoDup (ks : list key) : is_unique ks = true <-> NoDup ks.
Proof.
  induction ks as [|x ks IH]; simpl.
  - split; [constructor | reflexivity].
  - rewrite andb_true_iff, negb_true_iff, IH. split.
    + intros [Hx N]. constructor; [|exact N].
      intro Hin.
      assert (existsb (key_eqb x) ks = true) as E
        by (apply existsb_exists; exists x; split; [exact Hin | apply key_eqb_refl]).
      congruence.
    + intro N. inversion N as [|? ? Hnin N']; subst. split; [|exact N'].
      destruct (existsb (key_eqb x) ks) eqn:E; [|reflexivity].
      apply existsb_exists in E as [y [Hy Ey]].
      apply key_eqb_eq in Ey. subst y. contradiction.
Qed.

Lemma join_row_bill (rs : list Resource) (b : Billing) :
  bill (join_row rs b) = b.
Proof. unfold join_row. now destruct (find _ rs). Qed.

End KeyFacts.

(* ================================================================== *)
(** ** Enrichment                                                       *)
(* ================================================================== *)

(** C1 (as amended): [enrich_billing] fails with the merge error exactly
    when some normalised join key of the resource table, the null key
    included, occurs in more than one of its rows; when every key occurs
    at most once the call succeeds. *)
Theorem enrich_billing_fails_iff_duplicate_key :
  forall (billing : list RawBilling) (resources : list RawResource),
    (enrich_billing billing resources = Err MergeError
     <-> exists k, (2 <= occurrences k (resource_keys resources))%nat)
    /\ ((forall k, (occurrences k (resource_keys resources) <= 1)%nat)
        -> exists df, enrich_billing billing resources = Ok df).
Proof.
  intros billing resources. unfold enrich_billing.
  destruct (is_unique (resource_keys resources)) eqn:U.
  - pose proof (is_unique_occurrences _ U) as Hocc. split; [split|].
    + discriminate.
    + intros [k Hk]. specialize (Hocc k). lia.
    + intros _. eexists. reflexivity.
  - destruct (not_unique_duplicate _ U) as [k Hk]. split; [split|].
    + intros _. now exists k.
    + reflexivity.
    + intro Hocc. specialize (Hocc k). lia.
Qed.

(** C1 (counterexample): two metadata rows with the ids ["nan"] and
    [" nan"] make [enrich_billing] fail although no non-null key occurs
    at all after normalisation and the ids differ before it. *)
Lemma enrich_billing_null_keys_cex :
  enrich_billing sample_billing_data null_key_resources = Err MergeError
  /\ resource_keys null_key_resources = [None; None]
  /\ NoDup (map raw_res_id null_key_resources).
Proof.
  split; [reflexivity|]. split; [reflexivity|].
  repeat constructor; simpl; intuition discriminate.
Qed.



(* ================================================================== *)
(** ** Facts about rounding and sums                                    *)
(* ================================================================== *)

Section RoundingFacts.

Lemma round_half_even_mono (q1 q2 : Q) :
  q1 <= q2 -> (round_half_even q1 <= round_half_even q2)%Z.
Proof.
  intro H. unfold round_half_even.
  pose proof (Qfloor_resp_le _ _ H) as Hf.
  pose proof (Qfloor_le q1) as L1. pose proof (Qlt_floor q1) as U1.
  pose proof (Qfloor_le q2) as L2. pose proof (Qlt_floor q2) as U2.
  rewrite inject_Z_plus in U1, U2.
  destruct (Z.eq_dec (Qfloor q1) (Qfloor q2)) as [E|NE].
  - rewrite <- E in *.
    destruct (Qcompare_spec (q1 - inject_Z (Qfloor q1)) (1 # 2));
      destruct (Qcompare_spec (q2 - inject_Z (Qfloor q1)) (1 # 2));
      try lia; try (exfalso; lra); destruct (Z.even (Qfloor q1)); lia.
  - destruct (Qcompare (q1 - inject_Z (Qfloor q1)) (1 # 2));
      destruct (Qcompare (q2 - inject_Z (Qfloor q2)) (1 # 2));
      try destruct (Z.even (Qfloor q1));
      try destruct (Z.even (Qfloor q2)); lia.
Qed.

Lemma round_half_even_inject_Z (z : Z) : round_half_even (inject_Z z) = z.
Proof.
  unfold round_half_even. rewrite Qfloor_Z.
  destruct (Qcompare_spec (inject_Z z - inject_Z z) (1 # 2)) as [E|L|G];
    [exfalso; lra | reflexivity | exfalso; lra].
Qed.

Lemma round_half_even_Qeq (q1 q2 : Q) :
  q1 == q2 -> round_half_even q1 = round_half_even q2.
Proof.
  intro E. apply Z.le_antisymm; apply round_half_even_mono; lra.
Qed.

Lemma pow10_pos (n : nat) : 0 < pow10 n.
Proof.
  unfold pow10. change 0 with (inject_Z 0). rewrite <- Zlt_Qlt.
  apply Z.pow_pos_nonneg; lia.
Qed.

Lemma round_dec_mono (n : nat) (q1 q2 : Q) :
  q1 <= q2 -> round_dec n q1 <= round_dec n q2.
Proof.
  intro H. unfold round_dec. pose proof (pow10_pos n) as P.
  apply Qmult_le_compat_r.
  - rewrite <- Zle_Qle. apply round_half_even_mono.
    apply Qmult_le_compat_r; [exact H | lra].
  - apply Qlt_le_weak, Qinv_lt_0_compat, P.
Qed.

Lemma round_dec_inject_Z (n : nat) (z : Z) :
  round_dec n (inject_Z z) == inject_Z z.
Proof.
  unfold round_dec. pose proof (pow10_pos n) as P.
  assert (inject_Z z * pow10 n == inject_Z (z * 10 ^ Z.of_nat n)) as E
    by (unfold pow10; now rewrite inject_Z_mult).
  rewrite (round_half_even_Qeq _ _ E), round_half_even_inject_Z.
  rewrite inject_Z_mult. fold (pow10 n). field. lra.
Qed.

Lemma round_dec_Qeq (n : nat) (q1 q2 : Q) :
  q1 == q2 -> round_dec n q1 == round_dec n q2.
Proof.
  intro E. apply Qle_antisym; apply round_dec_mono; lra.
Qed.

Lemma Qltb_lt (a b : Q) : Qltb a b = true <-> a < b.
Proof.
  unfold Qltb. destruct (Qcompare_spec a b); split; intro;
    try reflexivity; try discriminate; try assumption; exfalso; lra.
Qed.

Lemma Qltb_ge (a b : Q) : Qltb a b = false <-> b <= a.
Proof.
  unfold Qltb. destruct (Qcompare_spec a b); split; intro;
    try reflexivity; try discriminate; try lra.
Qed.

Lemma Qleb_le (a b : Q) : Qleb a b = true <-> a <= b.
Proof.
  unfold Qleb. destruct (Qcompare_spec a b); split; intro;
    try reflexivity; try discriminate; try lra.
Qed.

Lemma Qsum_nonneg (l : list Q) :
  (forall x, In x l -> 0 <= x) -> 0 <= Qsum l.
Proof.
  induction l as [|x l IH]; intro H; simpl; [lra|].
  pose proof (H x (or_introl eq_refl)).
  assert (0 <= Qsum l) by (apply IH; intros; apply H; now right). lra.
Qed.

Lemma Qsum_filter_le {A : Type} (f : A -> Q) (p : A -> bool) (l : list A) :
  (forall x, In x l -> 0 <= f x) ->
  Qsum (map f (filter p l)) <= Qsum (map f l).
Proof.
  induction l as [|x l IH]; intro H; simpl; [lra|].
  pose proof (H x (or_introl eq_refl)).
  assert (Qsum (map f (filter p l)) <= Qsum (map f l))
    by (apply IH; intros; apply H; now right).
  destruct (p x); simpl; lra.
Qed.

Lemma filter_filter {A : Type} (p q : A -> bool) (l : list A) :
  filter q (filter p l) = filter (fun x => p x && q x) l.
Proof.
  induction l as [|x l IH]; [reflexivity|]. simpl.
  destruct (p x); simpl; [destruct (q x); simpl; now rewrite IH | exact IH].
Qed.

End RoundingFacts.

(* ================================================================== *)
(** ** Owner coverage                                                   *)
(* ================================================================== *)

(** C3 (as amended): on an enriched frame, [owner_coverage] returns the
    sum of the month's costs as [total_cost], the sum of the month's costs
    whose owner is not ["unassigned"] as [assigned_cost], and as
    [coverage_pct] the quotient of the two rounded to 4 decimals when
    [total_cost] is positive and 0 when [total_cost] is zero or negative;
    when no cost of the month is negative, [coverage_pct] lies between 0
    and 1. *)
Theorem owner_coverage_spec :
  forall (month : string) (billing : list RawBilling)
         (resources : list RawResource) (df : list Enriched),
    enrich_billing billing resources = Ok df ->
    exists c,
      owner_coverage month billing resources = Ok c
      /\ total_cost c
         = Qsum (map (fun e => cost (bill e)) (filter (in_month month) df))
      /\ assigned_cost c
         = Qsum (map (fun e => cost (bill e))
                     (filter (fun e => in_month month e && assigned e) df))
      /\ (0 < total_cost c ->
          coverage_pct c = round_dec 4 (assigned_cost c / total_cost c))
      /\ (total_cost c <= 0 -> coverage_pct c == 0)
      /\ ((forall e, In e df -> in_month month e = true -> 0 <= cost (bill e)) ->
          0 <= coverage_pct c <= 1).
Proof.
  intros month billing resources df E.
  unfold owner_coverage. rewrite E. simpl.
  eexists. split; [reflexivity|].
  unfold owner_coverage_of. simpl. rewrite filter_filter.
  set (total := Qsum (map (fun e => cost (bill e)) (filter (in_month month) df))).
  set (asg := Qsum (map (fun e => cost (bill e))
                        (filter (fun e => in_month month e && assigned e) df))).
  split; [reflexivity|]. split; [reflexivity|].
  split; [|split].
  - intro P. apply Qltb_lt in P. now rewrite P.
  - intro N. apply Qltb_ge in N. rewrite N.
    exact (round_dec_inject_Z 4 0).
  - intro H.
    assert (forall e, In e (filter (in_month month) df) -> 0 <= cost (bill e)) as Hm
      by (intros e He; apply filter_In in He as [? ?]; now apply H).
    assert (0 <= asg) as A0.
    { apply Qsum_nonneg. intros x Hx. apply in_map_iff in Hx as [e [<- He]].
      apply filter_In in He as [He Hp]. apply andb_true_iff in Hp as [Hp _].
      now apply H. }
    assert (asg <= total) as A1.
    { unfold asg, total. rewrite <- filter_filter.
      now apply Qsum_filter_le. }
    pose proof (round_dec_inject_Z 4 0) as R0.
    pose proof (round_dec_inject_Z 4 1) as R1.
    destruct (Qltb 0 total) eqn:P.
    + apply Qltb_lt in P.
      assert (0 <= asg / total) as Q0
        by (apply Qle_shift_div_l; [exact P | lra]).
      assert (asg / total <= 1) as Q1
        by (apply Qle_shift_div_r; [exact P | lra]).
      pose proof (round_dec_mono 4 _ _ Q0) as M0.
      pose proof (round_dec_mono 4 _ _ Q1) as M1.
      change (inject_Z 0) with 0 in R0. change (inject_Z 1) with 1 in R1.
      split; lra.
    + change (inject_Z 0) with 0 in R0. split; lra.
Qed.

(** C3 on the fixture of the tests: 1750 of 4250 is assigned. *)
Lemma owner_coverage_spec_witness :
  exists c,
    owner_coverage "2025-08" sample_billing_data sample_resources_data = Ok c
    /\ total_cost c == 4250
    /\ assigned_cost c == 1750
    /\ coverage_pct c == 4118 # 10000
    /\ 0 <= coverage_pct c <= 1.
Proof.
  destruct (owner_coverage_spec "2025-08" sample_billing_data
              sample_resources_data _ eq_refl)
    as [c [Hc [Ht [Ha [Hp [_ Hb]]]]]].
  exists c. split; [exact Hc|].
  assert (total_cost c == 4250) as T by (rewrite Ht; vm_compute; reflexivity).
  assert (assigned_cost c == 1750) as A by (rewrite Ha; vm_compute; reflexivity).
  split; [exact T|]. split; [exact A|]. split.
  - rewrite Hp by (rewrite T; reflexivity).
    rewrite Ha, Ht. vm_compute. reflexivity.
  - apply Hb. intros e He _. vm_compute in He.
    repeat (destruct He as [<-|He]; [vm_compute; intro; discriminate|]).
    contradiction.
Defined.

(** C3 (counterexample): for a month whose total cost is -10, all of it
    assigned, the quotient [assigned_cost / total_cost] rounds to 1 while
    [owner_coverage] reports 0. *)
Lemma owner_coverage_negative_total_cex :
  exists c,
    owner_coverage "2025-08" credit_billing sample_resources_data = Ok c
    /\ total_cost c == -10
    /\ assigned_cost c == -10
    /\ round_dec 4 (assigned_cost c / total_cost c) == 1
    /\ coverage_pct c == 0.
Proof.
  eexists. split; [vm_compute; reflexivity|].
  repeat split; vm_compute; reflexivity.
Qed.

(* ================================================================== *)
(** ** Key normalisation                                                *)
(* ================================================================== *)

Section StripFacts.

Lemma lstrip_first (s : string) : Str.not_space (Str.first_char (Str.lstrip s)).
Proof.
  induction s as [|c r IH]; simpl; [exact I|].
  destruct (Str.is_space c) eqn:E; [exact IH | simpl; exact E].
Qed.

Lemma rstrip_first (s : string) :
  Str.not_space (Str.first_char s) ->
  Str.not_space (Str.first_char (Str.rstrip s)).
Proof.
  destruct s as [|c r]; simpl; [trivial|]. intro H.
  destruct (Str.rstrip r); simpl; [|exact H].
  rewrite H. simpl. exact H.
Qed.

Lemma rstrip_last (s : string) : Str.not_space (Str.last_char (Str.rstrip s)).
Proof.
  induction s as [|c r IH]; simpl; [exact I|].
  destruct (Str.rstrip r) as [|c' r'] eqn:E.
  - destruct (Str.is_space c) eqn:Ec; simpl; [exact I | exact Ec].
  - exact IH.
Qed.

Lemma strip_trimmed (s : string) : Str.trimmed (Str.strip s).
Proof.
  split; [apply rstrip_first, lstrip_first | apply rstrip_last].
Qed.

(** Shape of a normalised key: null, or text without leading or trailing
    whitespace that is not ["nan"].  The empty text is not excluded. *)
Lemma normalize_resource_id_shape (c : cell) :
  normalize_resource_id c = None
  \/ exists s, normalize_resource_id c = Some s
               /\ Str.trimmed s /\ s <> "nan".
Proof.
  unfold normalize_resource_id.
  destruct (String.eqb (Str.strip (astype_str c)) "nan") eqn:E; [now left|].
  right. eexists. split; [reflexivity|]. split; [apply strip_trimmed|].
  now apply String.eqb_neq.
Qed.

End StripFacts.

(** C7 (evaluation at the failing input): a blank [resource_id] is
    normalised to the empty string, not to null, and reaches the enriched
    frame as such. *)
Theorem normalize_resource_id_keeps_empty_string :
  normalize_resource_id (CStr "   ") = Some ""
  /\ normalize_resource_id (CStr "") = Some ""
  /\ exists df,
       enrich_billing blank_id_billing sample_resources_data = Ok df
       /\ map (fun e => resource_id (bill e)) df = [Some ""].
Proof.
  split; [reflexivity|]. split; [reflexivity|].
  eexists. split; reflexivity.
Qed.

(* ================================================================== *)
(** ** Idle detector: the utilisation ratio                             *)
(* ================================================================== *)

(** C9 (evaluation at the failing input): when every row of the latest
    month has [usage_qty] 0, the denominator of the utilisation ratio is 0
    and the ratio of the row is the undefined value NaN. *)
Theorem idle_utilization_divides_by_zero :
  exists df,
    enrich_billing zero_usage_billing sample_resources_data = Ok df
    /\ Qmax_list (map (fun r => usage_qty (bill r)) (latest_month_rows df))
       = Some 0
    /\ map snd (with_utilization (latest_month_rows df)) = [NaN].
Proof.
  eexists. split; [reflexivity|]. split; vm_compute; reflexivity.
Qed.

(** C5 (evaluation at the failing input): the only resource of the latest
    month has [usage_qty] 0 and cost 500, and [find_idle_resources] flags
    nothing, whatever the two thresholds are. *)
Theorem zero_usage_resource_not_flagged :
  forall usage_threshold cost_threshold : Q,
    (exists df e,
        enrich_billing zero_usage_billing sample_resources_data = Ok df
        /\ In e (latest_month_rows df)
        /\ usage_qty (bill e) == 0 /\ cost (bill e) == 500)
    /\ find_idle_resources usage_threshold cost_threshold
         zero_usage_billing sample_resources_data = Ok [].
Proof.
  intros usage_threshold cost_threshold. split.
  - eexists. eexists. split; [reflexivity|].
    split; [vm_compute; left; reflexivity|]. split; reflexivity.
  - unfold find_idle_resources.
    change (enrich_billing zero_usage_billing sample_resources_data)
      with (Ok (map (join_row (map normalize_resource sample_resources_data))
                    (map coerce_billing zero_usage_billing))).
    simpl bind. unfold ret, find_idle_resources_of, idle_rows.
    match goal with
    | |- context [with_utilization ?l] =>
        let v := eval vm_compute in (with_utilization l) in
        change (with_utilization l) with v
    end.
    reflexivity.
Qed.

(* ================================================================== *)
(** ** Month-over-month unit cost changes                               *)
(* ================================================================== *)

Section ChangeFacts.

Lemma insert_desc_In {A : Type} (val : A -> Q) (x y : A) (l : list A) :
  In y (insert_desc val x l) <-> y = x \/ In y l.
Proof.
  induction l as [|z l IH]; simpl.
  - intuition.
  - destruct (Qltb (val x) (val z)); simpl; [rewrite IH|]; intuition.
Qed.

Lemma sort_desc_In {A : Type} (val : A -> Q) (y : A) (l : list A) :
  In y (sort_desc val l) <-> In y l.
Proof.
  induction l as [|x l IH]; simpl; [reflexivity|].
  rewrite insert_desc_In, IH. intuition.
Qed.

(** Every row that gets a [pct_change] has passed the filter on
    [prev_unit_cost], and its [pct_change] is the relative change. *)
Lemma with_pct_change_guarded {K : Type} (l : list (K * Q * Q)) (c : Change K) :
  In c (map with_pct_change (nonzero_prev l)) ->
  ~ ch_prev_unit_cost c == 0
  /\ ch_pct_change c
     = (ch_unit_cost c - ch_prev_unit_cost c) / ch_prev_unit_cost c.
Proof.
  intro H. apply in_map_iff in H as [r [<- Hr]].
  unfold nonzero_prev in Hr. apply filter_In in Hr as [_ Hr].
  apply negb_true_iff in Hr. split; [|reflexivity].
  simpl. intro E. apply Qeq_bool_iff in E. congruence.
Qed.

Lemma spike_change_rows_guarded (df : list Enriched) (c : Change spike_key_t) :
  In c (spike_change_rows df) ->
  ~ ch_prev_unit_cost c == 0
  /\ ch_pct_change c
     = (ch_unit_cost c - ch_prev_unit_cost c) / ch_prev_unit_cost c.
Proof. apply with_pct_change_guarded. Qed.

Lemma unit_cost_change_rows_guarded (df : list Enriched)
    (c : Change (string * string)) :
  In c (unit_cost_change_rows df) ->
  ~ ch_prev_unit_cost c == 0
  /\ ch_pct_change c
     = (ch_unit_cost c - ch_prev_unit_cost c) / ch_prev_unit_cost c.
Proof. apply with_pct_change_guarded. Qed.

Lemma spike_rows_In (threshold_pct : Q) (df : list Enriched)
    (c : Change spike_key_t) :
  In c (spike_rows threshold_pct df)
  <-> In c (spike_change_rows df) /\ threshold_pct <= ch_pct_change c.
Proof.
  unfold spike_rows. rewrite filter_In, Qleb_le. reflexivity.
Qed.

Lemma unit_cost_changes_of_In (threshold_pct : Q) (df : list Enriched)
    (c : Change (string * string)) :
  In c (unit_cost_changes_of threshold_pct df)
  <-> exists c0, In c0 (unit_cost_change_rows df)
                 /\ threshold_pct <= Qabs (ch_pct_change c0)
                 /\ c = round_pct_change c0.
Proof.
  unfold unit_cost_changes_of. rewrite sort_desc_In, in_map_iff. split.
  - intros [c0 [<- H]]. apply filter_In in H as [H1 H2].
    apply Qleb_le in H2. now exists c0.
  - intros [c0 [H1 [H2 ->]]]. exists c0. split; [reflexivity|].
    apply filter_In. split; [exact H1 | now apply Qleb_le].
Qed.



End ChangeFacts.



(* ================================================================== *)
(** ** Spike detector: the join with the latest month                   *)
(* ================================================================== *)

Section MergeFacts.


Lemma Qsum_skipna_app (l1 l2 : list (option Q)) :
  Qsum_skipna (l1 ++ l2) == Qsum_skipna l1 + Qsum_skipna l2.
Proof.
  induction l1 as [|[q|] l1 IH]; simpl; lra.
Qed.

Lemma merge_latest_row_sum (latest_costs : list Enriched)
    (s : Change spike_key_t) :
  Qsum_skipna
    (map (fun r => option_map (fun c => c * ch_pct_change (fst r)) (snd r))
         (merge_latest_row latest_costs s))
  == Qsum (spike_terms latest_costs s).
Proof.
  unfold merge_latest_row, spike_terms.
  destruct (latest_matches latest_costs s) as [|e ms] eqn:E; [reflexivity|].
  clear E. generalize (e :: ms). intro l.
  induction l as [|x l IH]; simpl; [reflexivity | lra].
Qed.

Lemma spike_total_savings_sum (latest_costs : list Enriched)
    (spikes : list (Change spike_key_t)) :
  spike_total_savings (merge_latest latest_costs spikes)
  == Qsum (map (fun s => Qsum (spike_terms latest_costs s)) spikes) * (1 # 2).
Proof.
  unfold spike_total_savings, merge_latest.
  apply Qmult_comp; [|reflexivity].
  induction spikes as [|s spikes IH]; simpl; [reflexivity|].
  rewrite map_app, Qsum_skipna_app, IH, merge_latest_row_sum. reflexivity.
Qed.

End MergeFacts.


(** The join on a frame with [k = 2] for [res1] and [k = 0] for [res2]. *)
Example find_cost_spikes_repeated_latest :
  exists r,
    find_cost_spikes default_threshold_pct repeated_latest_billing
                     sample_resources_data = Ok [r]
    /\ map detail_resource_id (resources r) = ["res1"; "res1"; "res2"]
    /\ map cost_and_savings (resources r)
       = [ Some (Some (round_dec 2 100), Some (round_dec 2 (100 * 1 * (1 # 2))));
           Some (Some (round_dec 2 50), Some (round_dec 2 (50 * 1 * (1 # 2))));
           Some (None, None) ]
    /\ estimated_savings r == 75.
Proof.
  eexists. split; [vm_compute; reflexivity|].
  split; [reflexivity|]. split; vm_compute; reflexivity.
Qed.

(* ================================================================== *)
(** ** Savings estimates                                                *)
(* ================================================================== *)

(** C4 (evaluation at the failing input): a resource whose unit cost goes
    from 10 to 40 at a monthly cost of 100 is reported by
    [find_cost_spikes], and so by [get_all_recommendations], with
    [current_monthly_cost] 100 and [potential_savings] 150. *)
Theorem spike_savings_exceed_current_cost :
  exists r d all rd,
    find_cost_spikes default_threshold_pct quadrupled_unit_cost_billing
                     sample_resources_data = Ok [r]
    /\ resources r = [d]
    /\ cost_and_savings d = Some (Some (round_dec 2 100), Some (round_dec 2 150))
    /\ round_dec 2 100 == 100 /\ round_dec 2 150 == 150
    /\ get_all_recommendations quadrupled_unit_cost_billing
                               sample_resources_data = Ok all
    /\ In rd (recommendations all)
    /\ dict_resources rd = [d].
Proof.
  eexists. eexists. eexists. eexists.
  split; [vm_compute; reflexivity|]. split; [reflexivity|].
  split; [vm_compute; reflexivity|].
  split; [vm_compute; reflexivity|]. split; [vm_compute; reflexivity|].
  split; [vm_compute; reflexivity|].
  split; [left; reflexivity | reflexivity].
Qed.

(* ================================================================== *)
(** ** The aggregator                                                   *)
(* ================================================================== *)

Section DetectorFacts.

Lemma find_idle_resources_of_length (u c : Q) (df : list Enriched) :
  (List.length (find_idle_resources_of u c df) <= 1)%nat.
Proof.
  unfold find_idle_resources_of.
  destruct (idle_rows u c df); simpl; lia.
Qed.

Lemma find_cost_spikes_of_length (t : Q) (df : list Enriched) :
  (List.length (find_cost_spikes_of t df) <= 1)%nat.
Proof.
  unfold find_cost_spikes_of.
  destruct (spike_rows t df); simpl; lia.
Qed.

Lemma find_tagging_gaps_of_length (df : list Enriched) :
  (List.length (find_tagging_gaps_of df) <= 1)%nat.
Proof.
  unfold find_tagging_gaps_of.
  destruct (filter untagged (latest_month_rows df)); simpl; lia.
Qed.

End DetectorFacts.

(** C8 (as amended): on tables that enrich, each detector gives 0 or 1
    recommendation whatever its thresholds; [get_all_recommendations]
    returns the dictionaries of the idle, spike and tagging
    recommendations in that order, each with its detector's savings
    rounded to 2 decimals, and as total the sum of the detectors' savings
    before that rounding, rounded to 2 decimals. *)
Theorem get_all_recommendations_spec :
  forall (billing : list RawBilling) (resources : list RawResource)
         (df : list Enriched),
    enrich_billing billing resources = Ok df ->
    let idle :=
      find_idle_resources_of default_usage_threshold default_cost_threshold df in
    let spikes := find_cost_spikes_of default_threshold_pct df in
    let gaps := find_tagging_gaps_of df in
    (forall u c t,
        (List.length (find_idle_resources_of u c df) <= 1)%nat
        /\ (List.length (find_cost_spikes_of t df) <= 1)%nat
        /\ (List.length (find_tagging_gaps_of df) <= 1)%nat)
    /\ exists all,
         get_all_recommendations billing resources = Ok all
         /\ recommendations all = map to_dict (idle ++ spikes ++ gaps)
         /\ map estimated_monthly_savings (recommendations all)
            = map (fun r => round_dec 2 (estimated_savings r))
                  (idle ++ spikes ++ gaps)
         /\ total_estimated_monthly_savings all
            = round_dec 2 (Qsum (map estimated_savings (idle ++ spikes ++ gaps))).
Proof.
  intros billing resources df E idle spikes gaps. split.
  - intros u c t. split; [|split].
    + apply find_idle_resources_of_length.
    + apply find_cost_spikes_of_length.
    + apply find_tagging_gaps_of_length.
  - unfold get_all_recommendations, find_idle_resources, find_cost_spikes,
      find_tagging_gaps.
    rewrite E. simpl. eexists. split; [reflexivity|]. simpl.
    split; [reflexivity|]. split; [|reflexivity].
    now rewrite map_map.
Qed.

(** C8 on the fixture of the tests: no spike, one idle resource, three
    resources with a tagging gap. *)
Lemma get_all_recommendations_spec_witness :
  exists all,
    get_all_recommendations sample_billing_data sample_resources_data = Ok all
    /\ map type (recommendations all) = [idle_resources; tagging_gaps]
    /\ map estimated_monthly_savings (recommendations all)
       = [round_dec 2 (500 * (7 # 10));
          round_dec 2 ((2000 + (750 + (500 + 0))) * (1 # 5))].
Proof.
  destruct (get_all_recommendations_spec sample_billing_data
              sample_resources_data _ eq_refl)
    as [_ [all [Ha [Hr [Hs _]]]]].
  exists all. split; [exact Ha|]. split.
  - rewrite Hr. vm_compute. reflexivity.
  - rewrite Hs. vm_compute. reflexivity.
Defined.

(** C8 (counterexample): the idle detector estimates 70.014 and the
    tagging detector 10.004; the returned recommendations carry 70.01 and
    10.00, which add up to 80.01, and the returned total is 80.02. *)
Lemma get_all_recommendations_total_cex :
  exists all,
    get_all_recommendations two_detector_billing sample_resources_data = Ok all
    /\ map type (recommendations all) = [idle_resources; tagging_gaps]
    /\ Qsum (map estimated_monthly_savings (recommendations all)) == 8001 # 100
    /\ round_dec 2 (Qsum (map estimated_monthly_savings (recommendations all)))
       == 8001 # 100
    /\ total_estimated_monthly_savings all == 8002 # 100.
Proof.
  eexists. split; [vm_compute; reflexivity|].
  split; [reflexivity|].
  split; [vm_compute; reflexivity|].
  split; vm_compute; reflexivity.
Qed.

(* ================================================================== *)
(** ** Facts about groupby                                              *)
(* ================================================================== *)

Section GroupByFacts.

Context {A K : Type}.
Variable keyf : A -> option K.
Variable cmp : K -> K -> comparison.
Hypothesis cmp_eq : forall a b, cmp a b = Eq <-> a = b.

Lemma insert_group_keeps (k : K) (a : A) (gs : list (K * list A))
    (k' : K) (l : list A) :
  In (k', l) gs ->
  exists l', In (k', l') (insert_group cmp k a gs) /\ incl l l'.
Proof.
  induction gs as [|[k0 l0] gs IH]; simpl; [contradiction|].
  intros [H|H].
  - inversion H; subst. destruct (cmp k k').
    + exists (l ++ [a]). split; [now left | now apply incl_appl].
    + exists l. split; [right; now left | apply incl_refl].
    + exists l. split; [now left | apply incl_refl].
  - destruct (cmp k k0).
    + exists l. split; [now right | apply incl_refl].
    + exists l. split; [right; now right | apply incl_refl].
    + destruct (IH H) as [l' [H1 H2]]. exists l'. split; [now right | exact H2].
Qed.

Lemma insert_group_adds (k : K) (a : A) (gs : list (K * list A)) :
  exists l', In (k, l') (insert_group cmp k a gs) /\ In a l'.
Proof.
  induction gs as [|[k0 l0] gs IH]; simpl.
  - exists [a]. split; now left.
  - destruct (cmp k k0) eqn:E.
    + apply cmp_eq in E. subst k0. exists (l0 ++ [a]).
      split; [now left | apply in_or_app; right; now left].
    + exists [a]. split; now left.
    + destruct IH as [l' [H1 H2]]. exists l'. split; [now right | exact H2].
Qed.

Lemma insert_group_ok (S : A -> Prop) (k : K) (a : A) (gs : list (K * list A)) :
  groups_ok keyf S gs -> S a -> keyf a = Some k ->
  groups_ok keyf S (insert_group cmp k a gs).
Proof.
  intros G Sa Ka. induction gs as [|[k0 l0] gs IH]; simpl.
  - intros k' l x [H|[]] Hx. inversion H; subst.
    destruct Hx as [<-|[]]. now split.
  - assert (groups_ok keyf S gs) as G' by (intros k' l x H; apply G; now right).
    destruct (cmp k k0) eqn:E.
    + apply cmp_eq in E. subst k0. intros k' l x [H|H] Hx.
      * inversion H; subst. apply in_app_or in Hx as [Hx|[<-|[]]].
        -- apply (G k' l0); [now left | exact Hx].
        -- now split.
      * apply (G k' l); [now right | exact Hx].
    + intros k' l x [H|H] Hx.
      * inversion H; subst. destruct Hx as [<-|[]]. now split.
      * now apply (G k' l).
    + intros k' l x [H|H] Hx.
      * apply (G k' l); [now left | exact Hx].
      * now apply (IH G' k' l).
Qed.

Lemma groupby_sound (rows : list A) (k : K) (l : list A) (x : A) :
  In (k, l) (groupby keyf cmp rows) -> In x l ->
  In x rows /\ keyf x = Some k.
Proof.
  unfold groupby.
  assert (forall todo acc,
             groups_ok keyf (fun y => In y rows) acc ->
             (forall y, In y todo -> In y rows) ->
             groups_ok keyf (fun y => In y rows)
               (fold_left
                  (fun gs a =>
                     match keyf a with
                     | Some k => insert_group cmp k a gs
                     | None => gs
                     end)
                  todo acc)) as H.
  { induction todo as [|a todo IH]; intros acc G T; simpl; [exact G|].
    apply IH; [|intros y Hy; apply T; now right].
    destruct (keyf a) as [ka|] eqn:Ka; [|exact G].
    apply insert_group_ok; [exact G | apply T; now left | exact Ka]. }
  intros Hin Hx.
  apply (H rows [] (fun _ _ _ F => match F with end) (fun _ Hy => Hy) k l x Hin Hx).
Qed.

Lemma groupby_complete (rows : list A) (a : A) (k : K) :
  In a rows -> keyf a = Some k ->
  exists l, In (k, l) (groupby keyf cmp rows) /\ In a l.
Proof.
  unfold groupby. intros Hin Ka.
  assert (forall todo acc,
             (In a todo \/ exists l, In (k, l) acc /\ In a l) ->
             exists l,
               In (k, l)
                  (fold_left
                     (fun gs a =>
                        match keyf a with
                        | Some k => insert_group cmp k a gs
                        | None => gs
                        end)
                     todo acc)
               /\ In a l) as H.
  { induction todo as [|b todo IH]; intros acc [Ht|Ha]; simpl.
    - contradiction.
    - exact Ha.
    - destruct Ht as [<-|Ht].
      + apply IH. right. rewrite Ka. apply insert_group_adds.
      + apply IH. now left.
    - apply IH. right. destruct Ha as [l [H1 H2]].
      destruct (keyf b) as [kb|]; [|now exists l].
      destruct (insert_group_keeps kb b acc k l H1) as [l' [H3 H4]].
      exists l'. split; [exact H3 | now apply H4]. }
  apply H. now left.
Qed.

End GroupByFacts.

Section CompareFacts.

Lemma cmp_pair_eq {A B : Type}
    (ca : A -> A -> comparison) (cb : B -> B -> comparison) :
  (forall a b, ca a b = Eq <-> a = b) ->
  (forall a b, cb a b = Eq <-> a = b) ->
  forall x y, cmp_pair ca cb x y = Eq <-> x = y.
Proof.
  intros Ha Hb [a1 b1] [a2 b2]. unfold cmp_pair. simpl. split.
  - destruct (ca a1 a2) eqn:E; try discriminate.
    intro H. apply Ha in E. apply Hb in H. now subst.
  - intro H. inversion H; subst.
    rewrite (proj2 (Ha a2 a2) eq_refl). now apply Hb.
Qed.

Lemma string_compare_refl (s : string) : String.compare s s = Eq.
Proof.
  induction s as [|c s IH]; simpl; [reflexivity|].
  unfold Ascii.compare. now rewrite N.compare_refl.
Qed.

Lemma string_compare_eq (a b : string) : String.compare a b = Eq <-> a = b.
Proof.
  split; [apply String.compare_eq_iff | intros ->; apply string_compare_refl].
Qed.

Lemma cmp_idle_key_eq (x y : string * string * string) :
  cmp_idle_key x y = Eq <-> x = y.
Proof.
  unfold cmp_idle_key.
  apply cmp_pair_eq; [apply cmp_pair_eq|]; apply string_compare_eq.
Qed.

End CompareFacts.

(* ================================================================== *)
(** ** Idle detector: what holds away from the failing inputs           *)
(* ================================================================== *)

(** A row of the latest month with [usage_qty] 0, a cost above the cost
    threshold and a non-null [resource_id] is reported by
    [find_idle_resources] for every positive usage threshold, provided the
    largest [usage_qty] of that month is not 0. *)
Theorem zero_usage_flagged_when_peak_nonzero :
  forall (usage_threshold cost_threshold : Q) (df : list Enriched)
         (e : Enriched) (rid : string) (peak : Q),
    0 < usage_threshold ->
    In e (latest_month_rows df) ->
    usage_qty (bill e) == 0 ->
    cost_threshold < cost (bill e) ->
    resource_id (bill e) = Some rid ->
    Qmax_list (map (fun r => usage_qty (bill r)) (latest_month_rows df))
    = Some peak ->
    ~ peak == 0 ->
    exists r d,
      find_idle_resources_of usage_threshold cost_threshold df = [r]
      /\ In d (resources r)
      /\ detail_resource_id d = rid.
Proof.
  intros ut ct df e rid peak Hut He Hu Hc Hrid Hmax Hpeak.
  assert (utilization (latest_month_rows df) e
          = Fin (usage_qty (bill e) / peak)) as Hutil.
  { unfold utilization. rewrite Hmax. unfold fdiv.
    destruct (Qeq_bool peak 0) eqn:E; [|reflexivity].
    apply Qeq_bool_iff in E. contradiction. }
  assert (In (e, utilization (latest_month_rows df) e) (idle_rows ut ct df))
    as Hidle.
  { unfold idle_rows. apply filter_In. split.
    - unfold with_utilization. apply in_map_iff. now exists e.
    - unfold is_idle. simpl. rewrite Hutil. simpl.
      apply andb_true_iff. split; apply Qltb_lt; [|exact Hc].
      assert (usage_qty (bill e) / peak == 0) as Z
        by (rewrite Hu; field; exact Hpeak).
      lra. }
  assert (idle_key (e, utilization (latest_month_rows df) e)
          = Some (rid, owner e, env e)) as Hkey
    by (unfold idle_key; simpl; now rewrite Hrid).
  destruct (groupby_complete idle_key cmp_idle_key cmp_idle_key_eq
              _ _ _ Hidle Hkey) as [l [Hg _]].
  unfold find_idle_resources_of.
  destruct (idle_rows ut ct df) as [|i0 rest] eqn:Ei; [contradiction|].
  eexists. eexists. split; [reflexivity|]. simpl resources.
  split.
  - apply in_map_iff. eexists. split; [reflexivity|].
    unfold idle_summary. apply in_map_iff.
    exists (rid, owner e, env e, l). split; [reflexivity | exact Hg].
  - reflexivity.
Qed.

(** On the fixture of the tests [res4] is reported. *)
Lemma zero_usage_flagged_when_peak_nonzero_witness :
  exists r d,
    find_idle_resources_of (2 # 10) 400
      (map (join_row (map normalize_resource sample_resources_data))
           (map coerce_billing sample_billing_data))
    = [r]
    /\ In d (resources r)
    /\ detail_resource_id d = "res4".
Proof.
  set (df := map (join_row (map normalize_resource sample_resources_data))
                 (map coerce_billing sample_billing_data)).
  apply (zero_usage_flagged_when_peak_nonzero (2 # 10) 400 df
           (join_row (map normalize_resource sample_resources_data)
                     (coerce_billing (billing_row "2025-08" "res4" 0 30 500)))
           "res4" 10).
  - reflexivity.
  - vm_compute. right. right. right. left. reflexivity.
  - reflexivity.
  - reflexivity.
  - reflexivity.
  - vm_compute. reflexivity.
  - intro H. discriminate H.
Defined.

(** With a cost threshold that is not negative, every entry of the idle
    recommendation has [0 <= potential_savings <= current_monthly_cost]. *)
Theorem idle_savings_bounded :
  forall (usage_threshold cost_threshold : Q) (df : list Enriched)
         (r : Recommendation) (e : IdleEntry),
    0 <= cost_threshold ->
    In r (find_idle_resources_of usage_threshold cost_threshold df) ->
    In (IdleDetail e) (resources r) ->
    0 <= idle_potential_savings e <= idle_current_monthly_cost e.
Proof.
  intros ut ct df r e Hct Hr He.
  unfold find_idle_resources_of in Hr.
  destruct (idle_rows ut ct df) as [|i0 rest] eqn:Ei; [contradiction|].
  rewrite <- Ei in Hr. destruct Hr as [<-|[]]. simpl resources in He.
  apply in_map_iff in He as [row [Hrow Hin]]. inversion Hrow; subst e.
  unfold idle_summary in Hin. apply in_map_iff in Hin as [[k l] [<- Hg]].
  simpl.
  assert (0 <= Qsum (map (fun x => cost (bill (fst x))) l)) as Hsum.
  { apply Qsum_nonneg. intros c Hc. apply in_map_iff in Hc as [x [<- Hx]].
    destruct (groupby_sound idle_key cmp_idle_key cmp_idle_key_eq
                _ _ _ _ Hg Hx) as [Hx' _].
    unfold idle_rows in Hx'. apply filter_In in Hx' as [_ Hx'].
    unfold is_idle in Hx'. apply andb_true_iff in Hx' as [_ Hx'].
    apply Qltb_lt in Hx'. lra. }
  set (c := Qsum (map (fun x => cost (bill (fst x))) l)) in *.
  pose proof (round_dec_inject_Z 2 0) as R0. change (inject_Z 0) with 0 in R0.
  assert (0 <= c * (7 # 10)) as L by lra.
  assert (c * (7 # 10) <= c) as U by lra.
  pose proof (round_dec_mono 2 _ _ L). pose proof (round_dec_mono 2 _ _ U).
  split; lra.
Qed.

(** On the fixture of the tests, for the entry of [res4]. *)
Lemma idle_savings_bounded_witness :
  0 <= round_dec 2 (500 * (7 # 10)) <= round_dec 2 500.
Proof.
  set (df := map (join_row (map normalize_resource sample_resources_data))
                 (map coerce_billing sample_billing_data)).
  assert (exists r, find_idle_resources_of (1 # 10) 100 df = [r]
                    /\ In (IdleDetail
                             (mkIdleEntry "res4" "unassigned" "unassigned"
                                (round_dec 2 500) (Fin (round_dec 1 (0 / 10 * 100)))
                                (round_dec 2 (500 * (7 # 10)))))
                          (resources r)) as [r [Hr Hd]].
  { eexists. split; [reflexivity|]. vm_compute. left. reflexivity. }
  apply (idle_savings_bounded (1 # 10) 100 df r _ ltac:(discriminate)
           ltac:(rewrite Hr; now left) Hd).
Defined.

(* ================================================================== *)
(** ** The guarded ratios                                               *)
(* ================================================================== *)

(** In [unit_cost_changes] and in [find_cost_spikes] a row receives a
    [pct_change] only after the filter on [prev_unit_cost], so the
    denominator of that quotient is never 0; [owner_coverage] divides only
    by a positive total and reports 0 otherwise. *)
Theorem guarded_ratios_have_nonzero_denominator :
  forall df : list Enriched,
    (forall c, In c (unit_cost_change_rows df) ->
               ~ ch_prev_unit_cost c == 0
               /\ ch_pct_change c
                  = (ch_unit_cost c - ch_prev_unit_cost c) / ch_prev_unit_cost c)
    /\ (forall c, In c (spike_change_rows df) ->
                  ~ ch_prev_unit_cost c == 0
                  /\ ch_pct_change c
                     = (ch_unit_cost c - ch_prev_unit_cost c) / ch_prev_unit_cost c)
    /\ (forall month,
          (0 < total_cost (owner_coverage_of month df)
           /\ coverage_pct (owner_coverage_of month df)
              = round_dec 4 (assigned_cost (owner_coverage_of month df)
                             / total_cost (owner_coverage_of month df)))
          \/ (total_cost (owner_coverage_of month df) <= 0
              /\ coverage_pct (owner_coverage_of month df) == 0)).
Proof.
  intro df. split; [|split].
  - apply unit_cost_change_rows_guarded.
  - apply spike_change_rows_guarded.
  - intro month. unfold owner_coverage_of. simpl.
    destruct (Qltb 0 (Qsum (map (fun e => cost (bill e))
                                (filter (in_month month) df)))) eqn:P.
    + left. apply Qltb_lt in P. now split.
    + right. apply Qltb_ge in P. split; [exact P|].
      exact (round_dec_inject_Z 4 0).
Qed.

(* ================================================================== *)
(** ** Orders on keys and the groups of groupby                         *)
(* ================================================================== *)

Section OrderFacts.

Lemma ascii_compare_refl (a : ascii) : Ascii.compare a a = Eq.
Proof. unfold Ascii.compare. apply N.compare_refl. Qed.

Lemma ascii_compare_lt_trans (a b c : ascii) :
  Ascii.compare a b = Lt -> Ascii.compare b c = Lt -> Ascii.compare a c = Lt.
Proof.
  unfold Ascii.compare. rewrite !N.compare_lt_iff. apply N.lt_trans.
Qed.

Lemma string_compare_lt_trans (a b c : string) :
  String.compare a b = Lt -> String.compare b c = Lt -> String.compare a c = Lt.
Proof.
  revert b c. induction a as [|x a IH]; intros [|y b] [|z c]; simpl;
    try discriminate; try reflexivity.
  destruct (Ascii.compare x y) eqn:Exy; try discriminate;
    destruct (Ascii.compare y z) eqn:Eyz; try discriminate; intros H1 H2.
  - apply Ascii.compare_eq_iff in Exy, Eyz. subst.
    rewrite ascii_compare_refl. now apply (IH b c).
  - apply Ascii.compare_eq_iff in Exy. subst. now rewrite Eyz.
  - apply Ascii.compare_eq_iff in Eyz. subst. now rewrite Exy.
  - now rewrite (ascii_compare_lt_trans _ _ _ Exy Eyz).
Qed.

#[global] Instance string_cmp_order : CmpOrder String.compare.
Proof.
  split.
  - intros a b. split; [apply String.compare_eq_iff|].
    intros ->. induction b as [|c b IH]; simpl; [reflexivity|].
    now rewrite ascii_compare_refl.
  - apply string_compare_lt_trans.
  - apply String.compare_antisym.
Qed.

#[global] Instance cmp_pair_order {A B : Type}
    (ca : A -> A -> comparison) (cb : B -> B -> comparison)
    `{CmpOrder A ca} `{CmpOrder B cb} : CmpOrder (cmp_pair ca cb).
Proof.
  split.
  - intros [a1 b1] [a2 b2]. unfold cmp_pair. simpl. split.
    + destruct (ca a1 a2) eqn:E; try discriminate.
      intro Hb. apply cmp_eq_iff in E, Hb. now subst.
    + intro E. inversion E; subst.
      rewrite (proj2 (cmp_eq_iff a2 a2) eq_refl). now apply cmp_eq_iff.
  - intros [a1 b1] [a2 b2] [a3 b3]. unfold cmp_pair. simpl.
    destruct (ca a1 a2) eqn:E12; try discriminate;
      destruct (ca a2 a3) eqn:E23; try discriminate; intros H1 H2.
    + apply cmp_eq_iff in E12, E23. subst.
      rewrite (proj2 (cmp_eq_iff a3 a3) eq_refl).
      exact (cmp_lt_trans _ _ _ H1 H2).
    + apply cmp_eq_iff in E12. subst. now rewrite E23.
    + apply cmp_eq_iff in E23. subst. now rewrite E12.
    + now rewrite (cmp_lt_trans _ _ _ E12 E23).
  - intros [a1 b1] [a2 b2]. unfold cmp_pair. simpl.
    rewrite (cmp_antisym a1 a2).
    destruct (ca a2 a1); simpl; try reflexivity. apply cmp_antisym.
Qed.

End OrderFacts.


Section GroupBySpec.
Context {A K : Type}.
Variable keyf : A -> option K.
Variable cmp : K -> K -> comparison.
Context `{O : CmpOrder K cmp}.

Lemma cmp_refl (k : K) : cmp k k = Eq.
Proof. now apply cmp_eq_iff. Qed.

Lemma cmp_lt_neq (a b : K) : cmp a b = Lt -> a <> b.
Proof. intros H ->. rewrite cmp_refl in H. discriminate. Qed.

Lemma cmp_gt_lt (a b : K) : cmp a b = Gt -> cmp b a = Lt.
Proof. intro H. rewrite cmp_antisym, H. reflexivity. Qed.

Lemma insert_group_In (k : K) (a : A) (gs : list (K * list A)) (k' : K) (l' : list A) :
  StronglySorted (group_lt cmp) gs ->
  In (k', l') (insert_group cmp k a gs) ->
  (k' <> k /\ In (k', l') gs)
  \/ (k' = k /\ ((exists l, In (k, l) gs /\ l' = l ++ [a])
                \/ ((forall l, ~ In (k, l) gs) /\ l' = [a]))).
Proof.
  induction gs as [|[k0 l0] gs IH]; intros S Hin; simpl in Hin.
  - destruct Hin as [E|[]]. inversion E; subst. right. split; [reflexivity|].
    right. split; [intros l []|reflexivity].
  - apply StronglySorted_inv in S as [S F].
    assert (forall k1 l1, In (k1, l1) gs -> cmp k0 k1 = Lt) as Hlt.
    { intros k1 l1 H1. rewrite Forall_forall in F. exact (F _ H1). }
    destruct (cmp k k0) eqn:E.
    + apply cmp_eq_iff in E. subst k0. destruct Hin as [E|Hin].
      * inversion E; subst. right. split; [reflexivity|]. left.
        exists l0. split; [now left | reflexivity].
      * left. split; [|now right].
        apply not_eq_sym. eapply cmp_lt_neq, Hlt, Hin.
    + destruct Hin as [E'|[E'|Hin]].
      * inversion E'; subst. right. split; [reflexivity|]. right.
        split; [|reflexivity]. intros l [E1|H1].
        -- inversion E1; subst. rewrite cmp_refl in E. discriminate.
        -- pose proof (cmp_lt_trans _ _ _ E (Hlt _ _ H1)) as C.
           rewrite cmp_refl in C. discriminate.
      * inversion E'; subst. left. split; [|now left].
        apply not_eq_sym. now apply cmp_lt_neq.
      * left. split; [|right; exact Hin].
        apply not_eq_sym. eapply cmp_lt_neq, cmp_lt_trans; [exact E|].
        eapply Hlt, Hin.
    + destruct Hin as [E'|Hin].
      * inversion E'; subst. left. split; [|now left].
        apply cmp_gt_lt in E. now apply cmp_lt_neq.
      * destruct (IH S Hin) as [[N H1]|[-> [[l [H1 ->]]|[H1 ->]]]].
        -- left. split; [exact N | now right].
        -- right. split; [reflexivity|]. left. exists l. split; [now right | reflexivity].
        -- right. split; [reflexivity|]. right. split; [|reflexivity].
           intros l [E1|H2]; [|exact (H1 _ H2)].
           inversion E1; subst. rewrite cmp_refl in E. discriminate.
Qed.

Lemma insert_group_sorted (k : K) (a : A) (gs : list (K * list A)) :
  StronglySorted (group_lt cmp) gs ->
  StronglySorted (group_lt cmp) (insert_group cmp k a gs).
Proof.
  induction gs as [|[k0 l0] gs IH]; intro S; simpl.
  - constructor; constructor.
  - pose proof S as S0. apply StronglySorted_inv in S as [S F].
    destruct (cmp k k0) eqn:E.
    + constructor; [exact S|]. exact F.
    + constructor; [exact S0|]. constructor; [exact E|].
      rewrite Forall_forall in *. intros g Hg. unfold group_lt in *. simpl.
      eapply cmp_lt_trans; [exact E | exact (F g Hg)].
    + constructor; [now apply IH|].
      rewrite Forall_forall in *. intros [k1 l1] Hg.
      destruct (insert_group_In k a gs k1 l1 S Hg) as [[_ H1]|[-> _]].
      * exact (F _ H1).
      * unfold group_lt. simpl. now apply cmp_gt_lt.
Qed.

Lemma filter_app_one (p : A -> bool) (l : list A) (a : A) :
  filter p (l ++ [a]) = filter p l ++ (if p a then [a] else []).
Proof. rewrite filter_app. reflexivity. Qed.

Lemma filter_none (p : A -> bool) (l : list A) :
  (forall x, In x l -> p x = false) -> filter p l = [].
Proof.
  induction l as [|x l IH]; intro H; simpl; [reflexivity|].
  rewrite (H x (or_introl eq_refl)). apply IH. intros; apply H; now right.
Qed.

Lemma groups_of_step (done : list A) (gs : list (K * list A)) (a : A) :
  groups_of keyf cmp done gs ->
  groups_of keyf cmp (done ++ [a])
    (match keyf a with Some k => insert_group cmp k a gs | None => gs end).
Proof.
  intros [S [G C]]. destruct (keyf a) as [ka|] eqn:Ka.
  - split; [now apply insert_group_sorted|]. split.
    + intros k l Hin. rewrite filter_app_one. unfold has_key at 2. rewrite Ka.
      destruct (insert_group_In ka a gs k l S Hin)
        as [[N H1]|[-> [[l0 [H1 ->]]|[H1 ->]]]].
      * destruct (G k l H1) as [El Nl].
        destruct (cmp ka k) eqn:E;
          [apply cmp_eq_iff in E; congruence| |];
          rewrite app_nil_r; now split.
      * destruct (G ka l0 H1) as [El Nl]. rewrite cmp_refl, <- El.
        split; [reflexivity|]. now destruct l0.
      * rewrite cmp_refl. split; [|discriminate].
        rewrite filter_none; [reflexivity|].
        intros x Hx. unfold has_key.
        destruct (keyf x) as [kx|] eqn:Kx; [|reflexivity].
        destruct (cmp kx ka) eqn:E; try reflexivity.
        apply cmp_eq_iff in E. subst kx.
        destruct (C x ka Hx Kx) as [l Hl]. destruct (H1 l Hl).
    + intros x k Hx Kx. apply in_app_or in Hx as [Hx|[<-|[]]].
      * destruct (C x k Hx Kx) as [l Hl].
        destruct (insert_group_keeps cmp ka a gs k l Hl) as [l' [Hl' _]].
        now exists l'.
      * assert (k = ka) by congruence. subst k.
        destruct (insert_group_adds cmp cmp_eq_iff ka a gs) as [l' [Hl' _]].
        now exists l'.
  - split; [exact S|]. split.
    + intros k l Hin. rewrite filter_app_one. unfold has_key at 2. rewrite Ka.
      rewrite app_nil_r. now apply G.
    + intros x k Hx Kx. apply in_app_or in Hx as [Hx|[<-|[]]];
        [now apply (C x k) | congruence].
Qed.

Lemma groupby_groups_of (rows : list A) :
  groups_of keyf cmp rows (groupby keyf cmp rows).
Proof.
  unfold groupby.
  assert (forall todo done gs,
             groups_of keyf cmp done gs ->
             groups_of keyf cmp (done ++ todo)
               (fold_left
                  (fun gs a =>
                     match keyf a with
                     | Some k => insert_group cmp k a gs
                     | None => gs
                     end)
                  todo gs)) as H.
  { induction todo as [|a todo IH]; intros done gs G; simpl.
    - now rewrite app_nil_r.
    - replace (done ++ a :: todo) with ((done ++ [a]) ++ todo)
        by (rewrite <- app_assoc; reflexivity).
      apply IH. now apply groups_of_step. }
  apply (H rows [] []). split; [constructor|]. split.
  - intros k l [].
  - intros a k [].
Qed.

End GroupBySpec.

(* ================================================================== *)
(** ** Sums over groups and sorted output                               *)
(* ================================================================== *)

Section FrameFacts.

Lemma Qsum_app (l1 l2 : list Q) : Qsum (l1 ++ l2) == Qsum l1 + Qsum l2.
Proof. induction l1 as [|x l1 IH]; simpl; lra. Qed.

Lemma Qsum_perm (l1 l2 : list Q) : Permutation l1 l2 -> Qsum l1 == Qsum l2.
Proof. induction 1; simpl; lra. Qed.

(** The sum of all group sums. *)
Lemma insert_group_total {A K : Type} (cmp : K -> K -> comparison)
    (f : A -> Q) (k : K) (a : A) (gs : list (K * list A)) :
  Qsum (map (fun g => Qsum (map f (snd g))) (insert_group cmp k a gs))
  == Qsum (map (fun g => Qsum (map f (snd g))) gs) + f a.
Proof.
  induction gs as [|[k0 l0] gs IH]; simpl; [lra|].
  destruct (cmp k k0); simpl.
  - rewrite map_app, Qsum_app. simpl. lra.
  - lra.
  - rewrite IH. lra.
Qed.

Lemma groupby_total {A K : Type} (keyf : A -> option K)
    (cmp : K -> K -> comparison) (f : A -> Q) (rows : list A) :
  Qsum (map (fun g => Qsum (map f (snd g))) (groupby keyf cmp rows))
  == Qsum (map f (filter (keyed keyf) rows)).
Proof.
  unfold groupby.
  assert (forall todo gs,
             Qsum (map (fun g => Qsum (map f (snd g)))
                       (fold_left
                          (fun gs a =>
                             match keyf a with
                             | Some k => insert_group cmp k a gs
                             | None => gs
                             end)
                          todo gs))
             == Qsum (map (fun g => Qsum (map f (snd g))) gs)
                + Qsum (map f (filter (keyed keyf) todo))) as H.
  { induction todo as [|a todo IH]; intro gs; simpl; [lra|].
    rewrite IH. unfold keyed at 2.
    destruct (keyf a); simpl; [rewrite insert_group_total|]; lra. }
  rewrite H. simpl. lra.
Qed.

Lemma insert_desc_perm {A : Type} (val : A -> Q) (x : A) (l : list A) :
  Permutation (insert_desc val x l) (x :: l).
Proof.
  induction l as [|y l IH]; simpl; [reflexivity|].
  destruct (Qltb (val x) (val y)); [|reflexivity].
  rewrite IH. apply perm_swap.
Qed.

Lemma sort_desc_perm {A : Type} (val : A -> Q) (l : list A) :
  Permutation (sort_desc val l) l.
Proof.
  induction l as [|x l IH]; simpl; [reflexivity|].
  rewrite insert_desc_perm. now constructor.
Qed.

Lemma insert_desc_sorted {A : Type} (val : A -> Q) (x : A) (l : list A) :
  StronglySorted (fun a b => val b <= val a) l ->
  StronglySorted (fun a b => val b <= val a) (insert_desc val x l).
Proof.
  induction l as [|y l IH]; intro S; simpl.
  - constructor; constructor.
  - pose proof S as S0. apply StronglySorted_inv in S as [S F].
    destruct (Qltb (val x) (val y)) eqn:E.
    + apply Qltb_lt in E. constructor; [now apply IH|].
      apply (Permutation_Forall (Permutation_sym (insert_desc_perm val x l))).
      constructor; [lra | exact F].
    + apply Qltb_ge in E. constructor; [exact S0|].
      constructor; [exact E|].
      rewrite Forall_forall in *. intros z Hz. specialize (F z Hz). lra.
Qed.

Lemma sort_desc_sorted {A : Type} (val : A -> Q) (l : list A) :
  StronglySorted (fun a b => val b <= val a) (sort_desc val l).
Proof.
  induction l as [|x l IH]; simpl; [constructor|].
  now apply insert_desc_sorted.
Qed.

Lemma groups_sorted_keys {A K : Type} (cmp : K -> K -> comparison)
    (gs : list (K * list A)) :
  StronglySorted (group_lt cmp) gs ->
  StronglySorted (fun a b => cmp a b = Lt) (map fst gs).
Proof.
  induction 1 as [|g gs S IH F]; simpl; constructor; [exact IH|].
  rewrite Forall_forall in *. intros k Hk.
  apply in_map_iff in Hk as [g' [<- Hg']]. exact (F g' Hg').
Qed.

Lemma sorted_keys_NoDup {K : Type} (cmp : K -> K -> comparison)
    `{CmpOrder K cmp} (ks : list K) :
  StronglySorted (fun a b => cmp a b = Lt) ks -> NoDup ks.
Proof.
  induction 1 as [|k ks S IH F]; constructor; [|exact IH].
  intro Hin. rewrite Forall_forall in F. specialize (F k Hin).
  rewrite (proj2 (cmp_eq_iff k k) eq_refl) in F. discriminate.
Qed.

Lemma string_has_key {A : Type} (col : A -> string) (v : string) (a : A) :
  has_key (fun x => Some (col x)) String.compare v a = String.eqb (col a) v.
Proof.
  unfold has_key.
  destruct (String.compare (col a) v) eqn:E;
    destruct (String.eqb (col a) v) eqn:E'; try reflexivity.
  - apply cmp_eq_iff in E. apply String.eqb_neq in E'. contradiction.
  - apply String.eqb_eq in E'. apply cmp_eq_iff in E'. congruence.
  - apply String.eqb_eq in E'. apply cmp_eq_iff in E'. congruence.
Qed.

End FrameFacts.

(* ================================================================== *)
(** ** Monthly cost by owner and by environment                         *)
(* ================================================================== *)

Lemma monthly_cost_by_rows :
  forall (col : Enriched -> string) (month : string) (df : list Enriched),
    StronglySorted (fun x y => snd y <= snd x) (monthly_cost_by col month df)
    /\ NoDup (map fst (monthly_cost_by col month df))
    /\ (forall v c,
           In (v, c) (monthly_cost_by col month df)
           <-> (exists e, In e df /\ in_month month e = true /\ col e = v)
               /\ c = Qsum (map (fun e => cost (bill e))
                                (filter (fun e => in_month month e
                                                  && String.eqb (col e) v) df)))
    /\ Qsum (map snd (monthly_cost_by col month df))
       == Qsum (map (fun e => cost (bill e)) (filter (in_month month) df)).
Proof.
  intros col month df. unfold monthly_cost_by.
  set (dfm := filter (in_month month) df).
  set (keyf := fun e : Enriched => Some (col e)).
  set (gs := groupby keyf String.compare dfm).
  set (row := fun g : string * list Enriched =>
                (fst g, Qsum (map (fun e => cost (bill e)) (snd g)))).
  destruct (groupby_groups_of keyf String.compare dfm) as [S [G C]].
  fold gs in S, G, C.
  assert (forall v l, In (v, l) gs ->
            l = filter (fun e => in_month month e && String.eqb (col e) v) df)
    as Hgroup.
  { intros v l Hin. destruct (G v l Hin) as [-> _].
    unfold dfm. rewrite filter_filter. apply filter_ext. intro e.
    unfold keyf. now rewrite string_has_key. }
  split; [apply sort_desc_sorted|]. split; [|split].
  - apply (Permutation_NoDup
             (Permutation_map fst (Permutation_sym (sort_desc_perm snd (map row gs))))).
    rewrite map_map. simpl.
    apply (sorted_keys_NoDup String.compare), groups_sorted_keys, S.
  - intros v c. rewrite sort_desc_In, in_map_iff. split.
    + intros [[v' l] [E Hin]]. unfold row in E. simpl in E. inversion E; subst.
      destruct (G v l Hin) as [El Nl]. split; [|now rewrite <- (Hgroup v l Hin)].
      destruct l as [|e l]; [congruence|].
      assert (In e (filter (has_key keyf String.compare v) dfm)) as He
        by (rewrite <- El; now left).
      apply filter_In in He as [He Hk]. unfold dfm in He.
      apply filter_In in He as [He Hm]. unfold keyf in Hk.
      rewrite string_has_key in Hk. apply String.eqb_eq in Hk.
      now exists e.
    + intros [[e [He [Hm Hv]]] ->].
      assert (In e dfm) as Hd by (apply filter_In; now split).
      destruct (C e v Hd) as [l Hl]; [unfold keyf; now rewrite Hv|].
      exists (v, l). split; [|exact Hl].
      unfold row. simpl. now rewrite (Hgroup v l Hl).
  - rewrite (Qsum_perm _ _ (Permutation_map snd (sort_desc_perm snd (map row gs)))).
    rewrite map_map. unfold row. simpl.
    unfold gs. rewrite groupby_total.
    assert (filter (keyed keyf) dfm = dfm) as ->; [|reflexivity].
    apply forallb_filter_id. apply forallb_forall. intros. reflexivity.
Qed.

(** For [col] the owner or the environment column, the rows that
    [monthly_cost_by_owner] and [monthly_cost_by_env] compute from the
    enriched frame are in descending order of cost; no value of the
    column has two rows; a value has a row exactly when some row of the
    month carries it, and its cost is the sum of the costs of those rows;
    the costs of all rows add up to the total cost of the month. *)
Theorem monthly_cost_by_spec :
  forall (col : Enriched -> string) (month : string) (df : list Enriched),
    StronglySorted (fun x y => snd y <= snd x) (monthly_cost_by col month df)
    /\ NoDup (map fst (monthly_cost_by col month df))
    /\ (forall v c,
           In (v, c) (monthly_cost_by col month df)
           <-> (exists e, In e df /\ in_month month e = true /\ col e = v)
               /\ c = Qsum (map (fun e => cost (bill e))
                                (filter (fun e => in_month month e
                                                  && String.eqb (col e) v) df)))
    /\ Qsum (map snd (monthly_cost_by col month df))
       == Qsum (map (fun e => cost (bill e)) (filter (in_month month) df)).
Proof. exact monthly_cost_by_rows. Qed.

(** [owner_coverage] and [monthly_cost_by_owner] agree: on tables that
    enrich, the costs of the owner rows add up to [total_cost], and the
    row of ["unassigned"], when there is one, carries
    [total_cost - assigned_cost]; without such a row the whole total is
    assigned. *)
Theorem monthly_cost_by_owner_matches_coverage :
  forall (month : string) (billing : list RawBilling)
         (resources : list RawResource) (df : list Enriched),
    enrich_billing billing resources = Ok df ->
    exists rows cov,
      monthly_cost_by_owner month billing resources = Ok rows
      /\ owner_coverage month billing resources = Ok cov
      /\ Qsum (map snd rows) == total_cost cov
      /\ (forall c, In ("unassigned", c) rows ->
                    c == total_cost cov - assigned_cost cov)
      /\ ((forall c, ~ In ("unassigned", c) rows) ->
          assigned_cost cov == total_cost cov).
Proof.
  intros month billing resources df E.
  unfold monthly_cost_by_owner, owner_coverage. rewrite E. simpl.
  eexists. eexists. split; [reflexivity|]. split; [reflexivity|].
  destruct (monthly_cost_by_rows owner month df) as [_ [_ [Hin Hsum]]].
  unfold owner_coverage_of. simpl.
  assert (forall l : list Enriched,
             Qsum (map (fun e => cost (bill e)) l)
             == Qsum (map (fun e => cost (bill e)) (filter assigned l))
                + Qsum (map (fun e => cost (bill e))
                            (filter (fun e => String.eqb (owner e) "unassigned") l)))
    as Hsplit.
  { induction l as [|e l IH]; simpl; [lra|]. unfold assigned at 1.
    destruct (String.eqb (owner e) "unassigned"); simpl; lra. }
  split; [exact Hsum|]. split.
  - intros c Hc. apply Hin in Hc as [_ ->].
    rewrite <- filter_filter.
    rewrite (Hsplit (filter (in_month month) df)). lra.
  - intro Hno. rewrite (Hsplit (filter (in_month month) df)).
    assert (filter (fun e => String.eqb (owner e) "unassigned")
                   (filter (in_month month) df) = []) as ->; [|simpl; lra].
    apply filter_none. intros e He. apply filter_In in He as [He Hm].
    destruct (String.eqb (owner e) "unassigned") eqn:Eo; [|reflexivity].
    apply String.eqb_eq in Eo. exfalso.
    eapply Hno, Hin. split; [now exists e | reflexivity].
Qed.

(** On the fixture of the tests: 2500 of the 4250 are unassigned. *)
Lemma monthly_cost_by_owner_matches_coverage_witness :
  exists rows cov,
    monthly_cost_by_owner "2025-08" sample_billing_data sample_resources_data
    = Ok rows
    /\ owner_coverage "2025-08" sample_billing_data sample_resources_data
       = Ok cov
    /\ Qsum (map snd rows) == total_cost cov
    /\ In ("unassigned", 2000 + (500 + 0)) rows.
Proof.
  destruct (monthly_cost_by_owner_matches_coverage "2025-08"
              sample_billing_data sample_resources_data _ eq_refl)
    as [rows [cov [Hr [Hc [Hs _]]]]].
  exists rows, cov. split; [exact Hr|]. split; [exact Hc|]. split; [exact Hs|].
  vm_compute in Hr. injection Hr as <-. left. reflexivity.
Defined.

(* ================================================================== *)
(** ** The enriched frame                                               *)
(* ================================================================== *)

Section EnrichedFacts.

Lemma NoDup_map_eq {A B : Type} (f : A -> B) (l : list A) (x y : A) :
  NoDup (map f l) -> In x l -> In y l -> f x = f y -> x = y.
Proof.
  induction l as [|a l IH]; simpl; intros N Hx Hy E; [contradiction|].
  inversion N as [|? ? Hn N']; subst.
  destruct Hx as [<-|Hx], Hy as [<-|Hy].
  - reflexivity.
  - exfalso. apply Hn. rewrite E. now apply in_map.
  - exfalso. apply Hn. rewrite <- E. now apply in_map.
  - now apply IH.
Qed.

Lemma find_key_none (k : key) (rs : list Resource) :
  find (fun r => key_eqb k (res_id r)) rs = None <->
  forall r, In r rs -> res_id r <> k.
Proof.
  split.
  - intros H r Hr E. apply (find_none _ _ H) in Hr.
    rewrite <- E, key_eqb_refl in Hr. discriminate.
  - intro H. destruct (find _ rs) as [r|] eqn:F; [|reflexivity].
    apply find_some in F as [Hr E]. apply key_eqb_eq in E.
    exfalso. now apply (H r Hr).
Qed.

(** In the enriched frame [owner] and [env] depend on the row's
    [resource_id] alone. *)
Lemma join_row_by_key (rs : list Resource) (b1 b2 : Billing) :
  resource_id b1 = resource_id b2 ->
  owner (join_row rs b1) = owner (join_row rs b2)
  /\ env (join_row rs b1) = env (join_row rs b2).
Proof.
  intro E. unfold join_row. rewrite E.
  destruct (find _ rs); simpl; now split.
Qed.

Lemma enrich_billing_by_key (billing : list RawBilling)
    (resources : list RawResource) (df : list Enriched) (e1 e2 : Enriched) :
  enrich_billing billing resources = Ok df ->
  In e1 df -> In e2 df ->
  resource_id (bill e1) = resource_id (bill e2) ->
  owner e1 = owner e2 /\ env e1 = env e2.
Proof.
  unfold enrich_billing.
  destruct (is_unique (resource_keys resources)); [|discriminate].
  intro E. injection E as <-. intros H1 H2.
  apply in_map_iff in H1 as [b1 [<- _]]. apply in_map_iff in H2 as [b2 [<- _]].
  rewrite !join_row_bill. apply join_row_by_key.
Qed.

Lemma lstrip_id (s : string) :
  Str.not_space (Str.first_char s) -> Str.lstrip s = s.
Proof. destruct s as [|c r]; simpl; [reflexivity|]. now intros ->. Qed.

Lemma rstrip_id (s : string) :
  Str.not_space (Str.last_char s) -> Str.rstrip s = s.
Proof.
  induction s as [|c r IH]; simpl; [reflexivity|].
  destruct r as [|c' r'].
  - simpl. now intros ->.
  - intro H. rewrite (IH H). reflexivity.
Qed.

End EnrichedFacts.

(** The join attaches to every billing row the metadata of the resource
    row with the same normalised id: on tables that enrich, the i-th
    enriched row carries the i-th coerced billing row, the owner,
    environment and tags of any resource row with that key (nulls in
    owner and env replaced by ["unassigned"]), and ["unassigned"],
    ["unassigned"] and no tags when no resource row has the key. *)
Theorem enrich_billing_attaches_metadata :
  forall (billing : list RawBilling) (resources : list RawResource)
         (df : list Enriched),
    enrich_billing billing resources = Ok df ->
    Forall2
      (fun b e =>
         bill e = coerce_billing b
         /\ (forall r, In r resources ->
                       normalize_resource_id (raw_res_id r) = resource_id (bill e) ->
                       owner e = fillna_unassigned (raw_owner r)
                       /\ env e = fillna_unassigned (raw_env r)
                       /\ tags_json e = raw_tags_json r)
         /\ ((forall r, In r resources ->
                        normalize_resource_id (raw_res_id r) <> resource_id (bill e)) ->
             owner e = "unassigned" /\ env e = "unassigned"
             /\ tags_json e = None))
      billing df.
Proof.
  intros billing resources df. unfold enrich_billing.
  destruct (is_unique (resource_keys resources)) eqn:U; [|discriminate].
  apply is_unique_NoDup in U. intro E. injection E as <-.
  induction billing as [|b billing IH]; simpl; constructor; [|exact IH].
  rewrite join_row_bill. split; [reflexivity|].
  set (rs := map normalize_resource resources) in *.
  unfold join_row.
  destruct (find (fun r => key_eqb (resource_id (coerce_billing b)) (res_id r)) rs)
    as [r0|] eqn:F; simpl.
  - apply find_some in F as [Hr0 E0]. apply key_eqb_eq in E0. split.
    + intros r Hr Er.
      assert (normalize_resource r = r0) as <-.
      { apply (NoDup_map_eq res_id rs); [exact U | | exact Hr0 |].
        - unfold rs. now apply in_map.
        - simpl. simpl in Er, E0. congruence. }
      simpl. repeat split.
    + intro Hno. exfalso. unfold rs in Hr0.
      apply in_map_iff in Hr0 as [r [<- Hr]]. apply (Hno r Hr).
      simpl in E0. congruence.
  - split; [|intros _; repeat split].
    intros r Hr Er. exfalso.
    apply (proj1 (find_key_none _ _) F (normalize_resource r)).
    + unfold rs. now apply in_map.
    + exact Er.
Qed.

(** On the fixture of the tests the four rows get the owners of the
    resource table. *)
Lemma enrich_billing_attaches_metadata_witness :
  exists df,
    enrich_billing sample_billing_data sample_resources_data = Ok df
    /\ map owner df = ["team1"; "unassigned"; "team2"; "unassigned"]
    /\ List.length df = 4%nat.
Proof.
  pose proof (enrich_billing_attaches_metadata sample_billing_data
                sample_resources_data _ eq_refl) as H.
  eexists. split; [reflexivity|]. split; [reflexivity|].
  apply Forall2_length in H. symmetry. exact H.
Defined.

(** An empty resources table is valid input: enrichment succeeds, every
    row is ["unassigned"] for owner and environment, and every month has
    [assigned_cost] 0 and [coverage_pct] 0. *)
Theorem empty_resources_all_unassigned :
  forall (billing : list RawBilling) (month : string),
    exists df cov,
      enrich_billing billing [] = Ok df
      /\ map bill df = map coerce_billing billing
      /\ (forall e, In e df -> owner e = "unassigned" /\ env e = "unassigned")
      /\ owner_coverage month billing [] = Ok cov
      /\ assigned_cost cov = 0
      /\ coverage_pct cov == 0.
Proof.
  intros billing month. unfold owner_coverage, enrich_billing. simpl.
  eexists. eexists. split; [reflexivity|].
  split; [rewrite !map_map; apply map_ext; intro; reflexivity|].
  assert (forall e, In e (map (join_row []) (map coerce_billing billing)) ->
                    owner e = "unassigned" /\ env e = "unassigned") as Hall.
  { intros e He. apply in_map_iff in He as [b [<- _]]. now split. }
  split; [exact Hall|]. split; [reflexivity|].
  unfold owner_coverage_of. simpl.
  assert (filter assigned
            (filter (in_month month)
                    (map (join_row []) (map coerce_billing billing))) = []) as ->.
  { apply filter_none. intros e He. apply filter_In in He as [He _].
    unfold assigned. now rewrite (proj1 (Hall e He)). }
  split; [reflexivity|]. simpl.
  destruct (Qltb 0 _).
  - rewrite (round_dec_Qeq 4 _ 0); [exact (round_dec_inject_Z 4 0)|].
    unfold Qdiv. lra.
  - exact (round_dec_inject_Z 4 0).
Qed.

(** Normalisation is idempotent: a key that [normalize_resource_ids]
    produced is left unchanged when it is normalised again. *)
Theorem normalize_resource_id_idempotent :
  forall (c : cell) (s : string),
    normalize_resource_id c = Some s ->
    normalize_resource_id (CStr s) = Some s.
Proof.
  intros c s H. unfold normalize_resource_id in *.
  destruct (String.eqb (Str.strip (astype_str c)) "nan") eqn:E; [discriminate|].
  injection H as <-. simpl astype_str.
  assert (Str.strip (Str.strip (astype_str c)) = Str.strip (astype_str c)) as ->.
  { destruct (strip_trimmed (astype_str c)) as [F L].
    unfold Str.strip at 1. now rewrite (lstrip_id _ F), (rstrip_id _ L). }
  now rewrite E.
Qed.

Lemma normalize_resource_id_idempotent_witness :
  normalize_resource_id (CStr "res-1") = Some "res-1".
Proof.
  apply (normalize_resource_id_idempotent (CStr "  res-1 ") "res-1").
  reflexivity.
Defined.

(* ================================================================== *)
(** ** The latest month                                                 *)
(* ================================================================== *)

Section LatestFacts.

Lemma cmp_le_trans {K : Type} (cmp : K -> K -> comparison) `{CmpOrder K cmp}
    (a b c : K) :
  cmp a b <> Gt -> cmp b c <> Gt -> cmp a c <> Gt.
Proof.
  intros H1 H2.
  destruct (cmp a b) eqn:E1; [| |congruence];
    destruct (cmp b c) eqn:E2; try congruence.
  - apply cmp_eq_iff in E1, E2. subst.
    rewrite (proj2 (cmp_eq_iff c c) eq_refl). discriminate.
  - apply cmp_eq_iff in E1. subst. rewrite E2. discriminate.
  - apply cmp_eq_iff in E2. subst. rewrite E1. discriminate.
  - rewrite (cmp_lt_trans _ _ _ E1 E2). discriminate.
Qed.

Lemma max_string_none (l : list string) : max_string l = None <-> l = [].
Proof.
  destruct l as [|x l]; simpl; [tauto|].
  destruct (max_string l); split; discriminate.
Qed.

Lemma max_string_In (l : list string) (m : string) :
  max_string l = Some m -> In m l.
Proof.
  revert m. induction l as [|x l IH]; simpl; intros m H; [discriminate|].
  destruct (max_string l) as [m'|]; [|injection H as <-; now left].
  injection H as <-. destruct (String.ltb x m'); [right; now apply IH | now left].
Qed.

Lemma max_string_upper (l : list string) (m : string) :
  max_string l = Some m -> forall x, In x l -> String.compare x m <> Gt.
Proof.
  revert m. induction l as [|y l IH]; simpl; intros m H x Hx; [contradiction|].
  destruct (max_string l) as [m'|] eqn:M.
  - injection H as <-. unfold String.ltb.
    destruct (String.compare y m') eqn:E.
    + apply cmp_eq_iff in E. subst m'.
      destruct Hx as [<-|Hx];
        [rewrite (proj2 (cmp_eq_iff y y) eq_refl); discriminate | now apply IH].
    + destruct Hx as [<-|Hx]; [rewrite E; discriminate | now apply IH].
    + destruct Hx as [<-|Hx];
        [rewrite (proj2 (cmp_eq_iff y y) eq_refl); discriminate|].
      apply (cmp_le_trans String.compare x m' y); [now apply IH|].
      rewrite cmp_antisym, E. discriminate.
  - injection H as <-. apply max_string_none in M. subst l.
    destruct Hx as [<-|[]].
    rewrite (proj2 (cmp_eq_iff y y) eq_refl). discriminate.
Qed.

End LatestFacts.

(** The detectors' scope [df[df["invoice_month"] == df["invoice_month"].max()]]
    is empty only for an empty frame; it holds exactly the rows of one
    month, and no row of the frame has a later month. *)
Theorem latest_month_rows_spec :
  forall df : list Enriched,
    (latest_month_rows df = [] <-> df = [])
    /\ (forall e, In e (latest_month_rows df) ->
                  In e df
                  /\ (forall e', In e' df ->
                                 String.compare (invoice_month (bill e'))
                                                (invoice_month (bill e)) <> Gt)
                  /\ (forall e', In e' df ->
                                 invoice_month (bill e') = invoice_month (bill e) ->
                                 In e' (latest_month_rows df))).
Proof.
  intro df. unfold latest_month_rows.
  destruct (max_string (map (fun e => invoice_month (bill e)) df)) as [m|] eqn:M.
  - pose proof (max_string_In _ _ M) as Hm.
    pose proof (max_string_upper _ _ M) as Hu.
    apply in_map_iff in Hm as [e0 [E0 He0]]. split.
    + split; [|intros ->; discriminate M].
      intro F. exfalso.
      assert (In e0 (filter (in_month m) df)) as H
        by (apply filter_In; split; [exact He0 | now apply String.eqb_eq]).
      rewrite F in H. contradiction.
    + intros e He. apply filter_In in He as [He Em].
      apply String.eqb_eq in Em. split; [exact He|]. split.
      * intros e' He'. rewrite Em. apply Hu.
        apply in_map_iff. now exists e'.
      * intros e' He' E. apply filter_In. split; [exact He'|].
        apply String.eqb_eq. congruence.
  - apply max_string_none in M. apply map_eq_nil in M. subst df.
    split; [tauto | intros e []].
Qed.

(* ================================================================== *)
(** ** Tagging gaps                                                     *)
(* ================================================================== *)

Section TaggingFacts.

Lemma compare_is_eqb (a b : string) :
  match String.compare a b with Eq => true | _ => false end = String.eqb a b.
Proof.
  destruct (String.compare a b) eqn:E; destruct (String.eqb a b) eqn:E';
    try reflexivity.
  - apply cmp_eq_iff in E. apply String.eqb_neq in E'. contradiction.
  - apply String.eqb_eq in E'. apply cmp_eq_iff in E'. congruence.
  - apply String.eqb_eq in E'. apply cmp_eq_iff in E'. congruence.
Qed.

Lemma rid_has_key (rid : string) (e : Enriched) :
  has_key (fun x => resource_id (bill x)) String.compare rid e
  = key_eqb (resource_id (bill e)) (Some rid).
Proof.
  unfold has_key. destruct (resource_id (bill e)) as [k|]; simpl;
    [apply compare_is_eqb | reflexivity].
Qed.

Lemma latest_month_rows_incl (df : list Enriched) (e : Enriched) :
  In e (latest_month_rows df) -> In e df.
Proof.
  unfold latest_month_rows. destruct (max_string _); [|contradiction].
  intro H. now apply filter_In in H.
Qed.

Lemma tag_status_cases (col : Enriched -> string) (rows : list Enriched) :
  (tag_status col rows = "missing"
   /\ forall e, In e rows -> col e = "unassigned")
  \/ (tag_status col rows = "partial"
      /\ exists e, In e rows /\ col e <> "unassigned").
Proof.
  unfold tag_status.
  destruct (forallb (fun e => String.eqb (col e) "unassigned") rows) eqn:F.
  - left. split; [reflexivity|]. intros e He.
    rewrite forallb_forall in F. now apply String.eqb_eq, F.
  - right. split; [reflexivity|].
    assert (exists e, In e rows /\ String.eqb (col e) "unassigned" = false)
      as [e [He Ee]].
    { clear -F. induction rows as [|x rows IH]; simpl in F; [discriminate|].
      apply andb_false_iff in F as [F|F].
      - exists x. split; [now left | exact F].
      - destruct (IH F) as [e [He Ee]]. exists e. split; [now right | exact Ee]. }
    exists e. split; [exact He | now apply String.eqb_neq].
Qed.

(** The entries of the tagging recommendation and the groups they come
    from. *)
Lemma find_tagging_gaps_of_entry (df : list Enriched) (r : Recommendation)
    (t : TagEntry) :
  In r (find_tagging_gaps_of df) -> In (TagDetail t) (resources r) ->
  exists l,
    l = filter (fun e => key_eqb (resource_id (bill e)) (Some (tag_resource_id t)))
               (filter untagged (latest_month_rows df))
    /\ l <> []
    /\ t = tag_entry (tag_resource_id t,
                      Qsum (map (fun e => cost (bill e)) l),
                      tag_status owner l, tag_status env l).
Proof.
  unfold find_tagging_gaps_of.
  destruct (filter untagged (latest_month_rows df)) as [|u0 rest] eqn:Eu;
    [contradiction|].
  rewrite <- Eu. clear Eu u0 rest.
  intros [<-|[]] Ht. cbn [resources] in Ht.
  apply in_map_iff in Ht as [row [Erow Hrow]]. inversion Erow; subst t.
  unfold untagged_summary in Hrow. apply in_map_iff in Hrow as [[rid l] [<- Hg]].
  destruct (groupby_groups_of (fun e => resource_id (bill e)) String.compare
              (filter untagged (latest_month_rows df))) as [_ [G _]].
  destruct (G rid l Hg) as [El Nl]. simpl.
  exists l. split; [|split; [exact Nl | reflexivity]].
  rewrite El at 1. apply filter_ext. intro e. apply rid_has_key.
Qed.

End TaggingFacts.

(** On tables that enrich, an entry of the tagging recommendation stands
    for all rows of its resource in the latest month: every such row is
    untagged, [monthly_unattributed_cost] is their summed cost rounded to
    2 decimals and [potential_savings] 20% of that sum, rounded.  A tag
    is ["missing"] when the resource has no value for it and ["partial"]
    when every one of those rows has one, so at least one of the two tags
    of an entry is ["missing"]. *)
Theorem tagging_gap_entry_spec :
  forall (billing : list RawBilling) (resources0 : list RawResource)
         (df : list Enriched) (r : Recommendation) (t : TagEntry),
    enrich_billing billing resources0 = Ok df ->
    In r (find_tagging_gaps_of df) ->
    In (TagDetail t) (resources r) ->
    let rows :=
      filter (fun e => key_eqb (resource_id (bill e)) (Some (tag_resource_id t)))
             (latest_month_rows df) in
    rows <> []
    /\ (forall e, In e rows -> untagged e = true)
    /\ monthly_unattributed_cost t
       = round_dec 2 (Qsum (map (fun e => cost (bill e)) rows))
    /\ tag_potential_savings t
       = round_dec 2 (Qsum (map (fun e => cost (bill e)) rows) * (1 # 5))
    /\ ((owner_tag t = "missing"
         /\ forall e, In e rows -> owner e = "unassigned")
        \/ (owner_tag t = "partial"
            /\ forall e, In e rows -> owner e <> "unassigned"))
    /\ ((environment_tag t = "missing"
         /\ forall e, In e rows -> env e = "unassigned")
        \/ (environment_tag t = "partial"
            /\ forall e, In e rows -> env e <> "unassigned"))
    /\ (owner_tag t = "missing" \/ environment_tag t = "missing").
Proof.
  intros billing resources0 df r t E Hr Ht rows.
  destruct (find_tagging_gaps_of_entry df r t Hr Ht) as [l [El [Nl Et]]].
  set (rid := tag_resource_id t) in *.
  assert (forall e, In e l -> In e rows /\ untagged e = true) as Hl.
  { intros e He. rewrite El in He. apply filter_In in He as [He Hk].
    apply filter_In in He as [He Hu]. split; [|exact Hu].
    apply filter_In. now split. }
  destruct l as [|e0 l0] eqn:Dl; [congruence|]. rewrite <- Dl in *.
  assert (In e0 l) as He0 by (rewrite Dl; now left).
  destruct (Hl e0 He0) as [He0r Hu0].
  assert (forall e, In e rows -> owner e = owner e0 /\ env e = env e0) as Hsame.
  { intros e He. apply filter_In in He as [He Hk].
    apply filter_In in He0r as [He0r Hk0].
    apply key_eqb_eq in Hk, Hk0.
    apply (enrich_billing_by_key billing resources0 df);
      [exact E | now apply latest_month_rows_incl
       | now apply latest_month_rows_incl | congruence]. }
  assert (forall e, In e rows -> untagged e = true) as Hunt.
  { intros e He. destruct (Hsame e He) as [Eo Ee].
    unfold untagged in *. now rewrite Eo, Ee. }
  assert (l = rows) as Elr.
  { rewrite El. unfold rows. rewrite filter_filter.
    apply filter_ext_in. intros e He.
    destruct (key_eqb (resource_id (bill e)) (Some rid)) eqn:Hk;
      [|now rewrite andb_false_r].
    rewrite andb_true_r. apply Hunt. apply filter_In. now split. }
  rewrite Elr in *. clear Elr.
  split; [exact Nl|]. split; [exact Hunt|].
  rewrite Et. simpl. split; [reflexivity|]. split; [reflexivity|].
  assert ((tag_status owner rows = "missing"
           /\ forall e, In e rows -> owner e = "unassigned")
          \/ (tag_status owner rows = "partial"
              /\ forall e, In e rows -> owner e <> "unassigned")) as Ho.
  { destruct (tag_status_cases owner rows) as [H|[H [e [He Ne]]]];
      [now left | right]. split; [exact H|].
    intros e' He'. rewrite (proj1 (Hsame e' He')), <- (proj1 (Hsame e He)).
    exact Ne. }
  assert ((tag_status env rows = "missing"
           /\ forall e, In e rows -> env e = "unassigned")
          \/ (tag_status env rows = "partial"
              /\ forall e, In e rows -> env e <> "unassigned")) as Hen.
  { destruct (tag_status_cases env rows) as [H|[H [e [He Ne]]]];
      [now left | right]. split; [exact H|].
    intros e' He'. rewrite (proj2 (Hsame e' He')), <- (proj2 (Hsame e He)).
    exact Ne. }
  split; [exact Ho|]. split; [exact Hen|].
  destruct Ho as [[Ho _]|[_ Ho]]; [now left|].
  destruct Hen as [[Hen _]|[_ Hen]]; [now right|]. exfalso.
  specialize (Ho e0 He0r). specialize (Hen e0 He0r).
  unfold untagged in Hu0. apply orb_true_iff in Hu0 as [H|H];
    apply String.eqb_eq in H; contradiction.
Qed.

(** On the fixture of the tests the entry of [res3] has an owner and no
    environment. *)
Lemma tagging_gap_entry_spec_witness :
  exists t,
    tag_resource_id t = "res3"
    /\ owner_tag t = "partial" /\ environment_tag t = "missing"
    /\ (owner_tag t = "missing" \/ environment_tag t = "missing").
Proof.
  set (df := map (join_row (map normalize_resource sample_resources_data))
                 (map coerce_billing sample_billing_data)).
  assert (exists r t,
             find_tagging_gaps_of df = [r]
             /\ In (TagDetail t) (resources r)
             /\ tag_resource_id t = "res3"
             /\ owner_tag t = "partial" /\ environment_tag t = "missing")
    as [r [t [Hr [Ht [Hid [Ho He]]]]]].
  { eexists. eexists. split; [reflexivity|].
    split; [right; left; reflexivity|]. repeat split. }
  exists t. split; [exact Hid|]. split; [exact Ho|]. split; [exact He|].
  apply (tagging_gap_entry_spec sample_billing_data sample_resources_data
           df r t eq_refl ltac:(rewrite Hr; now left) Ht).
Defined.

(* ================================================================== *)
(** ** Entries and totals of the idle and tagging recommendations       *)
(* ================================================================== *)

Section EntryFacts.

Lemma has_key_true {A K : Type} (keyf : A -> option K)
    (cmp : K -> K -> comparison) `{CmpOrder K cmp} (k : K) (a : A) :
  has_key keyf cmp k a = true <-> keyf a = Some k.
Proof.
  unfold has_key. destruct (keyf a) as [k'|]; [|split; discriminate].
  destruct (cmp k' k) eqn:E; split; intro H0; try discriminate;
    try reflexivity.
  - apply cmp_eq_iff in E. now subst.
  - injection H0 as ->. rewrite (proj2 (cmp_eq_iff k k) eq_refl) in E.
    discriminate.
  - injection H0 as ->. rewrite (proj2 (cmp_eq_iff k k) eq_refl) in E.
    discriminate.
Qed.

Lemma NoDup_map_in_inj {A B : Type} (f : A -> B) (l : list A) :
  (forall x y, In x l -> In y l -> f x = f y -> x = y) ->
  NoDup l -> NoDup (map f l).
Proof.
  induction l as [|a l IH]; intros Inj N; simpl; [constructor|].
  inversion N as [|? ? Hn N']; subst. constructor.
  - intro Hin. apply in_map_iff in Hin as [x [Ex Hx]].
    assert (x = a) by (apply Inj; [now right | now left | exact Ex]).
    subst. contradiction.
  - apply IH; [|exact N']. intros x y Hx Hy. apply Inj; now right.
Qed.

Lemma idle_rows_incl (u c : Q) (df : list Enriched) (x : Enriched * fnum) :
  In x (idle_rows u c df) -> In (fst x) df.
Proof.
  unfold idle_rows, with_utilization. intro H. apply filter_In in H as [H _].
  apply in_map_iff in H as [e [<- He]]. simpl.
  now apply latest_month_rows_incl.
Qed.

(** An entry of the idle recommendation and the group it comes from. *)
Lemma find_idle_resources_of_entry (u c : Q) (df : list Enriched)
    (r : Recommendation) (e : IdleEntry) :
  In r (find_idle_resources_of u c df) -> In (IdleDetail e) (resources r) ->
  exists l,
    l = filter (fun x => match idle_key x with
                         | Some k => match cmp_idle_key k
                                             (idle_resource_id e, idle_owner e,
                                              idle_environment e) with
                                     | Eq => true
                                     | _ => false
                                     end
                         | None => false
                         end)
               (idle_rows u c df)
    /\ l <> []
    /\ (forall x, In x l ->
                  In x (idle_rows u c df)
                  /\ idle_key x = Some (idle_resource_id e, idle_owner e,
                                        idle_environment e))
    /\ e = idle_entry (idle_resource_id e, idle_owner e, idle_environment e,
                       Qsum (map (fun x => cost (bill (fst x))) l),
                       fmean (map snd l)).
Proof.
  unfold find_idle_resources_of.
  destruct (idle_rows u c df) as [|i0 rest] eqn:Ei; [contradiction|].
  rewrite <- Ei. clear Ei i0 rest.
  intros [<-|[]] He. cbn [resources] in He.
  apply in_map_iff in He as [row [Erow Hrow]]. inversion Erow; subst e.
  unfold idle_summary in Hrow.
  apply in_map_iff in Hrow as [[[[rid o] en] l] [<- Hg]].
  destruct (groupby_groups_of idle_key cmp_idle_key (idle_rows u c df))
    as [_ [G _]].
  destruct (G _ l Hg) as [El Nl]. simpl.
  exists l. split; [exact El|]. split; [exact Nl|]. split; [|reflexivity].
  intros x Hx. rewrite El in Hx. apply filter_In in Hx as [Hx Hk].
  split; [exact Hx|]. now apply (has_key_true idle_key cmp_idle_key).
Qed.

End EntryFacts.

(** On tables that enrich, an entry of the idle recommendation stands for
    all flagged rows of its resource: there is at least one, they carry
    the entry's owner and environment, [current_monthly_cost] is their
    summed cost rounded to 2 decimals, [potential_savings] 70% of that
    sum, rounded, and [utilization] the mean of their utilisation in
    percent, rounded to 1 decimal. *)
Theorem idle_entry_spec :
  forall (usage_threshold cost_threshold : Q) (billing : list RawBilling)
         (resources0 : list RawResource) (df : list Enriched)
         (r : Recommendation) (e : IdleEntry),
    enrich_billing billing resources0 = Ok df ->
    In r (find_idle_resources_of usage_threshold cost_threshold df) ->
    In (IdleDetail e) (resources r) ->
    let rows :=
      filter (fun x => key_eqb (resource_id (bill (fst x)))
                               (Some (idle_resource_id e)))
             (idle_rows usage_threshold cost_threshold df) in
    rows <> []
    /\ (forall x, In x rows ->
                  owner (fst x) = idle_owner e
                  /\ env (fst x) = idle_environment e)
    /\ idle_current_monthly_cost e
       = round_dec 2 (Qsum (map (fun x => cost (bill (fst x))) rows))
    /\ idle_potential_savings e
       = round_dec 2 (Qsum (map (fun x => cost (bill (fst x))) rows) * (7 # 10))
    /\ idle_utilization e = fround 1 (fscale (fmean (map snd rows)) 100).
Proof.
  intros u c billing resources0 df r e E Hr He rows.
  destruct (find_idle_resources_of_entry u c df r e Hr He)
    as [l [El [Nl [Hl Ee]]]].
  destruct l as [|x0 l0] eqn:Dl; [congruence|]. rewrite <- Dl in *.
  assert (In x0 l) as Hx0 by (rewrite Dl; now left).
  destruct (Hl x0 Hx0) as [Hx0i Hk0].
  unfold idle_key in Hk0.
  destruct (resource_id (bill (fst x0))) as [rid0|] eqn:R0; [|discriminate].
  injection Hk0 as Hrid Ho Hen.
  assert (forall x, In x rows ->
                    owner (fst x) = idle_owner e
                    /\ env (fst x) = idle_environment e) as Hsame.
  { intros x Hx. apply filter_In in Hx as [Hx Hk]. apply key_eqb_eq in Hk.
    rewrite <- Ho, <- Hen.
    apply (enrich_billing_by_key billing resources0 df);
      [exact E | now apply (idle_rows_incl u c)
       | now apply (idle_rows_incl u c) | congruence]. }
  assert (l = rows) as Elr.
  { rewrite El. unfold rows. apply filter_ext_in. intros x Hx.
    apply eq_true_iff_eq.
    change (has_key idle_key cmp_idle_key
              (idle_resource_id e, idle_owner e, idle_environment e) x = true
            <-> key_eqb (resource_id (bill (fst x)))
                        (Some (idle_resource_id e)) = true).
    rewrite (has_key_true idle_key cmp_idle_key), key_eqb_eq.
    unfold idle_key. split.
    - destruct (resource_id (bill (fst x))); [|discriminate].
      intro H. now injection H as ->.
    - intro Hk. rewrite Hk.
      assert (In x rows) as Hxr
        by (apply filter_In; split; [exact Hx | now apply key_eqb_eq]).
      destruct (Hsame x Hxr) as [-> ->]. reflexivity. }
  rewrite Elr in *. clear Elr.
  split; [exact Nl|]. split; [exact Hsame|].
  rewrite Ee. simpl. repeat split.
Qed.

(** On the fixture of the tests, with thresholds 0.2 and 400, the entry of
    [res2] has the cost 2000 of its one flagged row. *)
Lemma idle_entry_spec_witness :
  exists e,
    idle_resource_id e = "res2"
    /\ idle_current_monthly_cost e = round_dec 2 (2000 + 0)
    /\ idle_potential_savings e = round_dec 2 ((2000 + 0) * (7 # 10)).
Proof.
  set (df := map (join_row (map normalize_resource sample_resources_data))
                 (map coerce_billing sample_billing_data)).
  assert (exists r e,
             find_idle_resources_of (2 # 10) 400 df = [r]
             /\ In (IdleDetail e) (resources r)
             /\ idle_resource_id e = "res2")
    as [r [e [Hr [He Hid]]]].
  { let v := eval vm_compute in (find_idle_resources_of (2 # 10) 400 df) in
    lazymatch v with
    | [?r0] =>
        lazymatch r0 with
        | {| resources := IdleDetail ?e0 :: _ |} =>
            exists r0, e0; split; [vm_compute; reflexivity|];
            split; [left; reflexivity | reflexivity]
        end
    end. }
  exists e. split; [exact Hid|].
  destruct (idle_entry_spec (2 # 10) 400 sample_billing_data
              sample_resources_data df r e eq_refl
              ltac:(rewrite Hr; now left) He) as [_ [_ [Hc [Hs _]]]].
  rewrite Hid in Hc, Hs. split; [exact Hc | exact Hs].
Defined.

Section TotalsFacts.

Lemma idle_total (u c : Q) (df : list Enriched) (r : Recommendation) :
  In r (find_idle_resources_of u c df) ->
  estimated_savings r
  == Qsum (map (fun x => cost (bill (fst x)))
               (filter (keyed idle_key) (idle_rows u c df)))
     * (7 # 10).
Proof.
  unfold find_idle_resources_of.
  destruct (idle_rows u c df) as [|i0 rest] eqn:Ei; [contradiction|].
  rewrite <- Ei. clear Ei i0 rest. intros [<-|[]]. cbn [estimated_savings].
  unfold idle_summary. rewrite map_map. simpl.
  now rewrite groupby_total.
Qed.

Lemma tagging_total (df : list Enriched) (r : Recommendation) :
  In r (find_tagging_gaps_of df) ->
  estimated_savings r
  == Qsum (map (fun e => cost (bill e))
               (filter (keyed (fun e => resource_id (bill e)))
                       (filter untagged (latest_month_rows df))))
     * (1 # 5).
Proof.
  unfold find_tagging_gaps_of.
  destruct (filter untagged (latest_month_rows df)) as [|u0 rest] eqn:Eu;
    [contradiction|].
  rewrite <- Eu. clear Eu u0 rest. intros [<-|[]]. cbn [estimated_savings].
  unfold untagged_summary. rewrite map_map. simpl.
  now rewrite groupby_total.
Qed.

Lemma spike_total (t : Q) (df : list Enriched) (r : Recommendation) :
  In r (find_cost_spikes_of t df) ->
  estimated_savings r
  == Qsum (map (fun s => Qsum (spike_terms (latest_month_rows df) s))
               (spike_rows t df))
     * (1 # 2).
Proof.
  unfold find_cost_spikes_of.
  destruct (spike_rows t df) as [|s0 rest]; [contradiction|].
  remember (s0 :: rest) as sp eqn:Esp. clear Esp.
  intros [<-|[]]. cbn [estimated_savings]. apply spike_total_savings_sum.
Qed.

Lemma sorted_keys_project {K : Type} (cmp : K -> K -> comparison)
    `{CmpOrder K cmp} {B : Type} (cb : B -> B -> comparison) `{CmpOrder B cb}
    (ks : list (K * B)) :
  StronglySorted (fun a b => cmp_pair cmp cb a b = Lt) ks ->
  (forall a b, In a ks -> In b ks -> fst a = fst b -> a = b) ->
  StronglySorted (fun a b => cmp a b = Lt) (map fst ks).
Proof.
  induction 1 as [|k ks S IH F]; intro Inj; simpl; constructor.
  - apply IH. intros a b Ha Hb. apply Inj; now right.
  - rewrite Forall_forall in *. intros z Hz.
    apply in_map_iff in Hz as [kz [<- Hkz]].
    specialize (F kz Hkz). unfold cmp_pair in F.
    destruct (cmp (fst k) (fst kz)) eqn:E; [|reflexivity|discriminate].
    apply cmp_eq_iff in E.
    assert (k = kz) by (apply Inj; [now left | now right | exact E]).
    subst kz. rewrite (proj2 (cmp_eq_iff (snd k) (snd k)) eq_refl) in F.
    discriminate.
Qed.

End TotalsFacts.

(** The savings total of the idle recommendation is 70% of the summed
    cost of the flagged rows that have a [resource_id], and that of the
    tagging recommendation 20% of the summed cost of the untagged rows of
    the latest month that have one; rows without [resource_id] count for
    nothing. *)
Theorem detector_savings_totals :
  forall (usage_threshold cost_threshold : Q) (df : list Enriched),
    (forall r,
        In r (find_idle_resources_of usage_threshold cost_threshold df) ->
        estimated_savings r
        == Qsum (map (fun x => cost (bill (fst x)))
                     (filter (fun x => match resource_id (bill (fst x)) with
                                       | Some _ => true
                                       | None => false
                                       end)
                             (idle_rows usage_threshold cost_threshold df)))
           * (7 # 10))
    /\ (forall r,
           In r (find_tagging_gaps_of df) ->
           estimated_savings r
           == Qsum (map (fun e => cost (bill e))
                        (filter (fun e => match resource_id (bill e) with
                                          | Some _ => true
                                          | None => false
                                          end)
                                (filter untagged (latest_month_rows df))))
              * (1 # 5)).
Proof.
  intros u c df. split; intros r Hr.
  - rewrite (idle_total u c df r Hr).
    apply Qmult_comp; [|reflexivity].
    assert (filter (keyed idle_key) (idle_rows u c df)
            = filter (fun x => match resource_id (bill (fst x)) with
                               | Some _ => true
                               | None => false
                               end) (idle_rows u c df)) as ->; [|reflexivity].
    apply filter_ext. intro x. unfold keyed, idle_key.
    now destruct (resource_id (bill (fst x))).
  - rewrite (tagging_total df r Hr). reflexivity.
Qed.

(** On tables that enrich, the idle and the tagging recommendation list
    their resources in ascending order of [resource_id], each resource
    once. *)
Theorem recommendation_resources_sorted :
  forall (usage_threshold cost_threshold : Q) (billing : list RawBilling)
         (resources0 : list RawResource) (df : list Enriched),
    enrich_billing billing resources0 = Ok df ->
    (forall r,
        In r (find_idle_resources_of usage_threshold cost_threshold df) ->
        StronglySorted (fun a b => String.compare a b = Lt)
                       (map detail_resource_id (resources r)))
    /\ (forall r,
           In r (find_tagging_gaps_of df) ->
           StronglySorted (fun a b => String.compare a b = Lt)
                          (map detail_resource_id (resources r))).
Proof.
  intros u c billing resources0 df E. split; intros r Hr.
  - unfold find_idle_resources_of in Hr.
    destruct (idle_rows u c df) as [|i0 rest] eqn:Ei; [contradiction|].
    rewrite <- Ei in Hr. clear Ei i0 rest. destruct Hr as [<-|[]].
    cbn [resources]. unfold idle_summary. rewrite !map_map. simpl.
    destruct (groupby_groups_of idle_key cmp_idle_key (idle_rows u c df))
      as [S [G _]].
    set (gs := groupby idle_key cmp_idle_key (idle_rows u c df)) in *.
    replace (map (fun x => fst (fst (fst x))) gs)
      with (map fst (map fst (map fst gs))) by (now rewrite !map_map).
    apply (sorted_keys_project String.compare String.compare).
    apply (sorted_keys_project (cmp_pair String.compare String.compare)
                               String.compare).
    + now apply groups_sorted_keys.
    + intros a b Ha Hb Eab.
      apply in_map_iff in Ha as [[ka la] [<- Ha]].
      apply in_map_iff in Hb as [[kb lb] [<- Hb]]. simpl in *.
      destruct (G ka la Ha) as [Ela Nla]. destruct (G kb lb Hb) as [Elb Nlb].
      destruct la as [|xa la']; [congruence|].
      destruct lb as [|xb lb']; [congruence|].
      assert (In xa (filter (has_key idle_key cmp_idle_key ka) (idle_rows u c df)))
        as Hxa by (rewrite <- Ela; now left).
      assert (In xb (filter (has_key idle_key cmp_idle_key kb) (idle_rows u c df)))
        as Hxb by (rewrite <- Elb; now left).
      apply filter_In in Hxa as [Hxa Ka]. apply filter_In in Hxb as [Hxb Kb].
      apply (has_key_true idle_key cmp_idle_key) in Ka, Kb.
      unfold idle_key in Ka, Kb.
      destruct (resource_id (bill (fst xa))) as [ra|] eqn:Ra; [|discriminate].
      destruct (resource_id (bill (fst xb))) as [rb|] eqn:Rb; [|discriminate].
      injection Ka as <-. injection Kb as <-. simpl in Eab.
      injection Eab as Er Eo.
      destruct (enrich_billing_by_key billing resources0 df (fst xa) (fst xb) E)
        as [_ Hen];
        [now apply (idle_rows_incl u c) | now apply (idle_rows_incl u c)
         | congruence |].
      now rewrite Er, Eo, Hen.
    + intros a b Ha Hb Eab.
      apply in_map_iff in Ha as [ka [<- Ha]].
      apply in_map_iff in Hb as [kb [<- Hb]].
      apply in_map_iff in Ha as [[ka' la] [<- Ha]].
      apply in_map_iff in Hb as [[kb' lb] [<- Hb]]. simpl in *.
      destruct (G ka' la Ha) as [Ela Nla]. destruct (G kb' lb Hb) as [Elb Nlb].
      destruct la as [|xa la']; [congruence|].
      destruct lb as [|xb lb']; [congruence|].
      assert (In xa (filter (has_key idle_key cmp_idle_key ka') (idle_rows u c df)))
        as Hxa by (rewrite <- Ela; now left).
      assert (In xb (filter (has_key idle_key cmp_idle_key kb') (idle_rows u c df)))
        as Hxb by (rewrite <- Elb; now left).
      apply filter_In in Hxa as [Hxa Ka]. apply filter_In in Hxb as [Hxb Kb].
      apply (has_key_true idle_key cmp_idle_key) in Ka, Kb.
      unfold idle_key in Ka, Kb.
      destruct (resource_id (bill (fst xa))) as [ra|] eqn:Ra; [|discriminate].
      destruct (resource_id (bill (fst xb))) as [rb|] eqn:Rb; [|discriminate].
      injection Ka as <-. injection Kb as <-. simpl in Eab. simpl.
      destruct (enrich_billing_by_key billing resources0 df (fst xa) (fst xb) E)
        as [Ho _];
        [now apply (idle_rows_incl u c) | now apply (idle_rows_incl u c)
         | congruence |].
      now rewrite Eab, Ho.
  - unfold find_tagging_gaps_of in Hr.
    destruct (filter untagged (latest_month_rows df)) as [|u0 rest] eqn:Eu;
      [contradiction|].
    rewrite <- Eu in Hr. clear Eu u0 rest. destruct Hr as [<-|[]].
    cbn [resources]. unfold untagged_summary. rewrite !map_map. simpl.
    destruct (groupby_groups_of (fun e => resource_id (bill e)) String.compare
                (filter untagged (latest_month_rows df))) as [S _].
    now apply groups_sorted_keys.
Qed.

(** On the fixture of the tests the tagging recommendation lists [res2],
    [res3] and [res4] in this order. *)
Lemma recommendation_resources_sorted_witness :
  exists r,
    find_tagging_gaps_of
      (map (join_row (map normalize_resource sample_resources_data))
           (map coerce_billing sample_billing_data)) = [r]
    /\ map detail_resource_id (resources r) = ["res2"; "res3"; "res4"]
    /\ StronglySorted (fun a b => String.compare a b = Lt)
                      (map detail_resource_id (resources r)).
Proof.
  set (df := map (join_row (map normalize_resource sample_resources_data))
                 (map coerce_billing sample_billing_data)).
  eexists. split; [reflexivity|]. split; [reflexivity|].
  apply (proj2 (recommendation_resources_sorted (1 # 10) 100
                  sample_billing_data sample_resources_data df eq_refl)).
  now left.
Defined.

(* ================================================================== *)
(** ** Signs of the savings                                             *)
(* ================================================================== *)

Section SignFacts.

Lemma Qsum_skip_keyed_nonneg {A : Type} (f : A -> Q) (p : A -> bool)
    (l : list A) :
  (forall x, In x l -> 0 <= f x) -> 0 <= Qsum (map f (filter p l)).
Proof.
  intro H. apply Qsum_nonneg. intros q Hq.
  apply in_map_iff in Hq as [x [<- Hx]]. apply filter_In in Hx as [Hx _].
  now apply H.
Qed.

Lemma idle_savings_nonneg (u c : Q) (df : list Enriched) (r : Recommendation) :
  (forall e, In e df -> 0 <= cost (bill e)) ->
  In r (find_idle_resources_of u c df) -> 0 <= estimated_savings r.
Proof.
  intros H Hr. rewrite (idle_total u c df r Hr).
  assert (0 <= Qsum (map (fun x => cost (bill (fst x)))
                         (filter (keyed idle_key) (idle_rows u c df)))).
  { apply Qsum_skip_keyed_nonneg. intros x Hx.
    now apply H, (idle_rows_incl u c). }
  lra.
Qed.

Lemma tagging_savings_nonneg (df : list Enriched) (r : Recommendation) :
  (forall e, In e df -> 0 <= cost (bill e)) ->
  In r (find_tagging_gaps_of df) -> 0 <= estimated_savings r.
Proof.
  intros H Hr. rewrite (tagging_total df r Hr).
  assert (0 <= Qsum (map (fun e => cost (bill e))
                         (filter (keyed (fun e => resource_id (bill e)))
                                 (filter untagged (latest_month_rows df))))).
  { apply Qsum_skip_keyed_nonneg. intros e He.
    apply filter_In in He as [He _]. now apply H, latest_month_rows_incl. }
  lra.
Qed.

Lemma spike_savings_nonneg (t : Q) (df : list Enriched) (r : Recommendation) :
  0 <= t ->
  (forall e, In e df -> 0 <= cost (bill e)) ->
  In r (find_cost_spikes_of t df) -> 0 <= estimated_savings r.
Proof.
  intros Ht H Hr. rewrite (spike_total t df r Hr).
  assert (0 <= Qsum (map (fun s => Qsum (spike_terms (latest_month_rows df) s))
                         (spike_rows t df))).
  { apply Qsum_nonneg. intros q Hq. apply in_map_iff in Hq as [s [<- Hs]].
    apply spike_rows_In in Hs as [_ Hs].
    apply Qsum_nonneg. intros q Hq. unfold spike_terms in Hq.
    apply in_map_iff in Hq as [e [<- He]].
    unfold latest_matches in He. apply filter_In in He as [He _].
    apply latest_month_rows_incl, H in He.
    apply Qmult_le_0_compat; lra. }
  lra.
Qed.

End SignFacts.

(** When no billing cost is negative, [get_all_recommendations] reports
    no negative figure: the total and every recommendation's
    [estimated_monthly_savings] are at least 0. *)
Theorem savings_nonnegative :
  forall (billing : list RawBilling) (resources0 : list RawResource)
         (df : list Enriched),
    enrich_billing billing resources0 = Ok df ->
    (forall b, In b billing -> 0 <= cost (coerce_billing b)) ->
    exists all,
      get_all_recommendations billing resources0 = Ok all
      /\ 0 <= total_estimated_monthly_savings all
      /\ forall rd, In rd (recommendations all) ->
                    0 <= estimated_monthly_savings rd.
Proof.
  intros billing resources0 df E Hb.
  assert (forall e, In e df -> 0 <= cost (bill e)) as H.
  { intros e He. unfold enrich_billing in E.
    destruct (is_unique (resource_keys resources0)); [|discriminate].
    injection E as <-. apply in_map_iff in He as [b [<- Hb']].
    rewrite join_row_bill. apply in_map_iff in Hb' as [b0 [<- Hb0]].
    now apply Hb. }
  unfold get_all_recommendations, find_idle_resources, find_cost_spikes,
    find_tagging_gaps.
  rewrite E. simpl. eexists. split; [reflexivity|]. simpl.
  set (recs := find_idle_resources_of default_usage_threshold
                 default_cost_threshold df
               ++ find_cost_spikes_of default_threshold_pct df
               ++ find_tagging_gaps_of df).
  assert (forall r, In r recs -> 0 <= estimated_savings r) as Hr.
  { intros r Hr. unfold recs in Hr.
    apply in_app_or in Hr as [Hr|Hr]; [now apply idle_savings_nonneg in Hr|].
    apply in_app_or in Hr as [Hr|Hr].
    - apply spike_savings_nonneg in Hr; [exact Hr | discriminate | exact H].
    - now apply tagging_savings_nonneg in Hr. }
  pose proof (round_dec_inject_Z 2 0) as R0. change (inject_Z 0) with 0 in R0.
  split.
  - assert (0 <= Qsum (map estimated_savings recs)) as S.
    { apply Qsum_nonneg. intros q Hq. apply in_map_iff in Hq as [r [<- Hq]].
      now apply Hr. }
    pose proof (round_dec_mono 2 _ _ S). lra.
  - intros rd Hrd. apply in_map_iff in Hrd as [r [<- Hrd]]. simpl.
    pose proof (round_dec_mono 2 _ _ (Hr r Hrd)). lra.
Qed.

(** On the fixture of the tests. *)
Lemma savings_nonnegative_witness :
  exists all,
    get_all_recommendations sample_billing_data sample_resources_data = Ok all
    /\ 0 <= total_estimated_monthly_savings all.
Proof.
  destruct (savings_nonnegative sample_billing_data sample_resources_data
              _ eq_refl) as [all [Ha [Ht _]]].
  - intros b Hb. simpl in Hb.
    repeat (destruct Hb as [<-|Hb]; [vm_compute; intro; discriminate|]).
    contradiction.
  - exists all. split; [exact Ha | exact Ht].
Defined.

(* ================================================================== *)
(** ** unit_cost_changes: the previous present month                    *)
(* ================================================================== *)

Section ShiftFacts.

Lemma sort_asc_sorted_id {A : Type} (cmp : A -> A -> comparison) (l : list A) :
  StronglySorted (fun a b => cmp a b = Lt) l -> sort_asc cmp l = l.
Proof.
  induction 1 as [|x l S IH F]; simpl; [reflexivity|].
  rewrite IH. destruct l as [|y r]; [reflexivity|]. simpl.
  inversion F as [|? ? Hxy _]; subst. now rewrite Hxy.
Qed.

Lemma StronglySorted_split {A : Type} (R : A -> A -> Prop)
    (l1 l2 : list A) (x : A) :
  StronglySorted R (l1 ++ x :: l2) ->
  Forall (fun y => R y x) l1 /\ Forall (R x) l2.
Proof.
  induction l1 as [|a l1 IH]; simpl; intro S.
  - apply StronglySorted_inv in S as [_ F]. split; [constructor | exact F].
  - apply StronglySorted_inv in S as [S F]. destruct (IH S) as [F1 F2].
    split; [|exact F2]. constructor; [|exact F1].
    rewrite Forall_forall in F. apply F. apply in_or_app. right. now left.
Qed.

Lemma find_rev_last {A : Type} (f : A -> bool) (l : list A) (x : A) :
  find f (rev l) = Some x ->
  exists a b, l = a ++ x :: b /\ f x = true /\ forall y, In y b -> f y = false.
Proof.
  induction l as [|y l IH] using rev_ind; simpl; [discriminate|].
  rewrite rev_app_distr. simpl. destruct (f y) eqn:Fy.
  - intro H. injection H as <-. exists l, []. repeat split.
    + exact Fy.
    + intros z [].
  - intro H. destruct (IH H) as [a [b [-> [Fx Hb]]]].
    exists a, (b ++ [y]). split; [now rewrite <- app_assoc|].
    split; [exact Fx|]. intros z Hz.
    apply in_app_or in Hz as [Hz|[<-|[]]]; [now apply Hb | exact Fy].
Qed.

Lemma shift_prev_spec {K : Type} (rid : K -> string)
    (seen rows : list (K * Q)) (k : K) (u : Q) (p : option Q) :
  In (k, u, p) (shift_prev rid seen rows) ->
  exists pre post,
    rows = pre ++ (k, u) :: post
    /\ p = option_map snd
             (find (fun x => String.eqb (rid (fst x)) (rid k)) (rev pre ++ seen)).
Proof.
  revert seen. induction rows as [|[k0 u0] rows IH]; intros seen H; simpl in H;
    [contradiction|].
  destruct H as [H|H].
  - inversion H; subst. exists [], rows. split; reflexivity.
  - destruct (IH _ H) as [pre [post [-> Hp]]].
    exists ((k0, u0) :: pre), post. split; [reflexivity|].
    simpl. now rewrite <- app_assoc.
Qed.

(** The rows of [agg] in [unit_cost_changes] before the shift: one row
    per resource and month with rows, in ascending key order, with the
    mean unit cost of those rows. *)
Lemma unit_cost_agg_spec (df : list Enriched) :
  let agg :=
    sort_asc (fun a b => cmp_month_key (fst a) (fst b))
             (mean_unit_cost (groupby month_key cmp_month_key df)) in
  StronglySorted (fun a b => cmp_month_key (fst a) (fst b) = Lt) agg
  /\ (forall k u, In (k, u) agg ->
                  u = Qmean (map (fun e => unit_cost (bill e))
                                 (filter (has_key month_key cmp_month_key k) df))
                  /\ filter (has_key month_key cmp_month_key k) df <> [])
  /\ (forall e k, In e df -> month_key e = Some k -> exists u, In (k, u) agg).
Proof.
  intro agg.
  destruct (groupby_groups_of month_key cmp_month_key df) as [S [G C]].
  set (gs := groupby month_key cmp_month_key df) in *.
  assert (StronglySorted (fun a b => cmp_month_key (fst a) (fst b) = Lt)
                         (mean_unit_cost gs)) as S'.
  { unfold mean_unit_cost. clear G C. induction S as [|g gs S IH F]; simpl;
      constructor; [exact IH|].
    rewrite Forall_forall in *. intros x Hx.
    apply in_map_iff in Hx as [g' [<- Hg']]. exact (F g' Hg'). }
  assert (agg = mean_unit_cost gs) as ->
    by (apply (sort_asc_sorted_id
                 (fun a b : string * string * Q => cmp_month_key (fst a) (fst b)));
        exact S').
  split; [exact S'|]. split.
  - intros k u Hin. unfold mean_unit_cost in Hin.
    apply in_map_iff in Hin as [[k' l] [E Hg]]. simpl in E.
    inversion E; subst. destruct (G k l Hg) as [El Nl].
    rewrite <- El. now split.
  - intros e k He Hk. destruct (C e k He Hk) as [l Hl].
    exists (Qmean (map (fun e => unit_cost (bill e)) l)).
    unfold mean_unit_cost. apply in_map_iff. now exists (k, l).
Qed.

End ShiftFacts.

Lemma unit_cost_change_rows_previous :
  forall (df : list Enriched) (c : Change (string * string)),
    In c (unit_cost_change_rows df) ->
    exists prev_month,
      String.compare prev_month (snd (ch_key c)) = Lt
      /\ ch_unit_cost c
         = Qmean (map (fun e => unit_cost (bill e))
                      (filter (has_key month_key cmp_month_key (ch_key c)) df))
      /\ ch_prev_unit_cost c
         = Qmean (map (fun e => unit_cost (bill e))
                      (filter (has_key month_key cmp_month_key
                                       (fst (ch_key c), prev_month)) df))
      /\ filter (has_key month_key cmp_month_key (fst (ch_key c), prev_month)) df
         <> []
      /\ forall e, In e df ->
                   resource_id (bill e) = Some (fst (ch_key c)) ->
                   ~ (String.compare prev_month (invoice_month (bill e)) = Lt
                      /\ String.compare (invoice_month (bill e))
                                        (snd (ch_key c)) = Lt).
Proof.
  intros df c Hc. unfold unit_cost_change_rows in Hc.
  destruct (unit_cost_agg_spec df) as [S [V C]].
  set (agg := sort_asc (fun a b => cmp_month_key (fst a) (fst b))
                       (mean_unit_cost (groupby month_key cmp_month_key df)))
    in *.
  apply in_map_iff in Hc as [[[k u] p] [<- Hc]].
  unfold nonzero_prev in Hc. apply filter_In in Hc as [Hc _].
  unfold dropna_prev in Hc. apply in_flat_map in Hc as [[[k1 u1] p1] [Hs Hc]].
  simpl in Hc. destruct p1 as [p1|]; [|contradiction].
  destruct Hc as [Hc|[]]. inversion Hc; subst k1 u1 p1. clear Hc.
  apply shift_prev_spec in Hs as [pre [post [Eagg Hp]]].
  rewrite app_nil_r in Hp.
  destruct (find (fun x : string * string * Q => String.eqb (fst (fst x)) (fst k))
                 (rev pre)) as [[k' u']|] eqn:F; [|discriminate].
  simpl in Hp. injection Hp as ->.
  apply find_rev_last in F as [a [b [-> [Fk' Hb]]]]. simpl in Fk'.
  apply String.eqb_eq in Fk'.
  rewrite <- app_assoc in Eagg. simpl in Eagg.
  rewrite Eagg in S.
  destruct (StronglySorted_split _ _ _ _ S) as [Fa Fk].
  assert (In (k, u) (b ++ (k, u) :: post)) as Hkin
    by (apply in_or_app; right; now left).
  assert (cmp_month_key k' k = Lt) as Hlt
    by (rewrite Forall_forall in Fk; exact (Fk _ Hkin)).
  destruct k as [rid m], k' as [rid' m']. simpl in *. subst rid'.
  assert (String.compare m' m = Lt) as Hm.
  { unfold cmp_month_key, cmp_pair in Hlt. simpl in Hlt.
    now rewrite string_compare_refl in Hlt. }
  exists m'. split; [exact Hm|].
  assert (In (rid, m, u) agg) as Hku
    by (rewrite Eagg; apply in_or_app; right; right; exact Hkin).
  assert (In (rid, m', u') agg) as Hku'
    by (rewrite Eagg; apply in_or_app; right; now left).
  destruct (V _ _ Hku) as [Eu _]. destruct (V _ _ Hku') as [Eu' Nu'].
  split; [exact Eu|]. split; [exact Eu'|]. split; [exact Nu'|].
  intros e He Hrid [H1 H2].
  destruct (C e (rid, invoice_month (bill e)) He) as [ue Hue];
    [unfold month_key; now rewrite Hrid|].
  remember (invoice_month (bill e)) as me eqn:Eme in *. clear Eme.
  assert (cmp_month_key (rid, m') (rid, me) = Lt) as L1.
  { unfold cmp_month_key, cmp_pair. simpl.
    now rewrite string_compare_refl. }
  assert (cmp_month_key (rid, me) (rid, m) = Lt) as L2.
  { unfold cmp_month_key, cmp_pair. simpl.
    now rewrite string_compare_refl. }
  assert (forall x y : string * string,
             cmp_month_key x y = Lt -> cmp_month_key y x = Lt -> False) as Asym.
  { intros x y Hx Hy. rewrite cmp_antisym, Hx in Hy. discriminate. }
  rewrite Eagg in Hue.
  apply in_app_or in Hue as [Hue|[Hue|Hue]].
  - rewrite Forall_forall in Fa. specialize (Fa _ Hue). simpl in Fa.
    exact (Asym _ _ Fa L1).
  - inversion Hue. subst me.
    rewrite string_compare_refl in H1. discriminate.
  - apply in_app_or in Hue as [Hue|[Hue|Hue]].
    + specialize (Hb _ Hue). simpl in Hb.
      rewrite String.eqb_refl in Hb. discriminate.
    + inversion Hue. subst me.
      rewrite string_compare_refl in H2. discriminate.
    + assert (StronglySorted
                (fun a0 b0 : string * string * Q =>
                   cmp_month_key (fst a0) (fst b0) = Lt)
                ((a ++ (rid, m', u') :: b) ++ (rid, m, u) :: post)) as S2
        by (rewrite <- app_assoc; simpl; exact S).
      destruct (StronglySorted_split _ _ _ _ S2) as [_ Fp].
      rewrite Forall_forall in Fp. specialize (Fp _ Hue). simpl in Fp.
      exact (Asym _ _ Fp L2).
Qed.

Lemma month_key_has_key (rid m : string) (e : Enriched) :
  has_key month_key cmp_month_key (rid, m) e
  = key_eqb (resource_id (bill e)) (Some rid)
    && String.eqb (invoice_month (bill e)) m.
Proof.
  unfold has_key, month_key. destruct (resource_id (bill e)) as [r|]; simpl;
    [|reflexivity].
  unfold cmp_month_key, cmp_pair. simpl.
  rewrite <- (compare_is_eqb r rid), <- (compare_is_eqb (invoice_month (bill e)) m).
  destruct (String.compare r rid); simpl; reflexivity.
Qed.

(** Every row of [unit_cost_changes] compares a month of a resource with
    the immediately preceding month in which the resource has rows:
    [unit_cost] is the mean unit cost of the resource's rows of the
    month, [prev_unit_cost] that of an earlier month in which it has
    rows, and the resource has no row in a month strictly between the
    two.  The first month of a resource therefore never appears. *)
Theorem unit_cost_changes_previous_present_month :
  forall (df : list Enriched) (c : Change (string * string)),
    In c (unit_cost_change_rows df) ->
    let rows_of := fun m =>
      filter (fun e => key_eqb (resource_id (bill e)) (Some (fst (ch_key c)))
                       && String.eqb (invoice_month (bill e)) m) df in
    exists prev_month,
      String.compare prev_month (snd (ch_key c)) = Lt
      /\ rows_of prev_month <> []
      /\ ch_unit_cost c
         = Qmean (map (fun e => unit_cost (bill e)) (rows_of (snd (ch_key c))))
      /\ ch_prev_unit_cost c
         = Qmean (map (fun e => unit_cost (bill e)) (rows_of prev_month))
      /\ forall e, In e df ->
                   resource_id (bill e) = Some (fst (ch_key c)) ->
                   ~ (String.compare prev_month (invoice_month (bill e)) = Lt
                      /\ String.compare (invoice_month (bill e))
                                        (snd (ch_key c)) = Lt).
Proof.
  intros df c Hc rows_of.
  destruct (unit_cost_change_rows_previous df c Hc)
    as [pm [Hlt [Hu [Hp [Hne Hbetween]]]]].
  assert (forall m, filter (has_key month_key cmp_month_key (fst (ch_key c), m)) df
                    = rows_of m) as Hrows
    by (intro m; apply filter_ext; intro e; apply month_key_has_key).
  exists pm. split; [exact Hlt|].
  rewrite <- !Hrows. split; [exact Hne|].
  split; [|split; [exact Hp | exact Hbetween]].
  rewrite Hu. now destruct (ch_key c).
Qed.

(** In the two months of the tests, the change of [res1] in 2025-08 is
    measured against 2025-07. *)
Lemma unit_cost_changes_previous_present_month_witness :
  exists prev_month, String.compare prev_month "2025-08" = Lt.
Proof.
  set (df := map (join_row (map normalize_resource sample_resources_data))
                 (map coerce_billing combined_billing_data)).
  assert (exists c, In c (unit_cost_change_rows df)
                    /\ ch_key c = ("res1", "2025-08")) as [c [Hc Hk]].
  { eexists. split; [vm_compute; left; reflexivity | reflexivity]. }
  destruct (unit_cost_changes_previous_present_month df c Hc)
    as [pm [Hlt _]].
  exists pm. rewrite Hk in Hlt. exact Hlt.
Defined.

Section OutputFacts.

Lemma shift_prev_keys {K : Type} (rid : K -> string) (seen rows : list (K * Q)) :
  map (fun r => fst (fst r)) (shift_prev rid seen rows) = map fst rows.
Proof.
  revert seen. induction rows as [|[k u] rows IH]; intro seen; simpl;
    [reflexivity|]. now rewrite IH.
Qed.

Lemma dropna_prev_keys_incl {K : Type} (l : list (K * Q * option Q)) (k : K) :
  In k (map (fun r => fst (fst r)) (dropna_prev l)) ->
  In k (map (fun r => fst (fst r)) l).
Proof.
  unfold dropna_prev. rewrite !in_map_iff.
  intros [r [<- Hr]]. apply in_flat_map in Hr as [r0 [Hr0 Hr]].
  destruct (snd r0); [|contradiction]. destruct Hr as [<-|[]].
  exists r0. split; [reflexivity | exact Hr0].
Qed.

Lemma dropna_prev_NoDup {K : Type} (l : list (K * Q * option Q)) :
  NoDup (map (fun r => fst (fst r)) l) ->
  NoDup (map (fun r : K * Q * Q => fst (fst r)) (dropna_prev l)).
Proof.
  induction l as [|[[k u] p] l IH]; simpl; intro N; [constructor|].
  inversion N as [|? ? Hn N']; subst.
  destruct p as [p|]; simpl; [|now apply IH].
  constructor; [|now apply IH].
  intro Hin. apply Hn. now apply dropna_prev_keys_incl.
Qed.

Lemma NoDup_map_filter {R K : Type} (key : R -> K) (keep : R -> bool) :
  forall rows : list R,
    NoDup (map key rows) -> NoDup (map key (filter keep rows)).
Proof.
  intros rows; induction rows as [|r rows IH]; simpl; intro N; [constructor|].
  inversion N as [|? ? Hn N']; subst.
  destruct (keep r); simpl; [|now apply IH].
  constructor; [|now apply IH].
  intro Hin. apply Hn. apply in_map_iff in Hin as [y [E Hy]].
  apply filter_In in Hy as [Hy _]. apply in_map_iff. now exists y.
Qed.

Lemma unit_cost_change_rows_NoDup (df : list Enriched) :
  NoDup (map ch_key (unit_cost_change_rows df)).
Proof.
  unfold unit_cost_change_rows. rewrite map_map. simpl.
  apply NoDup_map_filter, dropna_prev_NoDup.
  rewrite shift_prev_keys.
  destruct (unit_cost_agg_spec df) as [S _].
  apply (sorted_keys_NoDup cmp_month_key).
  clear -S. induction S as [|x l S IH F]; simpl; constructor; [exact IH|].
  rewrite Forall_forall in *. intros k Hk.
  apply in_map_iff in Hk as [y [<- Hy]]. exact (F y Hy).
Qed.

End OutputFacts.

(** The rows [unit_cost_changes] returns are in descending order of the
    rounded [pct_change], and no resource and month has two rows. *)
Theorem unit_cost_changes_sorted_distinct :
  forall (threshold_pct : Q) (df : list Enriched),
    StronglySorted (fun a b => ch_pct_change b <= ch_pct_change a)
                   (unit_cost_changes_of threshold_pct df)
    /\ NoDup (map ch_key (unit_cost_changes_of threshold_pct df)).
Proof.
  intros t df. unfold unit_cost_changes_of. split; [apply sort_desc_sorted|].
  apply (Permutation_NoDup
           (Permutation_map ch_key
              (Permutation_sym (sort_desc_perm ch_pct_change _)))).
  rewrite map_map. simpl.
  apply NoDup_map_filter, unit_cost_change_rows_NoDup.
Qed.

(* ================================================================== *)
(** ** find_cost_spikes and unit_cost_changes measure the same changes  *)
(* ================================================================== *)

Section AgreementFacts.

Lemma sorted_lists_eq {A : Type} (R : A -> A -> Prop) (l1 l2 : list A) :
  (forall x y, R x y -> R y x -> False) ->
  (forall x, ~ R x x) ->
  StronglySorted R l1 -> StronglySorted R l2 ->
  (forall x, In x l1 <-> In x l2) -> l1 = l2.
Proof.
  intros Asym Irr. revert l2.
  induction l1 as [|x1 l1 IH]; intros l2 S1 S2 M.
  - destruct l2 as [|x2 l2]; [reflexivity|].
    exfalso. apply (proj2 (M x2)). now left.
  - destruct l2 as [|x2 l2]; [exfalso; apply (proj1 (M x1)); now left|].
    apply StronglySorted_inv in S1 as [S1 F1].
    apply StronglySorted_inv in S2 as [S2 F2].
    rewrite Forall_forall in F1, F2.
    assert (x1 = x2) as ->.
    { destruct (proj1 (M x1) (or_introl eq_refl)) as [E|H1]; [now symmetry|].
      destruct (proj2 (M x2) (or_introl eq_refl)) as [E|H2]; [exact E|].
      exfalso. exact (Asym _ _ (F1 _ H2) (F2 _ H1)). }
    f_equal. apply IH; [exact S1 | exact S2|].
    intro x. split; intro H.
    + destruct (proj1 (M x) (or_intror H)) as [<-|H']; [|exact H'].
      exfalso. exact (Irr _ (F1 _ H)).
    + destruct (proj2 (M x) (or_intror H)) as [<-|H']; [|exact H'].
      exfalso. exact (Irr _ (F2 _ H)).
Qed.

Lemma find_map {A B : Type} (f : B -> bool) (g : A -> B) (l : list A) :
  find f (map g l) = option_map g (find (fun x => f (g x)) l).
Proof.
  induction l as [|x l IH]; simpl; [reflexivity|].
  destruct (f (g x)); [reflexivity | exact IH].
Qed.

Lemma find_ext_eq {A : Type} (f g : A -> bool) (l : list A) :
  (forall x, f x = g x) -> find f l = find g l.
Proof.
  intro H. induction l as [|x l IH]; simpl; [reflexivity|].
  rewrite H. now rewrite IH.
Qed.

Lemma shift_prev_map {K1 K2 : Type} (pk : K1 -> K2)
    (rid1 : K1 -> string) (rid2 : K2 -> string) (seen rows : list (K1 * Q)) :
  (forall k, rid2 (pk k) = rid1 k) ->
  shift_prev rid2 (map (fun r => (pk (fst r), snd r)) seen)
                  (map (fun r => (pk (fst r), snd r)) rows)
  = map (fun r => (pk (fst (fst r)), snd (fst r), snd r))
        (shift_prev rid1 seen rows).
Proof.
  intro Hrid. revert seen.
  induction rows as [|[k u] rows IH]; intro seen; simpl; [reflexivity|].
  f_equal.
  - f_equal. rewrite find_map. simpl.
    rewrite (find_ext_eq _ (fun p => String.eqb (rid1 (fst p)) (rid1 k))).
    + now destruct (find _ seen).
    + intro p. now rewrite !Hrid.
  - exact (IH ((k, u) :: seen)).
Qed.

Lemma dropna_prev_map {K1 K2 : Type} (pk : K1 -> K2)
    (l : list (K1 * Q * option Q)) :
  dropna_prev (map (fun r => (pk (fst (fst r)), snd (fst r), snd r)) l)
  = map (fun r => (pk (fst (fst r)), snd (fst r), snd r)) (dropna_prev l).
Proof.
  induction l as [|[[k u] p] l IH]; simpl; [reflexivity|].
  destruct p; simpl; now rewrite IH.
Qed.

Lemma nonzero_prev_map {K1 K2 : Type} (pk : K1 -> K2) (l : list (K1 * Q * Q)) :
  nonzero_prev (map (fun r => (pk (fst (fst r)), snd (fst r), snd r)) l)
  = map (fun r => (pk (fst (fst r)), snd (fst r), snd r)) (nonzero_prev l).
Proof.
  induction l as [|[[k u] p] l IH]; simpl; [reflexivity|].
  destruct (negb (Qeq_bool p 0)); simpl; now rewrite IH.
Qed.

Lemma StronglySorted_map {A B : Type} (f : A -> B) (R : B -> B -> Prop)
    (l : list A) :
  StronglySorted R (map f l) <-> StronglySorted (fun a b => R (f a) (f b)) l.
Proof.
  induction l as [|x l IH]; simpl; split; intro S;
    try constructor; apply StronglySorted_inv in S as [S F].
  - now apply IH.
  - rewrite Forall_forall in *. intros y Hy. apply F. now apply in_map.
  - now apply IH.
  - rewrite Forall_forall in *. intros y Hy.
    apply in_map_iff in Hy as [z [<- Hz]]. now apply F.
Qed.

Lemma spike_key_has_key (k : spike_key_t) (e : Enriched) :
  has_key spike_key cmp_spike_key k e = true <-> spike_key e = Some k.
Proof. apply (has_key_true spike_key cmp_spike_key). Qed.

Lemma month_key_has_key_true (k : string * string) (e : Enriched) :
  has_key month_key cmp_month_key k e = true <-> month_key e = Some k.
Proof. apply (has_key_true month_key cmp_month_key). Qed.

Variable df : list Enriched.
Hypothesis by_key :
  forall e1 e2, In e1 df -> In e2 df ->
                resource_id (bill e1) = resource_id (bill e2) ->
                owner e1 = owner e2 /\ env e1 = env e2.

Lemma spike_group_is_month_group (k : spike_key_t) (e0 : Enriched) :
  In e0 df -> spike_key e0 = Some k ->
  filter (has_key spike_key cmp_spike_key k) df
  = filter (has_key month_key cmp_month_key (sk_month_key k)) df.
Proof.
  intros He0 K0. apply filter_ext_in. intros e He. apply eq_true_iff_eq.
  rewrite spike_key_has_key, month_key_has_key_true.
  unfold spike_key, month_key in *.
  destruct (resource_id (bill e0)) as [r0|] eqn:R0; [|discriminate].
  injection K0 as <-. unfold sk_month_key, sk_resource_id, sk_invoice_month.
  simpl. destruct (resource_id (bill e)) as [r|] eqn:R; [|split; discriminate].
  split; intro H; injection H as -> Hm.
  - now rewrite Hm.
  - destruct (by_key e e0 He He0) as [-> ->]; [congruence|]. now rewrite Hm.
Qed.

Lemma spike_groups_project :
  map (fun g => (sk_month_key (fst g), snd g))
      (groupby spike_key cmp_spike_key df)
  = groupby month_key cmp_month_key df.
Proof.
  destruct (groupby_groups_of spike_key cmp_spike_key df) as [S4 [G4 C4]].
  destruct (groupby_groups_of month_key cmp_month_key df) as [S2 [G2 C2]].
  set (gs4 := groupby spike_key cmp_spike_key df) in *.
  set (gs2 := groupby month_key cmp_month_key df) in *.
  assert (forall k l, In (k, l) gs4 ->
                      exists e0, In e0 df /\ spike_key e0 = Some k) as Hrow4.
  { intros k l Hin. destruct (G4 k l Hin) as [El Nl].
    destruct l as [|e0 l']; [congruence|].
    assert (In e0 (filter (has_key spike_key cmp_spike_key k) df)) as H
      by (rewrite <- El; now left).
    apply filter_In in H as [H Hk]. exists e0. split; [exact H|].
    now apply spike_key_has_key. }
  apply (sorted_lists_eq (group_lt cmp_month_key)).
  - intros x y Hx Hy. unfold group_lt in *.
    rewrite cmp_antisym, Hx in Hy. discriminate.
  - intros x Hx. unfold group_lt in Hx.
    rewrite (proj2 (cmp_eq_iff (fst x) (fst x)) eq_refl) in Hx. discriminate.
  - apply StronglySorted_map.
    assert (forall gs,
               (forall g, In g gs -> In g gs4) ->
               StronglySorted (group_lt cmp_spike_key) gs ->
               StronglySorted
                 (fun a b => group_lt cmp_month_key
                               (sk_month_key (fst a), snd a)
                               (sk_month_key (fst b), snd b)) gs) as Hgoal.
    { intros gs Hsub. induction 1 as [|g gs' S IH F]; constructor.
      - apply IH. intros; apply Hsub; now right.
      - rewrite Forall_forall in *. intros z Hz. specialize (F z Hz).
        unfold group_lt in *. simpl.
        destruct g as [kg lg], z as [kz lz]. simpl in *.
        destruct kg as [[[rg mg] og] eg], kz as [[[rz mz] oz] ez].
        unfold cmp_spike_key, cmp_pair in F. simpl in F.
        unfold sk_month_key, sk_resource_id, sk_invoice_month,
          cmp_month_key, cmp_pair. simpl.
        destruct (String.compare rg rz) eqn:Er; try assumption.
        destruct (String.compare mg mz) eqn:Em; try reflexivity;
          try assumption.
        exfalso. apply cmp_eq_iff in Er, Em. subst rz mz.
        destruct (Hrow4 _ _ (Hsub _ (or_introl eq_refl))) as [e1 [H1 K1]].
        destruct (Hrow4 _ _ (Hsub _ (or_intror Hz))) as [e2 [H2 K2]].
        unfold spike_key in K1, K2.
        destruct (resource_id (bill e1)) as [r1|] eqn:R1; [|discriminate].
        destruct (resource_id (bill e2)) as [r2|] eqn:R2; [|discriminate].
        injection K1 as -> _ Ho1 He1. injection K2 as -> _ Ho2 He2.
        destruct (by_key e1 e2 H1 H2) as [Eo Ee]; [congruence|].
        simpl in F. rewrite <- Ho2, <- He2, <- Eo, <- Ee, Ho1, He1 in F.
        rewrite !string_compare_refl in F. discriminate. }
    apply Hgoal; [trivial | exact S4].
  - exact S2.
  - intros [k2 l]. split.
    + intro H. apply in_map_iff in H as [[k4 l4] [E H]]. simpl in E.
      injection E as <- <-.
      destruct (Hrow4 _ _ H) as [e0 [He0 K0]].
      destruct (G4 _ _ H) as [El _].
      destruct (C2 e0 (sk_month_key k4) He0) as [l2 Hl2].
      { unfold spike_key in K0. unfold month_key.
        destruct (resource_id (bill e0)); [|discriminate].
        now injection K0 as <-. }
      destruct (G2 _ _ Hl2) as [El2 _].
      rewrite (spike_group_is_month_group k4 e0 He0 K0) in El.
      now rewrite El, <- El2.
    + intro H. destruct (G2 _ _ H) as [El Nl].
      destruct l as [|e0 l']; [congruence|].
      assert (In e0 (filter (has_key month_key cmp_month_key k2) df)) as H0
        by (rewrite <- El; now left).
      apply filter_In in H0 as [He0 K0]. apply month_key_has_key_true in K0.
      assert (spike_key e0 = Some (fst k2, snd k2, owner e0, env e0)) as K4.
      { unfold month_key in K0. unfold spike_key.
        destruct (resource_id (bill e0)); [|discriminate].
        now injection K0 as <-. }
      destruct (C4 e0 _ He0 K4) as [l4 Hl4].
      destruct (G4 _ _ Hl4) as [El4 _].
      apply in_map_iff. exists ((fst k2, snd k2, owner e0, env e0), l4).
      split; [|exact Hl4]. simpl.
      rewrite (spike_group_is_month_group _ e0 He0 K4) in El4.
      unfold sk_month_key, sk_resource_id, sk_invoice_month in *. simpl in *.
      destruct k2. simpl in *. now rewrite El, El4.
Qed.

End AgreementFacts.

Section AgreementProof.

Lemma mean_unit_cost_sorted {K : Type} (cmp : K -> K -> comparison)
    (gs : list (K * list Enriched)) :
  StronglySorted (group_lt cmp) gs ->
  StronglySorted (fun a b => cmp (fst a) (fst b) = Lt) (mean_unit_cost gs).
Proof.
  unfold mean_unit_cost. induction 1 as [|g gs S IH F]; simpl; constructor;
    [exact IH|].
  rewrite Forall_forall in *. intros x Hx.
  apply in_map_iff in Hx as [g' [<- Hg']]. exact (F g' Hg').
Qed.

Lemma spike_change_rows_project (df : list Enriched) :
  (forall e1 e2, In e1 df -> In e2 df ->
                 resource_id (bill e1) = resource_id (bill e2) ->
                 owner e1 = owner e2 /\ env e1 = env e2) ->
  map drop_tags (spike_change_rows df) = unit_cost_change_rows df.
Proof.
  intro by_key. unfold spike_change_rows, unit_cost_change_rows.
  set (agg4 := mean_unit_cost (groupby spike_key cmp_spike_key df)).
  set (agg2 := mean_unit_cost (groupby month_key cmp_month_key df)).
  assert (map (fun r => (sk_month_key (fst r), snd r)) agg4 = agg2) as Hagg.
  { unfold agg4, agg2. rewrite <- (spike_groups_project df by_key).
    unfold mean_unit_cost. rewrite !map_map. reflexivity. }
  assert (StronglySorted (fun a b => cmp_month_key (fst a) (fst b) = Lt) agg2)
    as S2.
  { apply mean_unit_cost_sorted.
    now destruct (groupby_groups_of month_key cmp_month_key df). }
  rewrite (sort_asc_sorted_id
             (fun a b : string * string * Q => cmp_month_key (fst a) (fst b))
             agg2 S2).
  rewrite (sort_asc_sorted_id
             (fun a b : spike_key_t * Q =>
                cmp_month_key
                  (sk_resource_id (fst a), sk_invoice_month (fst a))
                  (sk_resource_id (fst b), sk_invoice_month (fst b)))
             agg4).
  - rewrite <- Hagg.
    pose proof (shift_prev_map sk_month_key sk_resource_id fst [] agg4
                  (fun k => eq_refl)) as Hs.
    cbn [map] in Hs. rewrite Hs.
    rewrite dropna_prev_map, nonzero_prev_map, !map_map.
    apply map_ext. intros [[k u] p]. reflexivity.
  - rewrite <- Hagg in S2. apply StronglySorted_map in S2. exact S2.
Qed.

End AgreementProof.

(** On tables that enrich, [find_cost_spikes] and [unit_cost_changes]
    measure the same changes: the rows of the one, without owner and
    environment, are the rows of the other.  So a row that
    [find_cost_spikes] flags at a threshold that is not negative is also
    returned by [unit_cost_changes] at that threshold. *)
Theorem spikes_are_unit_cost_changes :
  forall (billing : list RawBilling) (resources0 : list RawResource)
         (df : list Enriched),
    enrich_billing billing resources0 = Ok df ->
    map drop_tags (spike_change_rows df) = unit_cost_change_rows df
    /\ forall (threshold_pct : Q) (s : Change spike_key_t),
         0 <= threshold_pct ->
         In s (spike_rows threshold_pct df) ->
         In (round_pct_change (drop_tags s))
            (unit_cost_changes_of threshold_pct df).
Proof.
  intros billing resources0 df E.
  assert (map drop_tags (spike_change_rows df) = unit_cost_change_rows df) as H.
  { apply spike_change_rows_project. intros e1 e2.
    apply (enrich_billing_by_key billing resources0 df e1 e2 E). }
  split; [exact H|].
  intros t s Ht Hs. apply spike_rows_In in Hs as [Hs Hge].
  apply unit_cost_changes_of_In. exists (drop_tags s).
  split; [rewrite <- H; now apply in_map|]. split; [|reflexivity].
  simpl. pose proof (Qle_Qabs (ch_pct_change s)). lra.
Qed.

(** In the two months of the tests both functions see the four unit
    costs double. *)
Lemma spikes_are_unit_cost_changes_witness :
  exists df,
    enrich_billing combined_billing_data sample_resources_data = Ok df
    /\ map drop_tags (spike_change_rows df) = unit_cost_change_rows df
    /\ List.length (unit_cost_change_rows df) = 4%nat.
Proof.
  set (df := map (join_row (map normalize_resource sample_resources_data))
                 (map coerce_billing combined_billing_data)).
  destruct (spikes_are_unit_cost_changes combined_billing_data
              sample_resources_data df eq_refl) as [H _].
  exists df. split; [reflexivity|]. split; [exact H|].
  vm_compute. reflexivity.
Defined.

(* ================================================================== *)
(** ** The quality checks and the queries                               *)
(* ================================================================== *)

Section QualityFacts.

Lemma cell_eqb_eq (a b : cell) : Main.cell_eqb a b = true <-> a = b.
Proof.
  destruct a, b; simpl; split; intro H; try discriminate; try reflexivity.
  - apply String.eqb_eq in H. now subst.
  - injection H as ->. apply String.eqb_refl.
Qed.

Lemma duplicated_count_zero (seen col : list cell) :
  NoDup (rev seen ++ col) -> Main.duplicated_count seen col = 0%nat.
Proof.
  revert seen. induction col as [|c col IH]; intros seen N; simpl;
    [reflexivity|].
  rewrite IH by (simpl; rewrite <- app_assoc; exact N).
  destruct (existsb (Main.cell_eqb c) seen) eqn:E; [|reflexivity].
  exfalso. apply existsb_exists in E as [x [Hx Ex]].
  apply cell_eqb_eq in Ex. subst x.
  apply NoDup_remove_2 in N. apply N.
  apply in_or_app. left. now apply in_rev in Hx.
Qed.

Lemma report_In (count : nat) (i : nat -> Main.issue) (x : Main.issue) :
  In x (Main.report count i) <-> (0 < count)%nat /\ x = i count.
Proof.
  unfold Main.report. destruct (0 <? count)%nat eqn:E; simpl.
  - apply Nat.ltb_lt in E. split; [intros [<-|[]]; now split|].
    intros [_ ->]. now left.
  - apply Nat.ltb_ge in E. split; [contradiction | intros [H _]; lia].
Qed.

Lemma coverage_pct_bounds (month : string) (df : list Enriched) :
  (forall e, In e df -> in_month month e = true -> 0 <= cost (bill e)) ->
  0 <= coverage_pct (owner_coverage_of month df) <= 1.
Proof.
  intro H. unfold owner_coverage_of. simpl.
  set (dfm := filter (in_month month) df).
  assert (forall e, In e dfm -> 0 <= cost (bill e)) as Hm
    by (intros e He; apply filter_In in He as [? ?]; now apply H).
  assert (0 <= Qsum (map (fun e => cost (bill e)) (filter assigned dfm))) as A0.
  { apply Qsum_nonneg. intros x Hx. apply in_map_iff in Hx as [e [<- He]].
    apply filter_In in He as [He _]. now apply Hm. }
  pose proof (Qsum_filter_le (fun e => cost (bill e)) assigned dfm Hm) as A1.
  pose proof (round_dec_inject_Z 4 0) as R0. change (inject_Z 0) with 0 in R0.
  pose proof (round_dec_inject_Z 4 1) as R1. change (inject_Z 1) with 1 in R1.
  destruct (Qltb 0 (Qsum (map (fun e => cost (bill e)) dfm))) eqn:P.
  - apply Qltb_lt in P.
    set (a := Qsum (map (fun e => cost (bill e)) (filter assigned dfm))) in *.
    set (t := Qsum (map (fun e => cost (bill e)) dfm)) in *.
    assert (0 <= a / t) as Q0 by (apply Qle_shift_div_l; [exact P | lra]).
    assert (a / t <= 1) as Q1 by (apply Qle_shift_div_r; [exact P | lra]).
    pose proof (round_dec_mono 4 _ _ Q0). pose proof (round_dec_mono 4 _ _ Q1).
    split; lra.
  - split; lra.
Qed.

End QualityFacts.

(** The quality checks of [/kpi/quality-checks] and the queries: when
    the tables enrich, the check for duplicate resource ids reports
    nothing; and when, besides, the check for negative costs reports
    nothing, the coverage of every month lies between 0 and 1. *)
Theorem quality_checks_and_queries :
  forall (billing : list RawBilling) (resources0 : list RawResource)
         (df : list Enriched),
    enrich_billing billing resources0 = Ok df ->
    (forall n, ~ In (Main.duplicate_resource_ids n)
                    (Main.run_quality_checks billing resources0))
    /\ ((forall n, ~ In (Main.negative_costs n)
                        (Main.run_quality_checks billing resources0)) ->
        forall month,
        exists cov,
          owner_coverage month billing resources0 = Ok cov
          /\ 0 <= coverage_pct cov <= 1).
Proof.
  intros billing resources0 df E. split.
  - intros n Hin. unfold Main.run_quality_checks in Hin.
    apply in_app_or in Hin as [Hin|Hin];
      [apply report_In in Hin as [_ Hin]; discriminate|].
    apply in_app_or in Hin as [Hin|Hin];
      [apply report_In in Hin as [_ Hin]; discriminate|].
    apply report_In in Hin as [Hpos _].
    unfold enrich_billing in E.
    destruct (is_unique (resource_keys resources0)) eqn:U; [|discriminate].
    apply is_unique_NoDup in U. unfold resource_keys in U.
    rewrite map_map in U. simpl in U.
    rewrite <- (map_map raw_res_id normalize_resource_id) in U.
    apply NoDup_map_inv in U.
    rewrite (duplicated_count_zero [] _ U) in Hpos. lia.
  - intros Hneg month. unfold owner_coverage. rewrite E. simpl.
    eexists. split; [reflexivity|].
    apply coverage_pct_bounds. intros e He _.
    unfold enrich_billing in E.
    destruct (is_unique (resource_keys resources0)); [|discriminate].
    injection E as <-. apply in_map_iff in He as [b [<- Hb]].
    rewrite join_row_bill. apply in_map_iff in Hb as [b0 [<- Hb0]].
    simpl. destruct (raw_cost b0) as [c|] eqn:Ec; simpl; [|lra].
    destruct (Qltb c 0) eqn:Lc; [|now apply Qltb_ge in Lc].
    exfalso.
    apply (Hneg (List.length (filter Main.cost_is_negative billing))).
    unfold Main.run_quality_checks.
    apply in_or_app. right. apply in_or_app. left.
    apply report_In. split; [|reflexivity].
    assert (In b0 (filter Main.cost_is_negative billing)) as Hf.
    { apply filter_In. split; [exact Hb0|].
      unfold Main.cost_is_negative. now rewrite Ec. }
    destruct (filter Main.cost_is_negative billing); [contradiction|].
    simpl. lia.
Qed.

(** On the fixture of the tests the checks report nothing. *)
Lemma quality_checks_and_queries_witness :
  Main.run_quality_checks sample_billing_data sample_resources_data = []
  /\ exists cov,
       owner_coverage "2025-08" sample_billing_data sample_resources_data
       = Ok cov
       /\ 0 <= coverage_pct cov <= 1.
Proof.
  split; [vm_compute; reflexivity|].
  destruct (quality_checks_and_queries sample_billing_data
              sample_resources_data _ eq_refl) as [_ H].
  apply H. intros n Hn. vm_compute in Hn. contradiction.
Defined.

(* ================================================================== *)
(** ** The six-month trend                                              *)
(* ================================================================== *)

Section TrendFacts.

Lemma sorted_unique_sorted (l : list string) :
  StronglySorted (fun a b => String.compare a b = Lt) (sorted_unique l).
Proof.
  unfold sorted_unique. apply groups_sorted_keys.
  now destruct (groupby_groups_of (fun x : string => Some x) String.compare l).
Qed.

Lemma sorted_unique_In (l : list string) (x : string) :
  In x (sorted_unique l) <-> In x l.
Proof.
  unfold sorted_unique.
  destruct (groupby_groups_of (fun x : string => Some x) String.compare l)
    as [_ [G C]].
  rewrite in_map_iff. split.
  - intros [[k g] [<- Hg]]. simpl. destruct (G k g Hg) as [Eg Ng].
    destruct g as [|a g']; [congruence|].
    assert (In a (filter (has_key (fun x : string => Some x) String.compare k) l))
      as Ha by (rewrite <- Eg; now left).
    apply filter_In in Ha as [Ha Hk].
    apply (has_key_true (fun x : string => Some x) String.compare) in Hk.
    now injection Hk as <-.
  - intro Hx. destruct (C x x Hx eq_refl) as [g Hg]. now exists (x, g).
Qed.

Lemma last_n_suffix {A : Type} (n : nat) (l : list A) :
  l = firstn (List.length l - n) l ++ last_n n l.
Proof. unfold last_n. now rewrite firstn_skipn. Qed.

Lemma last_n_length {A : Type} (n : nat) (l : list A) :
  List.length (last_n n l) = Nat.min n (List.length l).
Proof. unfold last_n. rewrite length_skipn. lia. Qed.

Lemma StronglySorted_app {A : Type} (R : A -> A -> Prop) (l1 l2 : list A) :
  StronglySorted R (l1 ++ l2) ->
  StronglySorted R l2 /\ forall x y, In x l1 -> In y l2 -> R x y.
Proof.
  induction l1 as [|a l1 IH]; simpl; intro S.
  - split; [exact S | intros x y []].
  - apply StronglySorted_inv in S as [S F]. destruct (IH S) as [S2 H].
    split; [exact S2|]. intros x y [<-|Hx] Hy.
    + rewrite Forall_forall in F. apply F. apply in_or_app. now right.
    + now apply H.
Qed.

Lemma last6_months_spec (df : list Enriched) :
  StronglySorted (fun a b => String.compare a b = Lt) (last6_months df)
  /\ List.length (last6_months df)
     = Nat.min 6 (List.length
                    (sorted_unique (map (fun e => invoice_month (bill e)) df)))
  /\ (forall m, In m (last6_months df) ->
                exists e, In e df /\ invoice_month (bill e) = m)
  /\ (forall e, In e df ->
                In (invoice_month (bill e)) (last6_months df)
                \/ forall m, In m (last6_months df) ->
                             String.compare (invoice_month (bill e)) m = Lt).
Proof.
  unfold last6_months.
  set (months := sorted_unique (map (fun e => invoice_month (bill e)) df)).
  pose proof (sorted_unique_sorted (map (fun e => invoice_month (bill e)) df))
    as S. fold months in S.
  pose proof (last_n_suffix 6 months) as E.
  rewrite E in S. apply StronglySorted_app in S as [S2 H].
  split; [exact S2|]. split; [apply last_n_length|]. split.
  - intros m Hm.
    assert (In m months) as Hm' by (rewrite E; apply in_or_app; now right).
    apply (proj1 (sorted_unique_In
                    (map (fun e => invoice_month (bill e)) df) m)) in Hm'.
    apply in_map_iff in Hm' as [e [<- He]]. now exists e.
  - intros e He.
    assert (In (invoice_month (bill e)) months) as Hm.
    { apply (proj2 (sorted_unique_In
                      (map (fun e => invoice_month (bill e)) df) _)).
      apply in_map_iff. now exists e. }
    rewrite E in Hm. apply in_app_or in Hm as [Hm|Hm]; [right | now left].
    intros m Hm'. now apply H.
Qed.

Lemma trend_key_has_key (group_by : group_col) (m g : string) (e : Enriched) :
  has_key (fun e => Some (invoice_month (bill e), group_value group_by e))
          cmp_trend_key (m, g) e
  = String.eqb (invoice_month (bill e)) m
    && String.eqb (group_value group_by e) g.
Proof.
  unfold has_key, cmp_trend_key, cmp_pair. simpl.
  rewrite <- (compare_is_eqb (invoice_month (bill e)) m),
    <- (compare_is_eqb (group_value group_by e) g).
  destruct (String.compare (invoice_month (bill e)) m); reflexivity.
Qed.

Lemma existsb_eqb_In (x : string) (l : list string) :
  existsb (String.eqb x) l = true <-> In x l.
Proof.
  rewrite existsb_exists. split.
  - intros [y [Hy E]]. apply String.eqb_eq in E. now subst.
  - intro H. exists x. split; [exact H | apply String.eqb_refl].
Qed.

(** The rows of [agg] in [six_month_trend]. *)
Lemma trend_agg_spec (group_by : group_col) (df : list Enriched) :
  NoDup (map fst (trend_agg group_by df))
  /\ (forall m g v,
         In (m, g, v) (trend_agg group_by df) ->
         In m (last6_months df)
         /\ (exists e, In e df /\ invoice_month (bill e) = m
                       /\ group_value group_by e = g)
         /\ v = Qsum (map (fun e => cost (bill e))
                          (filter (fun e => String.eqb (invoice_month (bill e)) m
                                            && String.eqb (group_value group_by e) g)
                                  df)))
  /\ (forall e, In e df -> In (invoice_month (bill e)) (last6_months df) ->
                exists v, In (invoice_month (bill e), group_value group_by e, v)
                             (trend_agg group_by df)).
Proof.
  unfold trend_agg.
  set (sub := filter (fun e => existsb (String.eqb (invoice_month (bill e)))
                                       (last6_months df)) df).
  set (keyf := fun e : Enriched =>
                 Some (invoice_month (bill e), group_value group_by e)).
  destruct (groupby_groups_of keyf cmp_trend_key sub) as [S [G C]].
  set (gs := groupby keyf cmp_trend_key sub) in *.
  split; [|split].
  - rewrite map_map. simpl.
    apply (sorted_keys_NoDup cmp_trend_key), groups_sorted_keys, S.
  - intros m g v Hin. apply in_map_iff in Hin as [[k l] [E Hg]].
    simpl in E. injection E as -> <-.
    destruct (G _ _ Hg) as [El Nl].
    assert (l = filter (fun e => String.eqb (invoice_month (bill e)) m
                                 && String.eqb (group_value group_by e) g) sub)
      as El'.
    { rewrite El. apply filter_ext. intro e. apply trend_key_has_key. }
    destruct l as [|e0 l'] eqn:Dl; [congruence|]. rewrite <- Dl in *.
    assert (In e0 l) as He0 by (rewrite Dl; now left).
    rewrite El' in He0. apply filter_In in He0 as [He0 Hk].
    apply andb_true_iff in Hk as [Hm Hgv]. apply String.eqb_eq in Hm, Hgv.
    unfold sub in He0. apply filter_In in He0 as [He0 Hl6].
    apply existsb_eqb_In in Hl6. rewrite Hm in Hl6.
    split; [exact Hl6|]. split; [now exists e0|].
    f_equal. f_equal. rewrite El'. unfold sub. rewrite filter_filter.
    apply filter_ext. intro e.
    destruct (String.eqb (invoice_month (bill e)) m) eqn:Em;
      [|now rewrite andb_false_r].
    apply String.eqb_eq in Em. rewrite Em.
    rewrite (proj2 (existsb_eqb_In m (last6_months df)) Hl6). reflexivity.
  - intros e He Hm.
    assert (In e sub) as Hs
      by (apply filter_In; split; [exact He | now apply existsb_eqb_In]).
    destruct (C e _ Hs eq_refl) as [l Hl].
    exists (Qsum (map (fun e => cost (bill e)) l)).
    apply in_map_iff. now exists ((invoice_month (bill e), group_value group_by e), l).
Qed.

Lemma pivot_cell_spec (group_by : group_col) (df : list Enriched)
    (m g : string) :
  In m (last6_months df) ->
  pivot_cell (trend_agg group_by df) m g
  = Qsum (map (fun e => cost (bill e))
              (filter (fun e => String.eqb (invoice_month (bill e)) m
                                && String.eqb (group_value group_by e) g) df)).
Proof.
  intro Hm. destruct (trend_agg_spec group_by df) as [_ [V C]].
  unfold pivot_cell.
  destruct (find _ (trend_agg group_by df)) as [[[m' g'] v]|] eqn:F.
  - apply find_some in F as [Hin Hk]. simpl in Hk.
    apply andb_true_iff in Hk as [Em Eg]. apply String.eqb_eq in Em, Eg.
    subst m' g'. simpl. now destruct (V m g v Hin) as [_ [_ ->]].
  - rewrite filter_none; [reflexivity|].
    intros e He.
    destruct (String.eqb (invoice_month (bill e)) m) eqn:Em; [|reflexivity].
    destruct (String.eqb (group_value group_by e) g) eqn:Eg; [|reflexivity].
    exfalso. apply String.eqb_eq in Em, Eg.
    destruct (C e He) as [v Hv]; [now rewrite Em|].
    apply (find_none _ _ F) in Hv. simpl in Hv.
    rewrite Em, Eg, !String.eqb_refl in Hv. discriminate.
Qed.

Lemma Qsum_map_plus {A : Type} (f g : A -> Q) (l : list A) :
  Qsum (map (fun x => f x + g x) l) == Qsum (map f l) + Qsum (map g l).
Proof. induction l as [|x l IH]; simpl; lra. Qed.

Lemma Qsum_map_Qeq {A : Type} (f g : A -> Q) (l : list A) :
  (forall x, In x l -> f x == g x) -> Qsum (map f l) == Qsum (map g l).
Proof.
  induction l as [|x l IH]; intro H; simpl; [reflexivity|].
  rewrite (H x (or_introl eq_refl)), IH; [reflexivity|].
  intros; apply H; now right.
Qed.

Lemma Qsum_indicator (ks : list string) (k : string) (q : Q) :
  NoDup ks -> In k ks ->
  Qsum (map (fun k' => if String.eqb k k' then q else 0) ks) == q.
Proof.
  induction ks as [|k0 ks IH]; intros N Hin; [contradiction|].
  inversion N as [|? ? Hn N']; subst. simpl.
  destruct Hin as [->|Hin].
  - rewrite String.eqb_refl.
    rewrite (Qsum_map_Qeq _ (fun _ => 0)).
    + assert (Qsum (map (fun _ : string => 0) ks) == 0) as ->
        by (clear; induction ks; simpl; lra). lra.
    + intros x Hx. destruct (String.eqb k x) eqn:E; [|reflexivity].
      apply String.eqb_eq in E. subst. contradiction.
  - destruct (String.eqb k k0) eqn:E.
    + apply String.eqb_eq in E. subst. contradiction.
    + rewrite (IH N' Hin). lra.
Qed.

(** Summing the cells of a partition by key gives the sum of the rows. *)
Lemma partition_sum {A : Type} (f : A -> Q) (key : A -> string)
    (p : A -> bool) (ks : list string) (l : list A) :
  NoDup ks ->
  (forall x, In x l -> p x = true -> In (key x) ks) ->
  Qsum (map (fun k => Qsum (map f (filter (fun x => p x && String.eqb (key x) k) l)))
            ks)
  == Qsum (map f (filter p l)).
Proof.
  intros N. induction l as [|x l IH]; intro H; simpl.
  - clear. induction ks; simpl; lra.
  - assert (Qsum (map (fun k => Qsum (map f (filter (fun x0 => p x0 && String.eqb (key x0) k) l))) ks)
            == Qsum (map f (filter p l))) as IH'
      by (apply IH; intros; apply H; [now right | assumption]).
    destruct (p x) eqn:Px; simpl.
    + rewrite (Qsum_map_Qeq _
                 (fun k => (if String.eqb (key x) k then f x else 0)
                           + Qsum (map f (filter (fun x0 => p x0 && String.eqb (key x0) k) l)))).
      * rewrite Qsum_map_plus, IH'.
        rewrite (Qsum_indicator ks (key x) (f x) N);
          [reflexivity | apply H; [now left | exact Px]].
      * intros k _. destruct (String.eqb (key x) k); simpl; lra.
    + exact IH'.
Qed.

End TrendFacts.

Section TrendProof.

Lemma six_month_trend_of_unfold (group_by : group_col) (df : list Enriched) :
  six_month_trend_of group_by df
  = let agg := trend_agg group_by df in
    let index := sorted_unique (map (fun r => fst (fst r)) agg) in
    let columns := sorted_unique (map (fun r => snd (fst r)) agg) in
    mkPivot index columns (map (fun m => map (pivot_cell agg m) columns) index).
Proof.
  unfold six_month_trend_of.
  destruct (sorted_unique (map (fun e => invoice_month (bill e)) df)) eqn:M;
    [|reflexivity].
  destruct df as [|e df]; [reflexivity|]. exfalso.
  assert (In (invoice_month (bill e))
             (sorted_unique (map (fun e => invoice_month (bill e)) (e :: df))))
    as H by (apply sorted_unique_In; now left).
  rewrite M in H. contradiction.
Qed.

Lemma trend_index_eq (group_by : group_col) (df : list Enriched) :
  sorted_unique (map (fun r => fst (fst r)) (trend_agg group_by df))
  = last6_months df.
Proof.
  destruct (trend_agg_spec group_by df) as [_ [V C]].
  destruct (last6_months_spec df) as [S6 [_ [H6 _]]].
  apply (sorted_lists_eq (fun a b => String.compare a b = Lt)).
  - intros x y Hx Hy. rewrite String.compare_antisym, Hx in Hy. discriminate.
  - intros x Hx. rewrite string_compare_refl in Hx. discriminate.
  - apply sorted_unique_sorted.
  - exact S6.
  - intro m. rewrite sorted_unique_In, in_map_iff. split.
    + intros [[[m' g] v] [<- Hin]]. simpl. now destruct (V _ _ _ Hin).
    + intro Hm. destruct (H6 m Hm) as [e [He <-]].
      destruct (C e He Hm) as [v Hv].
      now exists (invoice_month (bill e), group_value group_by e, v).
Qed.

Lemma trend_columns_In (group_by : group_col) (df : list Enriched) (g : string) :
  In g (sorted_unique (map (fun r => snd (fst r)) (trend_agg group_by df)))
  <-> exists e, In e df /\ In (invoice_month (bill e)) (last6_months df)
                /\ group_value group_by e = g.
Proof.
  destruct (trend_agg_spec group_by df) as [_ [V C]].
  rewrite sorted_unique_In, in_map_iff. split.
  - intros [[[m g'] v] [<- Hin]]. simpl.
    destruct (V _ _ _ Hin) as [Hm [[e [He [Em Eg]]] _]].
    exists e. split; [exact He|]. split; [now rewrite Em | exact Eg].
  - intros [e [He [Hm <-]]]. destruct (C e He Hm) as [v Hv].
    now exists (invoice_month (bill e), group_value group_by e, v).
Qed.

End TrendProof.

(** The index of the trend table: the months of the frame in ascending
    order when there are at most six, and the six latest of them
    otherwise.  No month of the frame that is missing from the table is
    later than a month of the table. *)
Theorem six_month_trend_index :
  forall (group_by : group_col) (df : list Enriched),
    let index := pivot_index (six_month_trend_of group_by df) in
    StronglySorted (fun a b => String.compare a b = Lt) index
    /\ List.length index
       = Nat.min 6 (List.length
                      (sorted_unique (map (fun e => invoice_month (bill e)) df)))
    /\ (forall m, In m index ->
                  exists e, In e df /\ invoice_month (bill e) = m)
    /\ (forall e, In e df ->
                  In (invoice_month (bill e)) index
                  \/ forall m, In m index ->
                               String.compare (invoice_month (bill e)) m = Lt).
Proof.
  intros group_by df index. unfold index.
  rewrite six_month_trend_of_unfold. cbn [pivot_index].
  rewrite trend_index_eq. apply last6_months_spec.
Qed.

(** The cells of the trend table: the columns are the values of the
    grouping column on the rows of the table's months, in ascending
    order; the cell of a month and a value is the summed cost of the rows
    with that month and value, 0 when there is none; and the cells of a
    month add up to the total cost of that month. *)
Theorem six_month_trend_cells :
  forall (group_by : group_col) (df : list Enriched),
    let p := six_month_trend_of group_by df in
    StronglySorted (fun a b => String.compare a b = Lt) (pivot_columns p)
    /\ (forall g, In g (pivot_columns p)
                  <-> exists e, In e df
                                /\ In (invoice_month (bill e)) (pivot_index p)
                                /\ group_value group_by e = g)
    /\ pivot_values p
       = map (fun m =>
                map (fun g =>
                       Qsum (map (fun e => cost (bill e))
                                 (filter (fun e =>
                                            String.eqb (invoice_month (bill e)) m
                                            && String.eqb (group_value group_by e) g)
                                         df)))
                    (pivot_columns p))
             (pivot_index p)
    /\ Forall2 (fun m row =>
                  Qsum row
                  == Qsum (map (fun e => cost (bill e)) (filter (in_month m) df)))
               (pivot_index p) (pivot_values p).
Proof.
  intros group_by df p. unfold p.
  rewrite six_month_trend_of_unfold.
  cbn [pivot_index pivot_columns pivot_values].
  rewrite trend_index_eq.
  set (columns := sorted_unique
                    (map (fun r => snd (fst r)) (trend_agg group_by df))).
  assert (map (fun m => map (pivot_cell (trend_agg group_by df) m) columns)
              (last6_months df)
          = map (fun m =>
                   map (fun g =>
                          Qsum (map (fun e => cost (bill e))
                                    (filter (fun e =>
                                               String.eqb (invoice_month (bill e)) m
                                               && String.eqb (group_value group_by e) g)
                                            df)))
                       columns)
                (last6_months df)) as Hvals.
  { apply map_ext_in. intros m Hm. apply map_ext. intro g.
    now apply pivot_cell_spec. }
  split; [apply sorted_unique_sorted|].
  split; [intro g; apply trend_columns_In|].
  split; [exact Hvals|].
  rewrite Hvals.
  assert (forall ms, (forall m, In m ms -> In m (last6_months df)) ->
            Forall2 (fun m row =>
                       Qsum row
                       == Qsum (map (fun e => cost (bill e))
                                    (filter (in_month m) df)))
                    ms
                    (map (fun m =>
                            map (fun g =>
                                   Qsum (map (fun e => cost (bill e))
                                             (filter (fun e =>
                                                        String.eqb (invoice_month (bill e)) m
                                                        && String.eqb (group_value group_by e) g)
                                                     df)))
                                columns) ms)) as H.
  { induction ms as [|m ms IH]; intro Hms; simpl; constructor.
    - apply (partition_sum (fun e => cost (bill e)) (group_value group_by)
                           (in_month m) columns df).
      + apply (sorted_keys_NoDup String.compare), sorted_unique_sorted.
      + intros e He Hm. apply trend_columns_In. exists e.
        split; [exact He|]. split; [|reflexivity].
        apply String.eqb_eq in Hm. rewrite Hm. apply Hms. now left.
    - apply IH. intros; apply Hms; now right. }
  apply H. trivial.
Qed.


(* ================================================================== *)
(** ** Top cost drivers                                                 *)
(* ================================================================== *)

Section DriverFacts.

#[global] Instance cmp_option_order {A : Type} (ca : A -> A -> comparison)
    `{CmpOrder A ca} : CmpOrder (cmp_option ca).
Proof.
  split.
  - intros [a|] [b|]; simpl; split; try discriminate; try reflexivity.
    + intro E. apply cmp_eq_iff in E. now subst.
    + intro E. inversion E. now apply cmp_eq_iff.
  - intros [a|] [b|] [c|]; simpl; try discriminate; try reflexivity.
    apply cmp_lt_trans.
  - intros [a|] [b|]; simpl; try reflexivity. apply cmp_antisym.
Qed.

Lemma cmp_driver_key_order : CmpOrder cmp_driver_key.
Proof. unfold cmp_driver_key. typeclasses eauto. Qed.

Lemma is_driver_true (k : driver_key_t) (x : Located) :
  is_driver k x = true <-> driver_key x = k.
Proof.
  unfold is_driver.
  rewrite (@has_key_true _ _ _ _ cmp_driver_key_order). split.
  - intro E. now inversion E.
  - now intros ->.
Qed.

Lemma head_prefix {A : Type} (n : Z) (l : list A) :
  exists rest,
    l = head n l ++ rest
    /\ ((0 <= n)%Z -> (List.length (head n l) <= Z.to_nat n)%nat)
    /\ ((0 <= n)%Z -> rest <> [] -> List.length (head n l) = Z.to_nat n).
Proof.
  unfold head. destruct (0 <=? n)%Z eqn:E.
  - exists (skipn (Z.to_nat n) l). split; [now rewrite firstn_skipn|].
    split; intros _.
    + apply firstn_le_length.
    + intro Hne. apply firstn_length_le.
      destruct (Nat.le_gt_cases (Z.to_nat n) (List.length l)) as [Hle|Hgt];
        [exact Hle|].
      exfalso. apply Hne. apply skipn_all2. lia.
  - exists (skipn (List.length l - Z.to_nat (- n)%Z) l).
    split; [now rewrite firstn_skipn|].
    apply Z.leb_gt in E. split; intro; lia.
Qed.

Lemma head_length {A : Type} (n : Z) (l : list A) :
  List.length (head n l)
  = if (0 <=? n)%Z
    then Nat.min (Z.to_nat n) (List.length l)
    else (List.length l - Z.to_nat (- n)%Z)%nat.
Proof.
  unfold head. destruct (0 <=? n)%Z; rewrite length_firstn; lia.
Qed.

Lemma StronglySorted_prefix {A : Type} (R : A -> A -> Prop) (l1 l2 : list A) :
  StronglySorted R (l1 ++ l2) -> StronglySorted R l1.
Proof.
  induction l1 as [|x l1 IH]; simpl; intro S; [constructor|].
  inversion S as [|? ? S' F]; subst. constructor; [now apply IH|].
  apply Forall_app in F. tauto.
Qed.

End DriverFacts.

(** The rows of [top_n_cost_drivers] are in descending order of cost and
    no group key [(resource_id, service, resource_group, owner)] has two
    rows; the cost of a row is the summed cost of the rows of the month
    with its key; for [n >= 0] there are at most [n] rows.  The rows are
    the top ones: a key of the month that is left out has a summed cost
    no larger than that of any row returned, and is left out for
    [n >= 0] only when [n] rows are returned.  The number of rows is
    fixed by [n] and the number [g] of distinct keys of the month: the
    smaller of [n] and [g] for [n >= 0], and [g - (-n)] (0 when [-n]
    exceeds [g]) for a negative [n], which drops the last [-n] groups. *)
Theorem top_n_cost_drivers_spec :
  forall (month : string) (n : Z) (df : list Located),
    let top := top_n_cost_drivers_of month n df in
    let month_cost := fun k =>
      Qsum (map (fun x => cost (bill (located x)))
                (filter (fun x => in_month month (located x) && is_driver k x)
                        df)) in
    StronglySorted (fun a b => snd b <= snd a) top
    /\ NoDup (map fst top)
    /\ ((0 <= n)%Z -> (List.length top <= Z.to_nat n)%nat)
    /\ (forall k c,
           In (k, c) top ->
           (exists x, In x df /\ in_month month (located x) = true
                      /\ driver_key x = k)
           /\ c = month_cost k)
    /\ (forall x,
           In x df -> in_month month (located x) = true ->
           ~ In (driver_key x) (map fst top) ->
           (forall r, In r top -> month_cost (driver_key x) <= snd r)
           /\ ((0 <= n)%Z -> List.length top = Z.to_nat n))
    /\ (exists keys,
           NoDup keys
           /\ (forall k, In k keys
                         <-> exists x, In x df
                                       /\ in_month month (located x) = true
                                       /\ driver_key x = k)
           /\ List.length top
              = if (0 <=? n)%Z
                then Nat.min (Z.to_nat n) (List.length keys)
                else (List.length keys - Z.to_nat (- n)%Z)%nat).
Proof.
  intros month n df top month_cost. unfold top, top_n_cost_drivers_of.
  set (dfm := filter (fun x => in_month month (located x)) df).
  set (keyf := fun x : Located => Some (driver_key x)).
  set (gs := groupby keyf cmp_driver_key dfm).
  set (row := fun g : driver_key_t * list Located =>
                (fst g, Qsum (map (fun x => cost (bill (located x))) (snd g)))).
  set (full := sort_desc snd (map row gs)).
  pose proof cmp_driver_key_order as O.
  destruct (groupby_groups_of keyf cmp_driver_key dfm) as [S [G C]].
  fold gs in S, G, C.
  assert (forall k l, In (k, l) gs ->
            Qsum (map (fun x => cost (bill (located x))) l) = month_cost k)
    as Hgroup.
  { intros k l Hin. destruct (G k l Hin) as [-> _].
    unfold month_cost, dfm. rewrite filter_filter. reflexivity. }
  destruct (head_prefix n full) as [rest [Hfull [Hle Hcut]]].
  assert (StronglySorted (fun a b => snd b <= snd a) (head n full ++ rest))
    as Sfull by (rewrite <- Hfull; apply sort_desc_sorted).
  assert (NoDup (map fst full)) as Nall.
  { apply (Permutation_NoDup
             (Permutation_map fst (Permutation_sym (sort_desc_perm snd (map row gs))))).
    rewrite map_map. simpl.
    apply (sorted_keys_NoDup cmp_driver_key), groups_sorted_keys, S. }
  assert (NoDup (map fst (head n full ++ rest))) as Nfull
    by (rewrite <- Hfull; exact Nall).
  assert (forall k c,
            In (k, c) full ->
            (exists x, In x df /\ in_month month (located x) = true
                       /\ driver_key x = k)
            /\ c = month_cost k) as Hmem.
  { intros k c Hf. unfold full in Hf.
    rewrite sort_desc_In, in_map_iff in Hf.
    destruct Hf as [[k' l] [E Hl]]. unfold row in E. simpl in E.
    inversion E; subst. split; [|exact (Hgroup k l Hl)].
    destruct (G k l Hl) as [El Nl].
    destruct l as [|x l]; [congruence|].
    assert (In x (filter (has_key keyf cmp_driver_key k) dfm)) as Hx
      by (rewrite <- El; now left).
    apply filter_In in Hx as [Hx Hk]. unfold dfm in Hx.
    apply filter_In in Hx as [Hx Hm].
    exists x. split; [exact Hx|]. split; [exact Hm|].
    now apply is_driver_true. }
  assert (forall x, In x df -> in_month month (located x) = true ->
                    exists l, In (driver_key x, l) gs
                              /\ In (row (driver_key x, l)) full) as Hkey.
  { intros x Hx Hm.
    assert (In x dfm) as Hd by (apply filter_In; now split).
    destruct (C x (driver_key x) Hd eq_refl) as [l Hl].
    exists l. split; [exact Hl|]. unfold full. rewrite sort_desc_In.
    apply in_map_iff. now exists (driver_key x, l). }
  split; [exact (StronglySorted_prefix _ _ _ Sfull)|].
  split; [rewrite map_app in Nfull; exact (NoDup_app_remove_r _ _ Nfull)|].
  split; [exact Hle|]. split; [|split].
  - intros k c Hin. apply Hmem. rewrite Hfull. apply in_or_app. now left.
  - intros x Hx Hm Hout.
    destruct (Hkey x Hx Hm) as [l [Hl Hr]]. rewrite Hfull in Hr.
    apply in_app_or in Hr as [Hr|Hr].
    { exfalso. apply Hout. apply in_map_iff.
      now exists (row (driver_key x, l)). }
    split.
    + intros r Hin.
      destruct (StronglySorted_app _ _ _ Sfull) as [_ Hcross].
      specialize (Hcross r _ Hin Hr). unfold row in Hcross. simpl in Hcross.
      now rewrite (Hgroup _ _ Hl) in Hcross.
    + intro Hn. apply Hcut; [exact Hn|]. intro E. rewrite E in Hr. exact Hr.
  - exists (map fst full). split; [exact Nall|]. split.
    + intro k. rewrite in_map_iff. split.
      * intros [[k' c] [<- Hin]]. simpl. now apply Hmem in Hin.
      * intros [x [Hx [Hm <-]]]. destruct (Hkey x Hx Hm) as [l [_ Hr]].
        now exists (row (driver_key x, l)).
    + rewrite length_map. apply head_length.
Qed.

